(** * InputRenderer: the pooled input-visual manager of webxr-samples

    A shallow embedding of [class InputRenderer] (the file with the laser and
    cursor materials) together with theorems about its pool discipline.

    Scene-graph nodes are JavaScript objects that are shared between the
    renderer's child list and the pools, so the model keeps an explicit object
    store: a node is referred to by its index in [heap], and every pool holds
    references.  The controller registry is a JavaScript object used as a
    dictionary from the string [profile + "_" + handedness] to a pool record;
    it is modelled by a finite map together with the members that a plain
    object inherits from [Object.prototype] (see [inheritedNames]). *)

From stdpp Require Import gmap strings list fin_maps.

(** ** Completions *)

(** [TypeError] is the JavaScript exception raised by reading a property of
    [null] or [undefined].  [Dangling] is not a JavaScript behaviour: it marks
    a reference that points outside the model's store, which no execution of
    the program produces (see [Inv]). *)
Inductive Error := TypeError | Dangling.

Inductive Completion (A : Type) :=
  | Normal (a : A)
  | Throw (e : Error).
Arguments Normal {A} a.
Arguments Throw {A} e.

(** ** Mesh data *)

Inductive MaterialName := INPUT_LASER | INPUT_CURSOR | INPUT_CURSOR_2.

#[global] Instance MaterialName_eq_dec : EqDecision MaterialName.
Proof. solve_decision. Defined.

(** What [createRenderPrimitive(primitive, material)] is handed: the material
    and the primitive's element count. *)
Record RenderPrimitive := mkRenderPrimitive {
  rp_material : MaterialName;
  rp_elementCount : nat
}.

#[global] Instance RenderPrimitive_eq_dec : EqDecision RenderPrimitive.
Proof. solve_decision. Defined.

Definition laserIndices : list nat :=
  [0; 1; 2; 1; 3; 2; 4; 5; 6; 5; 7; 6; 8; 9; 10; 9; 11; 10; 12; 13; 14; 13; 15; 14].

Definition CURSOR_SEGMENTS : nat := 16.

(** The index list built by the two loops of [_createCursorMesh] and the two
    closing pushes. *)
Definition cursorIndices : list nat :=
  let center :=
    flat_map (fun i => if decide (1 < i) then [0; i - 1; i] else [])
             (seq 0 CURSOR_SEGMENTS) in
  let indexOffset := CURSOR_SEGMENTS in
  let skirt :=
    flat_map (fun i =>
                if decide (0 < i)
                then let idx := indexOffset + i * 2 in
                     [idx - 2; idx - 1; idx; idx - 1; idx + 1; idx]
                else [])
             (seq 0 CURSOR_SEGMENTS) in
  let idx := indexOffset + CURSOR_SEGMENTS * 2 in
  center ++ skirt ++ [idx - 2; idx - 1; indexOffset; idx - 1; indexOffset + 1; indexOffset].

Inductive NodeClass :=
  | PlainNode
  | Gltf2Node (url : string).

#[global] Instance NodeClass_eq_dec : EqDecision NodeClass.
Proof. solve_decision. Defined.

(** A reference to a node object: its index in the store. *)
Abbreviation ref := nat (only parsing).

(** The pool record [{ nodes: [...], activeCount: 0 }] of one controller key.
    [ctl_visible] is the property [visible] that [hideController] adds to the
    record; it is [None] while the property is absent. *)
Record Controller := mkController {
  nodes : list ref;
  activeCount : nat;
  ctl_visible : option bool
}.

Definition DEFAULT_PROFILES_PATH : string :=
  "https://cdn.jsdelivr.net/npm/@webxr-input-profiles/assets@1.0/dist/profiles".

(** The [options] argument of [reset]. *)
Record ResetOptions := mkResetOptions {
  controllers : bool;
  lasers : bool;
  cursors : bool
}.

Definition DEFAULT_RESET_OPTIONS : ResetOptions :=
  {| controllers := true; lasers := true; cursors := true |}.

(** [session.visibilityState] *)
Inductive VisibilityState := Visible | VisibleBlurred | Hidden.

(** The fields of an [XRInputSource] that the device hook reads. *)
Record InputSource := mkInputSource {
  targetRayMode : string;
  handedness : string;
  profiles : list string
}.

(** ** The cursor geometry, for any number of segments *)

(** [cursorIndices] with the constant [CURSOR_SEGMENTS] as a parameter. *)
Definition cursorIndicesOf (segments : nat) : list nat :=
  let center :=
    flat_map (fun i => if decide (1 < i) then [0; i - 1; i] else [])
             (seq 0 segments) in
  let indexOffset := segments in
  let skirt :=
    flat_map (fun i =>
                if decide (0 < i)
                then let idx := indexOffset + i * 2 in
                     [idx - 2; idx - 1; idx; idx - 1; idx + 1; idx]
                else [])
             (seq 0 segments) in
  let idx := indexOffset + segments * 2 in
  center ++ skirt ++ [idx - 2; idx - 1; indexOffset; idx - 1; indexOffset + 1; indexOffset].

(** The vertices that [_createCursorMesh] pushes, by the push that makes
    them (each push appends the four floats [X, Y, Luminance, Opacity] of one
    vertex): the rim of the dot in the first loop, then, per segment of the
    second loop, the inner and the outer vertex of the skirt. *)
Inductive CursorVertex :=
  | CenterVertex (i : nat)
  | SkirtInnerVertex (i : nat)
  | SkirtOuterVertex (i : nat).

Definition cursorVertsOf (segments : nat) : list CursorVertex :=
  (CenterVertex <$> seq 0 segments)
    ++ flat_map (fun i => [SkirtInnerVertex i; SkirtOuterVertex i]) (seq 0 segments).

(** The triangles of the cursor as lists of vertices, three per triangle: a
    fan over the rim of the dot, two triangles between each segment of the
    skirt and its predecessor, and two that close the skirt. *)
Definition cursorTrianglesOf (segments : nat) : list CursorVertex :=
  flat_map (fun i =>
              if decide (1 < i)
              then [CenterVertex 0; CenterVertex (i - 1); CenterVertex i]
              else [])
           (seq 0 segments)
    ++ flat_map (fun i =>
                   if decide (0 < i)
                   then [SkirtInnerVertex (i - 1); SkirtOuterVertex (i - 1);
                         SkirtInnerVertex i;
                         SkirtOuterVertex (i - 1); SkirtOuterVertex i;
                         SkirtInnerVertex i]
                   else [])
                (seq 0 segments)
    ++ [SkirtInnerVertex (segments - 1); SkirtOuterVertex (segments - 1);
        SkirtInnerVertex 0;
        SkirtOuterVertex (segments - 1); SkirtOuterVertex 0;
        SkirtInnerVertex 0].

(** ** primitive.ts *)

(** [x || d] on a number argument: an omitted argument and 0 both give [d].
    The numbers are the integers that callers pass (component counts, byte
    offsets, element counts, GL enum values). *)
Definition orElse (x : option Z) (d : Z) : Z :=
  match x with
  | Some v => if decide (v = 0%Z) then d else v
  | None => d
  end.

Section Primitives.

(** Buffers and bounds are opaque to this file. *)
Context {Buffer Bounds : Type}.

Record PrimitiveAttribute := mkPrimitiveAttribute {
  pa_name : string;
  pa_buffer : Buffer;
  componentCount : Z;
  componentType : Z;
  stride : Z;
  byteOffset : Z;
  normalized : bool
}.

(** [new PrimitiveAttribute(name, buffer, componentCount, componentType,
    stride, byteOffset)] *)
Definition PrimitiveAttribute_new (name : string) (buffer : Buffer)
    (componentCount componentType stride byteOffset : option Z)
    : PrimitiveAttribute :=
  {| pa_name := name;
     pa_buffer := buffer;
     componentCount := orElse componentCount 3;
     componentType := orElse componentType 5126;
     stride := orElse stride 0;
     byteOffset := orElse byteOffset 0;
     normalized := false |}.

Record Primitive := mkPrimitive {
  attributes : list PrimitiveAttribute;
  elementCount : Z;
  mode : Z;
  indexBuffer : option Buffer;
  indexByteOffset : Z;
  indexType : Z;
  _min : option Bounds;
  _max : option Bounds
}.

(** [new Primitive(attributes, elementCount, mode)].  An empty array is
    truthy, so only an omitted [attributes] is replaced. *)
Definition Primitive_new (attributes : option (list PrimitiveAttribute))
    (elementCount mode : option Z) : Primitive :=
  {| attributes := default [] attributes;
     elementCount := orElse elementCount 0;
     mode := orElse mode 4;
     indexBuffer := None;
     indexByteOffset := 0;
     indexType := 0;
     _min := None;
     _max := None |}.

(** [setIndexBuffer(indexBuffer, byteOffset, indexType)] *)
Definition setIndexBuffer (p : Primitive) (indexBuffer : option Buffer)
    (byteOffset indexType : option Z) : Primitive :=
  {| attributes := attributes p;
     elementCount := elementCount p;
     mode := mode p;
     indexBuffer := indexBuffer;
     indexByteOffset := orElse byteOffset 0;
     indexType := orElse indexType 5123;
     _min := _min p;
     _max := _max p |}.

End Primitives.

(** The cursor primitive as [_createCursorMesh] builds it from its vertex
    and index buffers: one attribute of four floats per vertex, and the index
    buffer set with the default offset and type.  [5126] is [gl.FLOAT]. *)
Definition cursorPrimitiveOf {Buffer Bounds : Type} (segments : nat)
    (cursorVertexBuffer cursorIndexBuffer : Buffer)
    : @Primitive Buffer Bounds :=
  let cursorIndexCount := length (cursorIndicesOf segments) in
  let cursorAttribs :=
    [PrimitiveAttribute_new "POSITION" cursorVertexBuffer
       (Some 4%Z) (Some 5126%Z) (Some 16%Z) (Some 0%Z)] in
  let cursorPrimitive :=
    Primitive_new (Some cursorAttribs) (Some (Z.of_nat cursorIndexCount)) None in
  setIndexBuffer cursorPrimitive (Some cursorIndexBuffer) None None.

Section Manager.

(** Transforms, positions and the graphics backend are opaque to the manager:
    it stores and compares none of their contents. *)
Context {Matrix Vec3 Renderer : Type}.

(** The value of [visible] that [new Node()] starts with.  Class [Node] is
    not under src/, so the value is a parameter. *)
Variable Node_visible0 : bool.

Record Node := mkNode {
  node_class : NodeClass;
  visible : bool;
  matrix : option Matrix;
  translation : option Vec3;
  renderPrimitives : list RenderPrimitive
}.

Definition set_visible (b : bool) (n : Node) : Node :=
  {| node_class := node_class n; visible := b; matrix := matrix n;
     translation := translation n; renderPrimitives := renderPrimitives n |}.

Definition set_matrix (m : Matrix) (n : Node) : Node :=
  {| node_class := node_class n; visible := visible n; matrix := Some m;
     translation := translation n; renderPrimitives := renderPrimitives n |}.

Definition set_translation (v : Vec3) (n : Node) : Node :=
  {| node_class := node_class n; visible := visible n; matrix := matrix n;
     translation := Some v; renderPrimitives := renderPrimitives n |}.

(** [new Node()] *)
Definition Node_new : Node :=
  {| node_class := PlainNode; visible := Node_visible0; matrix := None;
     translation := None; renderPrimitives := [] |}.

(** [new Gltf2Node({ url })] *)
Definition Gltf2Node_new (url : string) : Node :=
  {| node_class := Gltf2Node url; visible := Node_visible0; matrix := None;
     translation := None; renderPrimitives := [] |}.

(** Modelled from the spec: [Node.clone] (class [Node] is not under src/):
    "deep-copies transform/visibility state, shares mesh/material
    references".  The clone is a new object; its fields start as copies. *)
Definition clone (n : Node) : Node :=
  {| node_class := node_class n; visible := visible n; matrix := matrix n;
     translation := translation n; renderPrimitives := renderPrimitives n |}.

(** The manager object together with the store its references point into.
    [inheritedVisible] is the one part of the state outside the manager that
    its methods write and read: the members of [Object.prototype] on which
    [hideController] has set a property [visible], by name, with
    ["__proto__"] for [Object.prototype] itself (see [hideController]). *)
Record InputRenderer := mkInputRenderer {
  heap : list Node;
  children : list ref;
  _maxInputElements : nat;
  _controllers : option (gmap string Controller);
  _lasers : option (list ref);
  _cursors : option (list ref);
  _activeControllers : nat;
  _activeLasers : nat;
  _activeCursors : nat;
  _blurred : bool;
  _renderer : option Renderer;
  inheritedVisible : gset string
}.

Definition with_heap (h : list Node) (s : InputRenderer) : InputRenderer :=
  mkInputRenderer h (children s) (_maxInputElements s) (_controllers s)
    (_lasers s) (_cursors s) (_activeControllers s) (_activeLasers s)
    (_activeCursors s) (_blurred s) (_renderer s) (inheritedVisible s).

Definition with_children (c : list ref) (s : InputRenderer) : InputRenderer :=
  mkInputRenderer (heap s) c (_maxInputElements s) (_controllers s)
    (_lasers s) (_cursors s) (_activeControllers s) (_activeLasers s)
    (_activeCursors s) (_blurred s) (_renderer s) (inheritedVisible s).

Definition with_controllers (c : option (gmap string Controller))
    (s : InputRenderer) : InputRenderer :=
  mkInputRenderer (heap s) (children s) (_maxInputElements s) c
    (_lasers s) (_cursors s) (_activeControllers s) (_activeLasers s)
    (_activeCursors s) (_blurred s) (_renderer s) (inheritedVisible s).

Definition with_lasers (l : option (list ref)) (s : InputRenderer) : InputRenderer :=
  mkInputRenderer (heap s) (children s) (_maxInputElements s) (_controllers s)
    l (_cursors s) (_activeControllers s) (_activeLasers s)
    (_activeCursors s) (_blurred s) (_renderer s) (inheritedVisible s).

Definition with_cursors (l : option (list ref)) (s : InputRenderer) : InputRenderer :=
  mkInputRenderer (heap s) (children s) (_maxInputElements s) (_controllers s)
    (_lasers s) l (_activeControllers s) (_activeLasers s)
    (_activeCursors s) (_blurred s) (_renderer s) (inheritedVisible s).

Definition with_activeControllers (k : nat) (s : InputRenderer) : InputRenderer :=
  mkInputRenderer (heap s) (children s) (_maxInputElements s) (_controllers s)
    (_lasers s) (_cursors s) k (_activeLasers s)
    (_activeCursors s) (_blurred s) (_renderer s) (inheritedVisible s).

Definition with_activeLasers (k : nat) (s : InputRenderer) : InputRenderer :=
  mkInputRenderer (heap s) (children s) (_maxInputElements s) (_controllers s)
    (_lasers s) (_cursors s) (_activeControllers s) k
    (_activeCursors s) (_blurred s) (_renderer s) (inheritedVisible s).

Definition with_activeCursors (k : nat) (s : InputRenderer) : InputRenderer :=
  mkInputRenderer (heap s) (children s) (_maxInputElements s) (_controllers s)
    (_lasers s) (_cursors s) (_activeControllers s) (_activeLasers s)
    k (_blurred s) (_renderer s) (inheritedVisible s).

Definition with_blurred (b : bool) (s : InputRenderer) : InputRenderer :=
  mkInputRenderer (heap s) (children s) (_maxInputElements s) (_controllers s)
    (_lasers s) (_cursors s) (_activeControllers s) (_activeLasers s)
    (_activeCursors s) b (_renderer s) (inheritedVisible s).

Definition with_renderer (r : option Renderer) (s : InputRenderer) : InputRenderer :=
  mkInputRenderer (heap s) (children s) (_maxInputElements s) (_controllers s)
    (_lasers s) (_cursors s) (_activeControllers s) (_activeLasers s)
    (_activeCursors s) (_blurred s) r (inheritedVisible s).

Definition with_inheritedVisible (v : gset string) (s : InputRenderer)
    : InputRenderer :=
  mkInputRenderer (heap s) (children s) (_maxInputElements s) (_controllers s)
    (_lasers s) (_cursors s) (_activeControllers s) (_activeLasers s)
    (_activeCursors s) (_blurred s) (_renderer s) v.

(** ** Store primitives *)

(** Allocation of a new object: it gets the next free reference. *)
Definition alloc (n : Node) (s : InputRenderer) : InputRenderer * ref :=
  (with_heap (heap s ++ [n]) s, length (heap s)).

(** An assignment to a field of the object behind [r]. *)
Definition store (f : Node -> Node) (r : ref) (s : InputRenderer) : InputRenderer :=
  with_heap (alter f r (heap s)) s.

(** Modelled from the spec: [Node.addNode] (class [Node] is not under src/):
    "add_child(node)", the node becomes a child of the manager. *)
Definition addNode (r : ref) (s : InputRenderer) : InputRenderer :=
  with_children (children s ++ [r]) s.

(** ** The class *)

(** [constructor()], run in a store that already holds the objects [h] and
    in which [Object.prototype] is as the language defines it.
    [_renderer] is declared and not assigned: it starts undefined. *)
Definition constructor (h : list Node) : InputRenderer :=
  {| heap := h; children := [];
     _maxInputElements := 32;
     _controllers := None; _lasers := None; _cursors := None;
     _activeControllers := 0; _activeLasers := 0; _activeCursors := 0;
     _blurred := false; _renderer := None; inheritedVisible := ∅ |}.

Definition onRendererChanged (s : InputRenderer) (_renderer : option Renderer)
    : InputRenderer :=
  with_activeCursors 0
    (with_activeLasers 0
      (with_activeControllers 0
        (with_cursors None (with_lasers None (with_controllers None s))))).

(** ** The registry object

    [_controllers] is a plain object created by [{}]: a lookup that finds no
    own property goes on in the prototype chain, which starts at
    [Object.prototype].  Every key has the form [profile + "_" + handedness],
    so the members of [Object.prototype] that a key can name are those with
    an underscore in their name: the accessor [__proto__] and the four legacy
    methods.  An assignment under the name of a legacy method creates an own
    property.  An assignment of a pool record under [__proto__] calls the
    setter of the accessor, which makes the record the prototype of the
    registry; a lookup of [__proto__] calls the getter, which returns the
    prototype.  In the map that models the registry the entry of
    ["__proto__"], when there is one, is that prototype record, and every
    other entry is an own property.  Without an entry the name of an
    inherited member finds the member: [Object.prototype] itself for
    [__proto__], a function for the others. *)
Definition inheritedNames : list string :=
  ["__proto__"; "__defineGetter__"; "__defineSetter__";
   "__lookupGetter__"; "__lookupSetter__"].

(** The registry key [profile + "_" + handedness], with the default
    parameter values [handedness = "right"] and [profile = ""] applied when
    the argument is undefined. *)
Definition controllerKey (handedness profile : option string) : string :=
  default "" profile +:+ "_" +:+ default "right" handedness.

Definition setControllerMesh (s : InputRenderer) (controllerNode : ref)
    (handedness profile : option string) : InputRenderer :=
  let reg := default ∅ (_controllers s) in
  let s := with_controllers
             (Some (<[controllerKey handedness profile :=
                        {| nodes := [controllerNode]; activeCount := 0;
                           ctl_visible := None |}]> reg)) s in
  let s := store (set_visible false) controllerNode s in
  addNode controllerNode s.

(** The block shared by the three [add*] methods:
    [if (active < arr.length) { node = arr[active]; }
     else { node = arr[0].clone(); this.addNode(node); arr.push(node); }].
    [arr !! active] is defined exactly when [active < arr.length].  Returns
    the state, the array and the chosen node.  [arr[0].clone()] on an empty
    array calls a method of [undefined]. *)
Definition takeOrClone (s : InputRenderer) (arr : list ref) (active : nat)
    : Completion (InputRenderer * list ref * ref) :=
  match arr !! active with
  | Some node => Normal (s, arr, node)
  | None =>
      match arr !! 0 with
      | None => Throw TypeError
      | Some r0 =>
          match heap s !! r0 with
          | None => Throw Dangling
          | Some n0 =>
              let '(s, node) := alloc (clone n0) s in
              let s := addNode node s in
              Normal (s, arr ++ [node], node)
          end
      end
  end.

(** When the lookup finds an inherited member instead of a pool record, the
    guard [if (!controller)] lets it pass, and [controller.nodes.length]
    reads a property of [undefined]. *)
Definition addController (s : InputRenderer) (gripMatrix : Matrix)
    (handedness profile : option string) : Completion InputRenderer :=
  match _controllers s with
  | None => Normal s
  | Some reg =>
      if _blurred s then Normal s
      else
        let key := controllerKey handedness profile in
        match reg !! key with
        | None =>
            if decide (key ∈ inheritedNames) then Throw TypeError
            else Normal s
        | Some controller =>
            match takeOrClone s (nodes controller) (activeCount controller) with
            | Throw e => Throw e
            | Normal (s, arr, controllerNode) =>
                let controller :=
                  {| nodes := arr;
                     activeCount := (activeCount controller + 1) mod _maxInputElements s;
                     ctl_visible := ctl_visible controller |} in
                let s := with_controllers (Some (<[key := controller]> reg)) s in
                let s := store (set_matrix gripMatrix) controllerNode s in
                Normal (store (set_visible true) controllerNode s)
            end
        end
  end.

(** The node that the call [addController] selects (the local
    [controllerNode]), when the call reaches the selection. *)
Definition addController_node (s : InputRenderer)
    (handedness profile : option string) : option ref :=
  match _controllers s with
  | None => None
  | Some reg =>
      if _blurred s then None
      else
        match reg !! controllerKey handedness profile with
        | None => None
        | Some controller =>
            match takeOrClone s (nodes controller) (activeCount controller) with
            | Throw _ => None
            | Normal (_, _, controllerNode) => Some controllerNode
            end
        end
  end.

(** When the lookup finds an inherited member instead of a pool record,
    [controller.visible = true] sets the property on that member. *)
Definition hideController (s : InputRenderer)
    (handedness profile : option string) : InputRenderer :=
  match _controllers s with
  | None => s
  | Some reg =>
      let key := controllerKey handedness profile in
      match reg !! key with
      | None =>
          if decide (key ∈ inheritedNames)
          then with_inheritedVisible ({[ key ]} ∪ inheritedVisible s) s
          else s
      | Some controller =>
          with_controllers
            (Some (<[key := {| nodes := nodes controller;
                               activeCount := activeCount controller;
                               ctl_visible := Some true |}]> reg)) s
      end
  end.

(** [_createLaserMesh()]: one node carrying the laser render primitive.  It is
    called only where [_renderer] is set, so [this._renderer._gl] is defined. *)
Definition _createLaserMesh : Node :=
  let laserIndexCount := length laserIndices in
  let laserRenderPrimitive := mkRenderPrimitive INPUT_LASER laserIndexCount in
  let meshNode := Node_new in
  {| node_class := node_class meshNode; visible := visible meshNode;
     matrix := matrix meshNode; translation := translation meshNode;
     renderPrimitives := renderPrimitives meshNode ++ [laserRenderPrimitive] |}.

(** [_createCursorMesh()]: one node carrying the cursor primitive twice, with
    the plain and with the hidden material. *)
Definition _createCursorMesh : Node :=
  let cursorIndexCount := length cursorIndices in
  let cursorRenderPrimitive := mkRenderPrimitive INPUT_CURSOR cursorIndexCount in
  let cursorHiddenRenderPrimitive := mkRenderPrimitive INPUT_CURSOR_2 cursorIndexCount in
  let meshNode := Node_new in
  {| node_class := node_class meshNode; visible := visible meshNode;
     matrix := matrix meshNode; translation := translation meshNode;
     renderPrimitives :=
       (renderPrimitives meshNode ++ [cursorRenderPrimitive])
         ++ [cursorHiddenRenderPrimitive] |}.

(** The block "Create the laser pointer mesh if needed":
    [if (!this._lasers && this._renderer)
       { this._lasers = [this._createLaserMesh()]; this.addNode(this._lasers[0]); }] *)
Definition ensureLaserMesh (s : InputRenderer) : InputRenderer :=
  match _lasers s, _renderer s with
  | None, Some _ =>
      let '(s, mesh) := alloc _createLaserMesh s in
      let s := with_lasers (Some [mesh]) s in
      addNode mesh s
  | _, _ => s
  end.

(** The block "Create the cursor mesh if needed". *)
Definition ensureCursorMesh (s : InputRenderer) : InputRenderer :=
  match _cursors s, _renderer s with
  | None, Some _ =>
      let '(s, mesh) := alloc _createCursorMesh s in
      let s := with_cursors (Some [mesh]) s in
      addNode mesh s
  | _, _ => s
  end.

(** [this._activeLasers = (this._activeLasers + 1) % this._maxInputElements] *)
Definition advanceLasers (s : InputRenderer) : InputRenderer :=
  with_activeLasers ((_activeLasers s + 1) mod _maxInputElements s) s.

(** [rigidTransform] enters through its [matrix].  The two [console.error]
    calls write to the console only and are not part of the state.  In the
    clone branch an empty [_lasers] array makes [this._lasers.at(0)?.clone()]
    undefined: nothing is pushed, and [addNode(undefined)] is taken to add
    nothing.  Without a laser the method returns after advancing the
    counter. *)
Definition addLaserPointer (s : InputRenderer) (rigidTransform_matrix : Matrix)
    : Completion InputRenderer :=
  if _blurred s then Normal s
  else
    let s := ensureLaserMesh s in
    match _lasers s with
    | None => Normal (advanceLasers s)
    | Some [] => Normal (advanceLasers s)
    | Some arr =>
        match takeOrClone s arr (_activeLasers s) with
        | Throw e => Throw e
        | Normal (s, arr, laser) =>
            let s := with_lasers (Some arr) s in
            let s := advanceLasers s in
            let s := store (set_matrix rigidTransform_matrix) laser s in
            Normal (store (set_visible true) laser s)
        end
    end.

(** With [_cursors] still null, [this._cursors.length] reads a property of
    null. *)
Definition addCursor (s : InputRenderer) (cursorPos : Vec3)
    : Completion InputRenderer :=
  if _blurred s then Normal s
  else
    let s := ensureCursorMesh s in
    match _cursors s with
    | None => Throw TypeError
    | Some arr =>
        match takeOrClone s arr (_activeCursors s) with
        | Throw e => Throw e
        | Normal (s, arr, cursor) =>
            let s := with_cursors (Some arr) s in
            let s := with_activeCursors
                       ((_activeCursors s + 1) mod _maxInputElements s) s in
            let s := store (set_translation cursorPos) cursor s in
            Normal (store (set_visible true) cursor s)
        end
    end.

(** [for (const node of arr) { node.visible = false; }] *)
Definition hideAll (arr : list ref) (s : InputRenderer) : InputRenderer :=
  foldl (fun s node => store (set_visible false) node s) s arr.

(** The nodes of all pools of the registry, in the order of its entries. *)
Definition registryNodes (reg : gmap string Controller) : list ref :=
  map_to_list reg ≫= (fun entry => nodes entry.2).

Definition resetController (controller : Controller) : Controller :=
  {| nodes := nodes controller; activeCount := 0;
     ctl_visible := ctl_visible controller |}.

(** The first property that [for (const handedness in this._controllers)]
    visits after the own properties of the registry, if any: an enumerable
    property of the prototype chain.  A pool record that is the prototype
    has the enumerable property [nodes]; [Object.prototype] has none until
    [hideController] sets [visible] on it. *)
Definition firstInherited (s : InputRenderer) (reg : gmap string Controller)
    : option string :=
  match reg !! "__proto__" with
  | Some _ => Some "nodes"
  | None =>
      if decide ("__proto__" ∈ inheritedVisible s) then Some "visible" else None
  end.

(** The registry after the loop has visited the own properties: each pool
    record but the prototype record has [activeCount] 0. *)
Definition resetOwn (reg : gmap string Controller) : gmap string Controller :=
  match reg !! "__proto__" with
  | Some controller =>
      <["__proto__" := controller]> (resetController <$> delete "__proto__" reg)
  | None => resetController <$> delete "__proto__" reg
  end.

(** The first block of [reset]; the result is the state the block leaves and
    its completion.  The [for...in] loop visits the own properties first: it
    sets [activeCount] of each pool record to 0 and hides the nodes of the
    pool.  It then visits the inherited enumerable properties, and the body
    throws at the first one.  At [nodes], [this._controllers["nodes"]] is
    the node array of the prototype record (the body sets on it a property
    [activeCount] that nothing reads); its [nodes] is undefined, which
    [for...of] cannot iterate.  At [visible], [this._controllers["visible"]]
    is [true], and the assignment of [activeCount] to a boolean throws in
    the strict code of a module (code that is not strict would skip the
    assignment and throw at [for...of] over the undefined [nodes]). *)
Definition resetControllers (options : ResetOptions) (s : InputRenderer)
    : InputRenderer * Completion unit :=
  match _controllers s with
  | Some reg =>
      if controllers options
      then
        let s' := hideAll (registryNodes (delete "__proto__" reg))
                    (with_controllers (Some (resetOwn reg)) s) in
        match firstInherited s reg with
        | None => (s', Normal tt)
        | Some _ => (s', Throw TypeError)
        end
      else (s, Normal tt)
  | None => (s, Normal tt)
  end.

(** The second and the third block of [reset]. *)
Definition resetLasers (options : ResetOptions) (s : InputRenderer)
    : InputRenderer :=
  match _lasers s with
  | Some arr =>
      if lasers options then with_activeLasers 0 (hideAll arr s) else s
  | None => s
  end.

Definition resetCursors (options : ResetOptions) (s : InputRenderer)
    : InputRenderer :=
  match _cursors s with
  | Some arr =>
      if cursors options then with_activeCursors 0 (hideAll arr s) else s
  | None => s
  end.

(** [reset(options)]: the three blocks in the order of the source.  The
    result is the state the call leaves and its completion: when the first
    block throws, the other two do not run. *)
Definition reset (s : InputRenderer) (options : option ResetOptions)
    : InputRenderer * Completion unit :=
  let options := default DEFAULT_RESET_OPTIONS options in
  match resetControllers options s with
  | (s, Normal _) => (resetCursors options (resetLasers options s), Normal tt)
  | (s, Throw e) => (s, Throw e)
  end.

(** ** The session hooks of [useProfileControllerMeshes] *)

(** The listener of ["visibilitychange"]. *)
Definition onVisibilityChange (s : InputRenderer) (v : VisibilityState)
    : InputRenderer :=
  match v with
  | VisibleBlurred => with_blurred true s
  | Visible => with_blurred false s
  | Hidden => s
  end.

(** The continuation of [fetchProfile] for one added input source:
    [this.setControllerMesh(new Gltf2Node({ url: assetPath }),
       inputSource.handedness, inputSource.profiles[0])].
    No request is made unless the source is a tracked pointer. *)
Definition onProfileFetched (s : InputRenderer) (inputSource : InputSource)
    (assetPath : string) : InputRenderer :=
  if String.eqb (targetRayMode inputSource) "tracked-pointer"
  then
    let '(s, node) := alloc (Gltf2Node_new assetPath) s in
    setControllerMesh s node (Some (handedness inputSource))
      (head (profiles inputSource))
  else s.

(** Modelled from the spec: the attachment and detachment of the rendering
    backend, which class [Node] (not under src/) performs: "Backend attachment
    and detachment fully reset all pools and drop the mesh-template cache",
    that is, [_renderer] is replaced and [onRendererChanged] runs. *)
Definition setRenderer (s : InputRenderer) (renderer : option Renderer)
    : InputRenderer :=
  onRendererChanged (with_renderer renderer s) renderer.

(** ** Runs *)

(** What the manager receives during a session. *)
Inductive Op :=
  | OpSetRenderer (renderer : option Renderer)
  | OpProfileFetched (inputSource : InputSource) (assetPath : string)
  | OpSetControllerMesh (url : string) (handedness profile : option string)
  | OpVisibilityChange (v : VisibilityState)
  | OpAddController (gripMatrix : Matrix) (handedness profile : option string)
  | OpHideController (handedness profile : option string)
  | OpAddLaserPointer (rigidTransform_matrix : Matrix)
  | OpAddCursor (cursorPos : Vec3)
  | OpReset (options : option ResetOptions).

(** The state a call of an [add*] method leaves in [s], and its completion.
    A call that throws leaves the manager as it was: the throwing read of
    each [add*] method comes before the method's first assignment. *)
Definition completed (s : InputRenderer) (c : Completion InputRenderer)
    : InputRenderer * Completion unit :=
  match c with
  | Normal s' => (s', Normal tt)
  | Throw e => (s, Throw e)
  end.

Definition exec (op : Op) (s : InputRenderer)
    : InputRenderer * Completion unit :=
  match op with
  | OpSetRenderer r => (setRenderer s r, Normal tt)
  | OpProfileFetched i assetPath => (onProfileFetched s i assetPath, Normal tt)
  | OpSetControllerMesh url h p =>
      let '(s, node) := alloc (Gltf2Node_new url) s in
      (setControllerMesh s node h p, Normal tt)
  | OpVisibilityChange v => (onVisibilityChange s v, Normal tt)
  | OpAddController m h p => completed s (addController s m h p)
  | OpHideController h p => (hideController s h p, Normal tt)
  | OpAddLaserPointer m => completed s (addLaserPointer s m)
  | OpAddCursor pos => completed s (addCursor s pos)
  | OpReset o => reset s o
  end.

(** The state after an operation, whether it returned or threw. *)
Definition step (s : InputRenderer) (op : Op) : InputRenderer :=
  (exec op s).1.

Definition run (s : InputRenderer) (ops : list Op) : InputRenderer :=
  foldl step s ops.

(** The states of a manager constructed in the store [h]. *)
Definition reachable (h : list Node) (s : InputRenderer) : Prop :=
  exists ops, s = run (constructor h) ops.

(** ** Observations *)

(** The pool registered under a key, if any. *)
Definition registered (s : InputRenderer) (key : string) : option Controller :=
  match _controllers s with
  | Some reg => reg !! key
  | None => None
  end.

(** The number of nodes of a pool whose [visible] flag is set. *)
Definition visibleCount (s : InputRenderer) (arr : list ref) : nat :=
  length (filter (fun r => visible <$> heap s !! r = Some true) arr).

(** The nodes that successive [addController] calls for one key select, one
    entry per call, in call order. *)
Fixpoint acquired (s : InputRenderer) (gripMatrices : list Matrix)
    (handedness profile : option string) : list (option ref) :=
  match gripMatrices with
  | [] => []
  | gripMatrix :: rest =>
      addController_node s handedness profile
        :: acquired
             (match addController s gripMatrix handedness profile with
              | Normal s' => s'
              | Throw _ => s
              end)
             rest handedness profile
  end.

(** The state after those calls. *)
Definition addControllers (s : InputRenderer) (gripMatrices : list Matrix)
    (handedness profile : option string) : InputRenderer :=
  foldl (fun s gripMatrix =>
           match addController s gripMatrix handedness profile with
           | Normal s' => s'
           | Throw _ => s
           end)
        s gripMatrices.

(** A state with the [visible] property of every pool record removed. *)
Definition forgetController (c : Controller) : Controller :=
  {| nodes := nodes c; activeCount := activeCount c; ctl_visible := None |}.

Definition forget (s : InputRenderer) : InputRenderer :=
  with_controllers (fmap (M := option) (fmap forgetController) (_controllers s)) s.

(** The mesh a node carries: what a clone shares with its original. *)
Definition mesh (n : Node) : NodeClass * list RenderPrimitive :=
  (node_class n, renderPrimitives n).

Definition is_controller_mesh (k : NodeClass * list RenderPrimitive) : Prop :=
  exists url, k.1 = Gltf2Node url.

Definition is_laser_mesh (k : NodeClass * list RenderPrimitive) : Prop :=
  k = mesh _createLaserMesh.

Definition is_cursor_mesh (k : NodeClass * list RenderPrimitive) : Prop :=
  k = mesh _createCursorMesh.



(** [h'] still holds every object of [h], with the mesh it had. *)
Definition heap_ext (h h' : list Node) : Prop :=
  forall r n, h !! r = Some n -> exists n', h' !! r = Some n' /\ mesh n' = mesh n.

(** A pool in good shape: its nodes are distinct objects of the store, the
    active index does not run past the array, and all nodes carry one mesh of
    the pool's kind (so each is a structural clone of node 0). *)
Record pool_ok (h : list Node) (kind : NodeClass * list RenderPrimitive -> Prop)
    (arr : list ref) (active : nat) : Prop := {
  pool_nodup : NoDup arr;
  pool_nonempty : 0 < length arr;
  pool_active : active <= length arr;
  pool_clones :
    exists k, kind k /\ forall r, r ∈ arr -> exists n, h !! r = Some n /\ mesh n = k
}.

(** The nodes of [arr] are distinct objects of the store and each carries
    the mesh of the node at index 0. *)
Definition structural_clones (h : list Node) (arr : list ref) : Prop :=
  NoDup arr
  /\ exists r0 n0, arr !! 0 = Some r0 /\ h !! r0 = Some n0
       /\ forall r, r ∈ arr -> exists n, h !! r = Some n /\ mesh n = mesh n0.

(** Every registered controller pool is in good shape. *)
Definition controllers_ok (h : list Node) (max : nat)
    (regs : option (gmap string Controller)) : Prop :=
  forall reg key c, regs = Some reg -> reg !! key = Some c ->
    pool_ok h is_controller_mesh (nodes c) (activeCount c)
    /\ activeCount c < max.

(** The laser pool, or the cursor pool, is in good shape once it exists. *)
Definition shared_ok (h : list Node)
    (kind : NodeClass * list RenderPrimitive -> Prop) (max : nat)
    (pool : option (list ref)) (active : nat) : Prop :=
  active < max
  /\ match pool with
     | Some arr => pool_ok h kind arr active
     | None => True
     end.

(** The invariant of the manager. *)
Record Inv (s : InputRenderer) : Prop := {
  inv_max : 0 < _maxInputElements s;
  inv_controllers :
    controllers_ok (heap s) (_maxInputElements s) (_controllers s);
  inv_lasers :
    shared_ok (heap s) is_laser_mesh (_maxInputElements s)
      (_lasers s) (_activeLasers s);
  inv_cursors :
    shared_ok (heap s) is_cursor_mesh (_maxInputElements s)
      (_cursors s) (_activeCursors s);
  inv_lasers_unset :
    _lasers s = None -> is_Some (_renderer s) -> _activeLasers s = 0;
  inv_cursors_unset : _cursors s = None -> _activeCursors s = 0
}.

(** The effect of a hiding loop on the store. *)
Definition hideHeap (arr : list ref) (h : list Node) : list Node :=
  foldl (fun h node => alter (set_visible false) node h) h arr.

(** The completion of an operation, up to the [visible] property of the
    pool records. *)
Definition forgetCompletion (c : Completion InputRenderer)
    : Completion InputRenderer :=
  match c with
  | Normal s => Normal (forget s)
  | Throw e => Throw e
  end.

(** The nodes that [reset] hides: those of the selected pools that exist. *)
Definition resetRefs (s : InputRenderer) (o : ResetOptions) : list ref :=
  (if controllers o then from_option registryNodes [] (_controllers s) else [])
    ++ (if lasers o then default [] (_lasers s) else [])
    ++ (if cursors o then default [] (_cursors s) else []).

(** The nodes a pool seeded with [node] grows to when clones are allocated
    at consecutive references from [L] on: [node], then the clones. *)
Definition poolNodes (M L : nat) (node : ref) : list ref :=
  node :: seq L (M - 1).

(** The number of nodes in such a pool after [j] calls of [addController]. *)
Definition poolSize (M j : nat) : nat := Nat.max 1 (Nat.min j M).

(** The state of the pool of key [(h, p)] after [j] calls since its
    registration, in a manager of capacity [M]. *)
Definition pool_at (M L : nat) (node : ref) (h p : option string)
    (j : nat) (s : InputRenderer) : Prop :=
  _blurred s = false
  /\ _maxInputElements s = M
  /\ length (heap s) = L + (poolSize M j - 1)
  /\ exists vis,
       registered s (controllerKey h p)
         = Some {| nodes := take (poolSize M j) (poolNodes M L node);
                   activeCount := j mod M;
                   ctl_visible := vis |}.

(** ** Pools and the scene graph *)

(** [arr] is the node array of one of the manager's pools. *)
Definition is_pool (s : InputRenderer) (arr : list ref) : Prop :=
  (exists key c, registered s key = Some c /\ nodes c = arr)
  \/ _lasers s = Some arr
  \/ _cursors s = Some arr.

(** A pool within the capacity whose nodes are all children of the manager. *)
Definition pool_bounded (s : InputRenderer) (arr : list ref) : Prop :=
  length arr <= _maxInputElements s /\ forall r, r ∈ arr -> r ∈ children s.

Definition Bounded (s : InputRenderer) : Prop :=
  forall arr, is_pool s arr -> pool_bounded s arr.

(** [s'] extends [s]: the store keeps every object with its mesh, the child
    list is extended at its end, and the capacity is the same. *)
Definition extends (s s' : InputRenderer) : Prop :=
  heap_ext (heap s) (heap s')
  /\ length (heap s) <= length (heap s')
  /\ children s `prefix_of` children s'
  /\ _maxInputElements s' = _maxInputElements s.

(** The selector that selects what [o1] or [o2] selects. *)
Definition unionOptions (o1 o2 : ResetOptions) : ResetOptions :=
  {| controllers := controllers o1 || controllers o2;
     lasers := lasers o1 || lasers o2;
     cursors := cursors o1 || cursors o2 |}.

(** ** Frames *)

(** The state of a pool [j] shows into a frame: the nodes at the indices
    below [j] are visible and satisfy [Q] (by index); all later nodes are
    hidden. *)
Definition frame_ok (hp : list Node) (arr : list ref) (j : nat)
    (Q : nat -> Node -> Prop) : Prop :=
  NoDup arr /\ j <= length arr
  /\ forall i r, arr !! i = Some r ->
       exists n, hp !! r = Some n
         /\ if decide (i < j) then visible n = true /\ Q i n
            else visible n = false.

(** The laser pool, as a list that is empty while the pool does not exist. *)
Definition lasersView (s : InputRenderer) : list ref := default [] (_lasers s).

(** The number of visible nodes of the laser pool. *)
Definition lasersVisible (s : InputRenderer) : nat :=
  visibleCount s (lasersView s).

(** [addLaserPointer] once for every transform of the list, in order. *)
Definition addLaserPointers (s : InputRenderer) (matrices : list Matrix)
    : InputRenderer :=
  foldl (fun s m =>
           match addLaserPointer s m with
           | Normal s' => s'
           | Throw _ => s
           end)
        s matrices.

(** Node [i] carries transform [i] of the list. *)
Definition carries (matrices : list Matrix) (i : nat) (n : Node) : Prop :=
  forall m, matrices !! i = Some m -> matrix n = Some m.

(** The manager after the shows of [matrices] into a frame of lasers: it is
    ready (backend attached, not blurred), its capacity is [M], the next
    laser index is the number of shows so far, and the laser pool shows
    exactly those transforms. *)
Definition laser_frame (M : nat) (matrices : list Matrix) (s : InputRenderer)
    : Prop :=
  Inv s /\ _blurred s = false /\ is_Some (_renderer s)
  /\ _maxInputElements s = M
  /\ (length matrices < M -> _activeLasers s = length matrices)
  /\ frame_ok (heap s) (lasersView s) (length matrices) (carries matrices).

(** The manager after the shows of [matrices] into a frame of the controller
    pool of [key]. *)
Definition controller_frame (M : nat) (key : string) (matrices : list Matrix)
    (s : InputRenderer) : Prop :=
  Inv s /\ _blurred s = false /\ _maxInputElements s = M
  /\ exists c,
       registered s key = Some c
       /\ (length matrices < M -> activeCount c = length matrices)
       /\ frame_ok (heap s) (nodes c) (length matrices) (carries matrices).

(** The cursor pool, as a list that is empty while the pool does not exist. *)
Definition cursorsView (s : InputRenderer) : list ref := default [] (_cursors s).

(** [addCursor] once for every position of the list, in order. *)
Definition addCursors (s : InputRenderer) (positions : list Vec3)
    : InputRenderer :=
  foldl (fun s pos =>
           match addCursor s pos with
           | Normal s' => s'
           | Throw _ => s
           end)
        s positions.

(** Node [i] is placed at position [i] of the list. *)
Definition placed (positions : list Vec3) (i : nat) (n : Node) : Prop :=
  forall v, positions !! i = Some v -> translation n = Some v.

(** The manager after the shows of [positions] into a frame of cursors. *)
Definition cursor_frame (M : nat) (positions : list Vec3) (s : InputRenderer)
    : Prop :=
  Inv s /\ _blurred s = false /\ is_Some (_renderer s)
  /\ _maxInputElements s = M
  /\ (length positions < M -> _activeCursors s = length positions)
  /\ frame_ok (heap s) (cursorsView s) (length positions) (placed positions).

(** ** Keys and hooks *)

(** The character of the separator ["_"] of the registry keys. *)
Definition separator : Ascii.ascii :=
  match "_" with
  | String a _ => a
  | EmptyString => Ascii.zero
  end.

(** Whether a string contains the separator. *)
Fixpoint has_underscore (s : string) : bool :=
  match s with
  | EmptyString => false
  | String a rest => if Ascii.eqb a separator then true else has_underscore rest
  end.

(** The operations that show something: the three [add*] methods. *)
Definition is_show (op : Op) : bool :=
  match op with
  | OpAddController _ _ _ | OpAddLaserPointer _ | OpAddCursor _ => true
  | _ => false
  end.

(** ** The store *)

Lemma heap_ext_refl h : heap_ext h h.
Proof. intros r n Hr. eauto. Qed.

Lemma heap_ext_trans h1 h2 h3 : heap_ext h1 h2 -> heap_ext h2 h3 -> heap_ext h1 h3.
Proof.
  intros H12 H23 r n Hr.
  destruct (H12 r n Hr) as (n2 & Hr2 & Hm2).
  destruct (H23 r n2 Hr2) as (n3 & Hr3 & Hm3).
  exists n3. split; [done|congruence].
Qed.

Lemma heap_ext_app h n : heap_ext h (h ++ [n]).
Proof. intros r n0 Hr. exists n0. split; [by apply lookup_app_l_Some|done]. Qed.

Lemma heap_ext_alter f r h :
  (forall n, mesh (f n) = mesh n) -> heap_ext h (alter f r h).
Proof.
  intros Hf r' n Hr'. destruct (decide (r = r')) as [->|Hne].
  - exists (f n). rewrite list_lookup_alter_eq, Hr'. by split; [|apply Hf].
  - exists n. by rewrite list_lookup_alter_ne.
Qed.

Lemma lookup_shown (hp : list Node) r (f : Node -> Node) n :
  hp !! r = Some n ->
  alter (set_visible true) r (alter f r hp) !! r = Some (set_visible true (f n)).
Proof. intros Hn. by rewrite !list_lookup_alter_eq, Hn. Qed.

Lemma mesh_set_visible b n : mesh (set_visible b n) = mesh n.
Proof. done. Qed.

Lemma mesh_set_matrix m n : mesh (set_matrix m n) = mesh n.
Proof. done. Qed.

Lemma mesh_set_translation v n : mesh (set_translation v n) = mesh n.
Proof. done. Qed.

Lemma mesh_clone n : mesh (clone n) = mesh n.
Proof. done. Qed.

Lemma pool_ok_ext h h' kind arr active :
  heap_ext h h' -> pool_ok h kind arr active -> pool_ok h' kind arr active.
Proof.
  intros Hext [Hnd Hne Hact (k & Hk & Hall)]. split; [done..|].
  exists k. split; [done|]. intros r Hr.
  destruct (Hall r Hr) as (n & Hn & Hm).
  destruct (Hext r n Hn) as (n' & Hn' & Hm'). exists n'. split; [done|congruence].
Qed.

Lemma pool_ok_active h kind arr active active' :
  active' <= length arr -> pool_ok h kind arr active -> pool_ok h kind arr active'.
Proof. intros Hle [Hnd Hne Hact Hall]. by split. Qed.

Lemma pool_ok_valid h kind arr active r :
  pool_ok h kind arr active -> r ∈ arr -> r < length h.
Proof.
  intros [_ _ _ (k & _ & Hall)] Hr. destruct (Hall r Hr) as (n & Hn & _).
  by eapply lookup_lt_Some.
Qed.

(** The selection block on a pool in good shape: it returns normally; the
    chosen node sits at index [active] of the resulting array; the store only
    grows; and the array is a pool in good shape for every active index up to
    [active + 1]. *)
Lemma takeOrClone_ok s kind arr active :
  pool_ok (heap s) kind arr active ->
  exists h' c' arr' node,
    takeOrClone s arr active = Normal (with_children c' (with_heap h' s), arr', node)
    /\ arr' !! active = Some node
    /\ heap_ext (heap s) h'
    /\ pool_ok h' kind arr' (S active)
    /\ (active < length arr -> arr' = arr /\ h' = heap s /\ c' = children s)
    /\ (length arr <= active ->
          exists r0 n0, arr !! 0 = Some r0 /\ heap s !! r0 = Some n0
            /\ node = length (heap s) /\ arr' = arr ++ [node]
            /\ h' = heap s ++ [clone n0] /\ c' = children s ++ [node]).
Proof.
  intros Hok. unfold takeOrClone.
  destruct (arr !! active) as [node|] eqn:Hlook.
  - exists (heap s), (children s), arr, node.
    pose proof (lookup_lt_Some _ _ _ Hlook) as Hlt.
    split; [by destruct s|]. split; [done|]. split; [apply heap_ext_refl|].
    split; [by eapply pool_ok_active; [|done]|].
    split; [done|]. intros Hge. lia.
  - apply lookup_ge_None in Hlook.
    pose proof Hok as [Hnd Hne Hact (k & Hk & Hall)].
    destruct (lookup_lt_is_Some_2 arr 0 Hne) as [r0 Hr0]. rewrite Hr0.
    destruct (Hall r0) as (n0 & Hn0 & Hm0); [by eapply list_elem_of_lookup_2|].
    rewrite Hn0. simpl.
    exists (heap s ++ [clone n0]), (children s ++ [length (heap s)]),
      (arr ++ [length (heap s)]), (length (heap s)).
    assert (active = length arr) as -> by lia.
    split; [done|]. split; [by apply list_lookup_middle|].
    split; [apply heap_ext_app|]. split.
    + split.
      * apply NoDup_app. split; [done|]. split; [|apply NoDup_singleton].
        intros r Hr Hin. apply list_elem_of_singleton in Hin as ->.
        pose proof (pool_ok_valid _ _ _ _ _ Hok Hr). lia.
      * rewrite length_app. simpl. lia.
      * rewrite length_app. simpl. lia.
      * exists k. split; [done|]. intros r Hr.
        apply elem_of_app in Hr as [Hr|Hr].
        -- destruct (Hall r Hr) as (n & Hn & Hm). exists n.
           split; [by apply lookup_app_l_Some|done].
        -- apply list_elem_of_singleton in Hr as ->. exists (clone n0).
           split; [by apply list_lookup_middle|by rewrite mesh_clone].
    + split; [lia|]. intros _. by exists r0, n0.
Qed.

Lemma controllers_ok_ext h h' max regs :
  heap_ext h h' -> controllers_ok h max regs -> controllers_ok h' max regs.
Proof.
  intros Hext Hok reg key c Hreg Hc. destruct (Hok reg key c Hreg Hc).
  split; [by eapply pool_ok_ext|done].
Qed.

Lemma shared_ok_ext h h' kind max pool active :
  heap_ext h h' -> shared_ok h kind max pool active ->
  shared_ok h' kind max pool active.
Proof.
  intros Hext [Hlt Hok]. split; [done|].
  destruct pool; [by eapply pool_ok_ext|done].
Qed.

(** ** Hiding loops *)

Lemma hideAll_heap arr s : hideAll arr s = with_heap (hideHeap arr (heap s)) s.
Proof.
  unfold hideAll, hideHeap. revert s.
  induction arr as [|r arr IH]; intros s; simpl.
  - by destruct s.
  - by rewrite IH.
Qed.

Lemma hideHeap_app arr1 arr2 h :
  hideHeap (arr1 ++ arr2) h = hideHeap arr2 (hideHeap arr1 h).
Proof. apply foldl_app. Qed.

Lemma hideHeap_lookup arr h r :
  hideHeap arr h !! r =
    if decide (r ∈ arr) then set_visible false <$> h !! r else h !! r.
Proof.
  unfold hideHeap. revert h.
  induction arr as [|a arr IH]; intros h.
  - destruct (decide (r ∈ [])) as [Hin|_]; [|done].
    by apply not_elem_of_nil in Hin.
  - cbn [foldl]. rewrite IH.
    destruct (decide (r ∈ a :: arr)) as [Hin|Hin];
      destruct (decide (r ∈ arr)) as [Hin'|Hin'];
      destruct (decide (a = r)) as [->|Hne];
      rewrite ?list_lookup_alter_eq, ?list_lookup_alter_ne by done.
    + by destruct (h !! r).
    + done.
    + done.
    + apply elem_of_cons in Hin as [->|?]; done.
    + exfalso. apply Hin. by right.
    + exfalso. apply Hin. by right.
    + exfalso. apply Hin. by left.
    + done.
Qed.

Lemma hideHeap_ext arr1 arr2 h :
  (forall r, r ∈ arr1 <-> r ∈ arr2) -> hideHeap arr1 h = hideHeap arr2 h.
Proof.
  intros Hiff. apply list_eq. intros r. rewrite !hideHeap_lookup.
  destruct (decide (r ∈ arr1)) as [H1|H1].
  - rewrite decide_True; [done|by apply Hiff].
  - rewrite decide_False; [done|]. intros H2. by apply H1, Hiff.
Qed.

Lemma heap_ext_hideHeap arr h : heap_ext h (hideHeap arr h).
Proof.
  intros r n Hr. rewrite hideHeap_lookup, Hr.
  case_decide; simpl; eauto.
Qed.

Lemma elem_of_registryNodes reg r :
  r ∈ registryNodes reg <-> exists key c, reg !! key = Some c /\ r ∈ nodes c.
Proof.
  unfold registryNodes. rewrite list_elem_of_bind. split.
  - intros ([key c] & Hr & Hin). apply elem_of_map_to_list in Hin. eauto.
  - intros (key & c & Hc & Hr). exists (key, c).
    split; [done|by apply elem_of_map_to_list].
Qed.

Lemma registryNodes_resetController reg r :
  r ∈ registryNodes (resetController <$> reg) <-> r ∈ registryNodes reg.
Proof.
  rewrite !elem_of_registryNodes. split.
  - intros (key & c & Hc & Hr). rewrite lookup_fmap in Hc.
    destruct (reg !! key) as [c0|] eqn:Hc0; simplify_eq/=. eauto.
  - intros (key & c & Hc & Hr). exists key, (resetController c).
    rewrite lookup_fmap, Hc. done.
Qed.

(** ** The invariant holds in every reachable state *)

Lemma Inv_constructor h : Inv (constructor h).
Proof.
  split; simpl; try done.
  - lia.
  - split; [lia|done].
  - split; [lia|done].
Qed.

Lemma Inv_setRenderer s r : Inv s -> Inv (setRenderer s r).
Proof.
  intros [Hmax Hc Hl Hcu Hlu Hcuu]. split; simpl; try done.
Qed.

Lemma Inv_onVisibilityChange s v : Inv s -> Inv (onVisibilityChange s v).
Proof. intros [Hmax Hc Hl Hcu Hlu Hcuu]. by destruct v. Qed.

Lemma Inv_register s url h p :
  Inv s ->
  Inv (setControllerMesh (alloc (Gltf2Node_new url) s).1
         (alloc (Gltf2Node_new url) s).2 h p).
Proof.
  intros [Hmax Hc Hl Hcu Hlu Hcuu].
  set (h' := alter (set_visible false) (length (heap s))
               (heap s ++ [Gltf2Node_new url])).
  assert (heap_ext (heap s) h') as Hext.
  { eapply heap_ext_trans; [apply heap_ext_app|].
    apply heap_ext_alter, mesh_set_visible. }
  split; simpl; try done; fold h'.
  - intros reg key c [= <-] Hlook.
    apply lookup_insert_Some in Hlook as [[_ <-]|[_ Hlook]]; simpl.
    + split; [|done]. split; simpl; [apply NoDup_singleton|lia|lia|].
      exists (mesh (Gltf2Node_new url)). split; [by exists url|].
      intros r Hr. apply list_elem_of_singleton in Hr as ->.
      exists (set_visible false (Gltf2Node_new url)). split; [|done].
      unfold h'. rewrite list_lookup_alter_eq, list_lookup_middle; done.
    + destruct (_controllers s) as [reg0|] eqn:Hreg0; simpl in Hlook.
      * destruct (Hc reg0 key c eq_refl Hlook).
        split; [by eapply pool_ok_ext|done].
      * by rewrite lookup_empty in Hlook.
  - by eapply shared_ok_ext.
  - by eapply shared_ok_ext.
Qed.

Lemma Inv_onProfileFetched s i assetPath :
  Inv s -> Inv (onProfileFetched s i assetPath).
Proof.
  intros HInv. unfold onProfileFetched.
  destruct (String.eqb _ _); [|done].
  apply (Inv_register s assetPath _ _ HInv).
Qed.

Lemma Inv_hideController s h p : Inv s -> Inv (hideController s h p).
Proof.
  intros HInv. pose proof HInv as [Hmax Hc Hl Hcu Hlu Hcuu].
  unfold hideController.
  destruct (_controllers s) as [reg|] eqn:Hreg; [|done].
  destruct (reg !! controllerKey h p) as [c|] eqn:Hlook;
    [|case_decide; [split; simpl; rewrite ?Hreg; done|done]].
  split; simpl; try done.
  intros reg' key c' [= <-] Hlook'.
  apply lookup_insert_Some in Hlook' as [[_ <-]|[_ Hlook']]; simpl.
  - by apply (Hc reg (controllerKey h p) c).
  - by apply (Hc reg key c').
Qed.

Lemma mod_succ_le a max n : S a <= n -> (a + 1) mod max <= n.
Proof. intros Hle. pose proof (Nat.Div0.mod_le (a + 1) max). lia. Qed.

Lemma Inv_addController s gripMatrix h p :
  Inv s ->
  (registered s (controllerKey h p) = None -> controllerKey h p ∉ inheritedNames) ->
  exists s', addController s gripMatrix h p = Normal s' /\ Inv s'.
Proof.
  intros HInv Hkey. pose proof HInv as [Hmax Hc Hl Hcu Hlu Hcuu].
  unfold addController. unfold registered in Hkey.
  destruct (_controllers s) as [reg|] eqn:Hreg; [|by exists s].
  destruct (_blurred s); [by exists s|].
  destruct (reg !! controllerKey h p) as [c|] eqn:Hlook;
    [|rewrite decide_False by auto; by exists s].
  destruct (Hc reg _ c eq_refl Hlook) as [Hpool Hact].
  destruct (takeOrClone_ok s _ _ _ Hpool)
    as (h' & c' & arr' & node & -> & Hidx & Hext & Hpool' & _ & _).
  eexists. split; [done|].
  set (h'' := alter (set_visible true) node (alter (set_matrix gripMatrix) node h')).
  assert (heap_ext h' h'') as Hext'.
  { eapply heap_ext_trans; apply heap_ext_alter; done. }
  assert (heap_ext (heap s) h'') as Hext'' by by eapply heap_ext_trans.
  split; simpl; try done; fold h''.
  - intros reg' key c0 [= <-] Hlook'.
    apply lookup_insert_Some in Hlook' as [[_ <-]|[_ Hlook']]; simpl.
    + split; [|by apply Nat.mod_upper_bound; lia].
      apply (pool_ok_ext h' h''); [done|].
      eapply pool_ok_active; [|done].
      apply mod_succ_le. by destruct Hpool'.
    + destruct (Hc reg key c0 eq_refl Hlook').
      split; [by eapply pool_ok_ext|done].
  - by eapply shared_ok_ext.
  - by eapply shared_ok_ext.
Qed.

Lemma Inv_addController_returned s gripMatrix h p s' :
  Inv s -> addController s gripMatrix h p = Normal s' -> Inv s'.
Proof.
  intros HInv Hadd.
  destruct (decide (registered s (controllerKey h p) = None
                    /\ controllerKey h p ∈ inheritedNames)) as [[Hreg Hin]|Hkey].
  - unfold addController, registered in *.
    destruct (_controllers s) as [reg|]; [|by injection Hadd as <-].
    destruct (_blurred s); [by injection Hadd as <-|].
    rewrite Hreg in Hadd. by rewrite decide_True in Hadd.
  - destruct (Inv_addController s gripMatrix h p HInv) as (s1 & Hadd1 & HInv1).
    + intros Hreg Hin. apply Hkey. by split.
    + congruence.
Qed.

Lemma Inv_ensureLaserMesh s : Inv s -> Inv (ensureLaserMesh s).
Proof.
  intros HInv. pose proof HInv as [Hmax Hc Hl Hcu Hlu Hcuu].
  unfold ensureLaserMesh.
  destruct (_lasers s) eqn:Hlas; [done|].
  destruct (_renderer s) as [rd|] eqn:Hren; [|done].
  pose proof (heap_ext_app (heap s) _createLaserMesh) as Hext.
  split; simpl; try done.
  - by eapply controllers_ok_ext.
  - destruct Hl as [Hlt _]. split; [done|].
    rewrite Hlu by done. split; simpl; [apply NoDup_singleton|lia|lia|].
    exists (mesh _createLaserMesh). split; [done|].
    intros r Hr. apply list_elem_of_singleton in Hr as ->.
    exists _createLaserMesh. by rewrite list_lookup_middle.
  - by eapply shared_ok_ext.
Qed.

Lemma Inv_ensureCursorMesh s : Inv s -> Inv (ensureCursorMesh s).
Proof.
  intros HInv. pose proof HInv as [Hmax Hc Hl Hcu Hlu Hcuu].
  unfold ensureCursorMesh.
  destruct (_cursors s) eqn:Hcur; [done|].
  destruct (_renderer s) as [rd|] eqn:Hren; [|done].
  pose proof (heap_ext_app (heap s) _createCursorMesh) as Hext.
  split; simpl; try done.
  - by eapply controllers_ok_ext.
  - by eapply shared_ok_ext.
  - destruct Hcu as [Hlt _]. split; [done|].
    rewrite Hcuu by done. split; simpl; [apply NoDup_singleton|lia|lia|].
    exists (mesh _createCursorMesh). split; [done|].
    intros r Hr. apply list_elem_of_singleton in Hr as ->.
    exists _createCursorMesh. by rewrite list_lookup_middle.
  - intros Hlas _. apply Hlu; [done|by eexists].
Qed.

Lemma ensureLaserMesh_None s :
  _lasers (ensureLaserMesh s) = None -> _renderer (ensureLaserMesh s) = None.
Proof.
  unfold ensureLaserMesh.
  destruct (_lasers s) eqn:Hlas; [by rewrite Hlas|].
  by destruct (_renderer s) eqn:Hren.
Qed.

Lemma Inv_addLaserPointer s rigidTransform_matrix :
  Inv s ->
  exists s', addLaserPointer s rigidTransform_matrix = Normal s' /\ Inv s'.
Proof.
  intros HInv. unfold addLaserPointer.
  destruct (_blurred s); [by exists s|].
  pose proof (ensureLaserMesh_None s) as Hnone.
  pose proof (Inv_ensureLaserMesh s HInv) as [Hmax Hc Hl Hcu Hlu Hcuu].
  cbv zeta. set (s1 := ensureLaserMesh s) in *.
  assert (Inv (advanceLasers s1) \/ is_Some (_lasers s1)) as Hadv.
  { destruct (_lasers s1) eqn:Hlas; [by right|left].
    split; simpl; try done.
    - split; [by apply Nat.mod_upper_bound; lia|]. by rewrite Hlas.
    - intros _ Hren. rewrite Hnone in Hren by done. by destruct Hren. }
  destruct (_lasers s1) as [arr|] eqn:Hlas.
  - destruct Hl as [Hlt Hpool].
    destruct (takeOrClone_ok s1 _ _ _ Hpool)
      as (h' & c' & arr' & node & Htake & Hidx & Hext & Hpool' & _ & _).
    destruct arr as [|r0 tl]; [by destruct Hpool as [_ ? _ _]; simpl in *; lia|].
    rewrite Htake. eexists. split; [done|].
    set (h'' := alter (set_visible true) node
                  (alter (set_matrix rigidTransform_matrix) node h')).
    assert (heap_ext h' h'') as Hext'.
    { eapply heap_ext_trans; apply heap_ext_alter; done. }
    assert (heap_ext (heap s1) h'') as Hext'' by by eapply heap_ext_trans.
    split; simpl; try done; fold h''.
    + by eapply controllers_ok_ext.
    + split; [by apply Nat.mod_upper_bound; lia|].
      apply (pool_ok_ext h' h''); [done|].
      eapply pool_ok_active; [|done].
      apply mod_succ_le. by destruct Hpool'.
    + by eapply shared_ok_ext.
  - destruct Hadv as [Hadv|[? ?]]; [|done]. by eexists.
Qed.

Lemma Inv_addCursor s cursorPos s' :
  Inv s -> addCursor s cursorPos = Normal s' -> Inv s'.
Proof.
  intros HInv. unfold addCursor.
  destruct (_blurred s); [by intros [= <-]|].
  pose proof (Inv_ensureCursorMesh s HInv) as [Hmax Hc Hl Hcu Hlu Hcuu].
  cbv zeta. set (s1 := ensureCursorMesh s) in *.
  destruct (_cursors s1) as [arr|] eqn:Hcur; [|done].
  destruct Hcu as [Hlt Hpool].
  destruct (takeOrClone_ok s1 _ _ _ Hpool)
    as (h' & c' & arr' & node & -> & Hidx & Hext & Hpool' & _ & _).
  intros [= <-].
  set (h'' := alter (set_visible true) node
                (alter (set_translation cursorPos) node h')).
  assert (heap_ext h' h'') as Hext'.
  { eapply heap_ext_trans; apply heap_ext_alter; done. }
  assert (heap_ext (heap s1) h'') as Hext'' by by eapply heap_ext_trans.
  split; simpl; try done; fold h''.
  - by eapply controllers_ok_ext.
  - by eapply shared_ok_ext.
  - split; [by apply Nat.mod_upper_bound; lia|].
    apply (pool_ok_ext h' h''); [done|].
    eapply pool_ok_active; [|done].
    apply mod_succ_le. by destruct Hpool'.
Qed.

Lemma resetOwn_lookup reg key :
  resetOwn reg !! key =
    if decide (key = "__proto__") then reg !! key
    else resetController <$> reg !! key.
Proof.
  unfold resetOwn. destruct (reg !! "__proto__") as [c|] eqn:Hproto.
  - case_decide as Hkey.
    + subst key. by rewrite lookup_insert_eq.
    + by rewrite lookup_insert_ne, lookup_fmap, lookup_delete_ne.
  - case_decide as Hkey.
    + subst key. by rewrite lookup_fmap, lookup_delete_eq, Hproto.
    + by rewrite lookup_fmap, lookup_delete_ne.
Qed.

Lemma resetOwn_lookup_Some reg key c :
  resetOwn reg !! key = Some c ->
  exists c0, reg !! key = Some c0 /\ nodes c = nodes c0
    /\ activeCount c <= activeCount c0 /\ ctl_visible c = ctl_visible c0.
Proof.
  rewrite resetOwn_lookup. case_decide.
  - intros Hc. by exists c.
  - destruct (reg !! key) as [c0|]; [|done]. intros [= <-].
    exists c0. simpl. repeat split. lia.
Qed.

(** The first block of [reset] leaves one state whether it throws or not. *)
Lemma resetControllers_state o s reg :
  _controllers s = Some reg -> controllers o = true ->
  (resetControllers o s).1 =
    hideAll (registryNodes (delete "__proto__" reg))
      (with_controllers (Some (resetOwn reg)) s).
Proof.
  intros Hreg Ho. unfold resetControllers. rewrite Hreg, Ho.
  by destruct (firstInherited s reg).
Qed.

Lemma resetControllers_skip o s :
  _controllers s = None \/ controllers o = false ->
  resetControllers o s = (s, Normal tt).
Proof.
  unfold resetControllers. intros [->| ->]; [done|].
  by destruct (_controllers s).
Qed.

Lemma Inv_resetControllers o s : Inv s -> Inv (resetControllers o s).1.
Proof.
  intros HInv. pose proof HInv as [Hmax Hc Hl Hcu Hlu Hcuu].
  destruct (_controllers s) as [reg|] eqn:Hreg;
    [|by rewrite resetControllers_skip by auto].
  destruct (controllers o) eqn:Ho;
    [|by rewrite resetControllers_skip by auto].
  rewrite (resetControllers_state o s reg Hreg Ho).
  rewrite hideAll_heap.
  pose proof (heap_ext_hideHeap (registryNodes (delete "__proto__" reg)) (heap s))
    as Hext.
  split; simpl; try done.
  - intros reg' key c [= <-] Hlook.
    apply resetOwn_lookup_Some in Hlook as (c0 & Hc0 & Hn & Ha & _).
    destruct (Hc reg key c0 eq_refl Hc0) as [Hpool Hact].
    split; [|lia]. rewrite Hn. eapply pool_ok_ext; [done|].
    eapply pool_ok_active; [|done]. destruct Hpool. lia.
  - by eapply shared_ok_ext.
  - by eapply shared_ok_ext.
Qed.

Lemma Inv_resetLasers o s : Inv s -> Inv (resetLasers o s).
Proof.
  intros HInv. pose proof HInv as [Hmax Hc Hl Hcu Hlu Hcuu].
  unfold resetLasers.
  destruct (_lasers s) as [arr|] eqn:Hlas; [|done].
  destruct (lasers o); [|done].
  rewrite hideAll_heap.
  pose proof (heap_ext_hideHeap arr (heap s)) as Hext.
  split; simpl; try done.
  - by eapply controllers_ok_ext.
  - destruct Hl as [_ Hpool]. split; [done|]. rewrite Hlas.
    eapply pool_ok_ext; [done|]. eapply pool_ok_active; [|done]. lia.
  - by eapply shared_ok_ext.
Qed.

Lemma Inv_resetCursors o s : Inv s -> Inv (resetCursors o s).
Proof.
  intros HInv. pose proof HInv as [Hmax Hc Hl Hcu Hlu Hcuu].
  unfold resetCursors.
  destruct (_cursors s) as [arr|] eqn:Hcur; [|done].
  destruct (cursors o); [|done].
  rewrite hideAll_heap.
  pose proof (heap_ext_hideHeap arr (heap s)) as Hext.
  split; simpl; try done.
  - by eapply controllers_ok_ext.
  - by eapply shared_ok_ext.
  - destruct Hcu as [_ Hpool]. split; [done|]. rewrite Hcur.
    eapply pool_ok_ext; [done|]. eapply pool_ok_active; [|done]. lia.
Qed.

Lemma Inv_reset s options : Inv s -> Inv (reset s options).1.
Proof.
  intros HInv. unfold reset. cbv zeta.
  pose proof (Inv_resetControllers (default DEFAULT_RESET_OPTIONS options) s HInv)
    as HInv1.
  destruct (resetControllers _ s) as [s1 [[]|e]]; simpl in *; [|done].
  by apply Inv_resetCursors, Inv_resetLasers.
Qed.

Lemma Inv_step s op : Inv s -> Inv (step s op).
Proof.
  intros HInv. unfold step. destruct op; simpl.
  - by apply Inv_setRenderer.
  - by apply Inv_onProfileFetched.
  - by apply Inv_register.
  - by apply Inv_onVisibilityChange.
  - destruct (addController s gripMatrix handedness0 profile) as [s'|] eqn:Hadd;
      [|done].
    by eapply Inv_addController_returned.
  - by apply Inv_hideController.
  - by destruct (Inv_addLaserPointer s rigidTransform_matrix HInv)
      as (s' & -> & ?).
  - destruct (addCursor s cursorPos) as [s'|] eqn:Hadd; [|done].
    by eapply Inv_addCursor.
  - by apply Inv_reset.
Qed.

Lemma Inv_run s ops : Inv s -> Inv (run s ops).
Proof.
  unfold run. revert s.
  induction ops as [|op ops IH]; intros s HInv; simpl; [done|].
  by apply IH, Inv_step.
Qed.

Lemma Inv_reachable h s : reachable h s -> Inv s.
Proof. intros [ops ->]. apply Inv_run, Inv_constructor. Qed.

Lemma reachable_constructor h : reachable h (constructor h).
Proof. by exists []. Qed.

Lemma reachable_step h s op : reachable h s -> reachable h (step s op).
Proof.
  intros [ops ->]. exists (ops ++ [op]). unfold run. by rewrite foldl_snoc.
Qed.

(** ** Registration *)

Lemma registered_setControllerMesh s node h p key :
  registered (setControllerMesh s node h p) key =
    if decide (controllerKey h p = key)
    then Some {| nodes := [node]; activeCount := 0; ctl_visible := None |}
    else registered s key.
Proof.
  unfold registered, setControllerMesh; simpl.
  rewrite lookup_insert. case_decide; [done|].
  destruct (_controllers s); simpl; [done|apply lookup_empty].
Qed.

(** C1, as the code has it: registration is not first-wins.  Every call of
    [setControllerMesh] replaces the pool of its key by a pool that holds the
    supplied node alone with active count 0, hides that node and adds it as
    a child, so after two registrations under one key the pool holds the
    second node only; the pools of all other keys stay as they were. *)
Theorem setControllerMesh_last_wins s node1 node2 h p :
  registered (setControllerMesh (setControllerMesh s node1 h p) node2 h p)
             (controllerKey h p)
    = Some {| nodes := [node2]; activeCount := 0; ctl_visible := None |}
  /\ (forall key, key <> controllerKey h p ->
       registered (setControllerMesh (setControllerMesh s node1 h p) node2 h p) key
         = registered s key)
  /\ forall s0 node,
       let s1 := setControllerMesh s0 node h p in
       registered s1 (controllerKey h p)
         = Some {| nodes := [node]; activeCount := 0; ctl_visible := None |}
       /\ (forall key, key <> controllerKey h p ->
             registered s1 key = registered s0 key)
       /\ heap s1 = alter (set_visible false) node (heap s0)
       /\ (forall n, heap s0 !! node = Some n ->
             heap s1 !! node = Some (set_visible false n))
       /\ (forall r, r <> node -> heap s1 !! r = heap s0 !! r)
       /\ children s1 = children s0 ++ [node]
       /\ node ∈ children s1.
Proof.
  split; [|split].
  - rewrite registered_setControllerMesh. by rewrite decide_True.
  - intros key Hkey.
    rewrite !registered_setControllerMesh. by rewrite !decide_False.
  - intros s0 node s1. subst s1.
    split; [rewrite registered_setControllerMesh; by rewrite decide_True|].
    split.
    { intros key Hkey. rewrite registered_setControllerMesh.
      by rewrite decide_False. }
    simpl. split; [done|]. split.
    { intros n Hn. by rewrite list_lookup_alter_eq, Hn. }
    split; [intros r Hr; by rewrite list_lookup_alter_ne|].
    split; [done|]. apply elem_of_app. right. by left.
Qed.

(** ** Calls that do nothing *)


(** C5: while the manager is blurred, [addController], [addLaserPointer] and
    [addCursor] return normally with the state unchanged, so no node is
    selected, created, moved or shown; and the transition into the blurred
    state itself only raises the flag, leaving the store (and with it every
    visible flag) as it was. *)
Theorem blurred_show_is_noop s gripMatrix rigidTransform_matrix cursorPos h p :
  _blurred s = true ->
  addController s gripMatrix h p = Normal s
  /\ addController_node s h p = None
  /\ addLaserPointer s rigidTransform_matrix = Normal s
  /\ addCursor s cursorPos = Normal s
  /\ forall s0, _blurred (onVisibilityChange s0 VisibleBlurred) = true
       /\ heap (onVisibilityChange s0 VisibleBlurred) = heap s0
       /\ _controllers (onVisibilityChange s0 VisibleBlurred) = _controllers s0
       /\ _lasers (onVisibilityChange s0 VisibleBlurred) = _lasers s0
       /\ _cursors (onVisibilityChange s0 VisibleBlurred) = _cursors s0.
Proof.
  intros Hb. unfold addController, addController_node, addLaserPointer, addCursor.
  rewrite Hb. repeat split; by destruct (_controllers s).
Qed.

(** C2, at the state the constructor leaves (no backend, no pools, not
    blurred): [addCursor] throws a [TypeError], and [addLaserPointer] returns
    normally but has advanced [_activeLasers] to 1. *)
Theorem show_without_backend (h : list Node) (rigidTransform_matrix : Matrix)
    (cursorPos : Vec3) :
  addCursor (constructor h) cursorPos = Throw TypeError
  /\ addLaserPointer (constructor h) rigidTransform_matrix
       = Normal (with_activeLasers 1 (constructor h))
  /\ with_activeLasers 1 (constructor h) <> constructor h.
Proof. repeat split. discriminate. Qed.

(** ** The pool invariant *)

Lemma pool_ok_structural_clones h kind arr active :
  pool_ok h kind arr active -> structural_clones h arr.
Proof.
  intros [Hnd Hne Hact (k & Hk & Hall)]. split; [done|].
  destruct (lookup_lt_is_Some_2 arr 0 Hne) as [r0 Hr0].
  destruct (Hall r0) as (n0 & Hn0 & Hm0); [by eapply list_elem_of_lookup_2|].
  exists r0, n0. split; [done|]. split; [done|].
  intros r Hr. destruct (Hall r Hr) as (n & Hn & Hm).
  exists n. split; [done|congruence].
Qed.

(** C6: after every sequence of operations on a newly constructed manager,
    every pool that exists (each registered controller pool, the laser pool,
    the cursor pool) has its active index below [_maxInputElements] and not
    beyond the length of its node array, and its nodes are distinct objects
    that all carry the mesh of the node at index 0. *)
Theorem pool_invariant (h : list Node) (ops : list Op) :
  let s := run (constructor h) ops in
  (forall key c, registered s key = Some c ->
     activeCount c < _maxInputElements s
     /\ activeCount c <= length (nodes c)
     /\ structural_clones (heap s) (nodes c))
  /\ (forall arr, _lasers s = Some arr ->
        _activeLasers s < _maxInputElements s
        /\ _activeLasers s <= length arr
        /\ structural_clones (heap s) arr)
  /\ (forall arr, _cursors s = Some arr ->
        _activeCursors s < _maxInputElements s
        /\ _activeCursors s <= length arr
        /\ structural_clones (heap s) arr).
Proof.
  intros s.
  assert (Inv s) as [Hmax Hc Hl Hcu Hlu Hcuu] by apply Inv_run, Inv_constructor.
  split; [|split].
  - intros key c Hreg. unfold registered in Hreg.
    destruct (_controllers s) as [reg|] eqn:Hregs; [|done].
    destruct (Hc reg key c eq_refl Hreg) as [Hpool Hact].
    split; [done|]. split; [by destruct Hpool|].
    by eapply pool_ok_structural_clones.
  - intros arr Harr. rewrite Harr in Hl. destruct Hl as [Hact Hpool].
    split; [done|]. split; [by destruct Hpool|].
    by eapply pool_ok_structural_clones.
  - intros arr Harr. rewrite Harr in Hcu. destruct Hcu as [Hact Hpool].
    split; [done|]. split; [by destruct Hpool|].
    by eapply pool_ok_structural_clones.
Qed.

(** ** Backend change *)

(** C4, as the code has it: [onRendererChanged] discards the pools instead of
    resetting them.  The controller registry, the laser pool and the cursor
    pool become null, so afterwards no key has a registered pool, and the
    three active counters become 0; no node is touched (every visible flag
    and transform stays as it was) and the child list is kept. *)
Theorem onRendererChanged_drops_pools s (renderer : option Renderer) :
  let s' := onRendererChanged s renderer in
  _controllers s' = None /\ _lasers s' = None /\ _cursors s' = None
  /\ _activeControllers s' = 0 /\ _activeLasers s' = 0 /\ _activeCursors s' = 0
  /\ (forall key, registered s' key = None)
  /\ heap s' = heap s /\ children s' = children s
  /\ _blurred s' = _blurred s /\ _renderer s' = _renderer s
  /\ _maxInputElements s' = _maxInputElements s.
Proof. by repeat split. Qed.

(** ** The [visible] property of a pool record is never read *)

Lemma forgetController_idemp (reg : gmap string Controller) :
  forgetController <$> (forgetController <$> reg) = forgetController <$> reg.
Proof.
  apply map_eq. intros key. rewrite !lookup_fmap. by destruct (reg !! key).
Qed.

Lemma forget_idemp s : forget (forget s) = forget s.
Proof.
  unfold forget. destruct s as [? ? ? [reg|] ? ? ? ? ? ? ? ?]; simpl; [|done].
  unfold with_controllers; simpl. by rewrite forgetController_idemp.
Qed.

Lemma forgetController_reset (reg : gmap string Controller) :
  resetController <$> (forgetController <$> reg)
    = forgetController <$> (resetController <$> reg).
Proof.
  apply map_eq. intros key. rewrite !lookup_fmap. by destruct (reg !! key).
Qed.

Lemma registryNodes_forgetController reg r :
  r ∈ registryNodes (forgetController <$> reg) <-> r ∈ registryNodes reg.
Proof.
  rewrite !elem_of_registryNodes. split.
  - intros (key & c & Hc & Hr). rewrite lookup_fmap in Hc.
    destruct (reg !! key) as [c0|] eqn:Hc0; simplify_eq/=. eauto.
  - intros (key & c & Hc & Hr). exists key, (forgetController c).
    rewrite lookup_fmap, Hc. done.
Qed.

Lemma takeOrClone_with_controllers x s arr active :
  takeOrClone (with_controllers x s) arr active =
    match takeOrClone s arr active with
    | Normal (s', arr', node) => Normal (with_controllers x s', arr', node)
    | Throw e => Throw e
    end.
Proof.
  unfold takeOrClone. destruct (arr !! active); [done|].
  destruct (arr !! 0); [|done]. simpl. by destruct (heap s !! _).
Qed.

Lemma takeOrClone_fields s arr active s' arr' node :
  takeOrClone s arr active = Normal (s', arr', node) ->
  exists h' c', s' = with_children c' (with_heap h' s).
Proof.
  unfold takeOrClone. intros Htake.
  destruct (arr !! active).
  - injection Htake as <- _ _. exists (heap s), (children s). by destruct s.
  - destruct (arr !! 0); [|done]. destruct (heap s !! _); [|done].
    injection Htake as <- _ _. by eexists _, _.
Qed.

Lemma with_heap_forget x s : with_heap x (forget s) = forget (with_heap x s).
Proof. done. Qed.

Lemma with_blurred_forget b s : with_blurred b (forget s) = forget (with_blurred b s).
Proof. done. Qed.

Lemma setControllerMesh_forget s node h p :
  setControllerMesh (forget s) node h p = forget (setControllerMesh s node h p).
Proof.
  unfold forget, setControllerMesh, addNode, store, with_children, with_heap,
    with_controllers; simpl.
  do 2 f_equal. rewrite fmap_insert. simpl.
  destruct (_controllers s); simpl; [done|by rewrite fmap_empty].
Qed.

Lemma addController_forget s gripMatrix h p :
  addController (forget s) gripMatrix h p
    = forgetCompletion (addController s gripMatrix h p).
Proof.
  unfold addController. simpl.
  destruct (_controllers s) as [reg|] eqn:Hreg; simpl; [|done].
  destruct (_blurred s) eqn:Hb; [done|].
  rewrite lookup_fmap.
  destruct (reg !! controllerKey h p) as [c|] eqn:Hc; simpl;
    [|by case_decide].
  unfold forget at 1. rewrite takeOrClone_with_controllers.
  destruct (takeOrClone s (nodes c) (activeCount c)) as [[[s1 arr1] node]|e];
    [|done].
  simpl. f_equal.
  unfold forget, store, with_heap, with_controllers; simpl.
  by rewrite fmap_insert.
Qed.

Lemma addLaserPointer_forget s m :
  addLaserPointer (forget s) m = forgetCompletion (addLaserPointer s m).
Proof.
  unfold addLaserPointer. simpl.
  destruct (_blurred s) eqn:Hb; [done|].
  assert (ensureLaserMesh (forget s) = forget (ensureLaserMesh s)) as ->.
  { unfold ensureLaserMesh. simpl.
    destruct (_lasers s); [done|]. by destruct (_renderer s). }
  simpl. set (s1 := ensureLaserMesh s).
  destruct (_lasers s1) as [[|r0 tl]|]; [done| |done].
  unfold forget at 1. rewrite takeOrClone_with_controllers.
  destruct (takeOrClone s1 (r0 :: tl) (_activeLasers s1))
    as [[[s2 arr2] node]|e] eqn:Htake; [|done].
  by apply takeOrClone_fields in Htake as (h' & c' & ->).
Qed.

Lemma addCursor_forget s pos :
  addCursor (forget s) pos = forgetCompletion (addCursor s pos).
Proof.
  unfold addCursor. simpl.
  destruct (_blurred s) eqn:Hb; [done|].
  assert (ensureCursorMesh (forget s) = forget (ensureCursorMesh s)) as ->.
  { unfold ensureCursorMesh. simpl.
    destruct (_cursors s); [done|]. by destruct (_renderer s). }
  simpl. set (s1 := ensureCursorMesh s).
  destruct (_cursors s1) as [arr|]; [|done].
  unfold forget at 1. rewrite takeOrClone_with_controllers.
  destruct (takeOrClone s1 arr (_activeCursors s1))
    as [[[s2 arr2] node]|e] eqn:Htake; [|done].
  by apply takeOrClone_fields in Htake as (h' & c' & ->).
Qed.

Lemma resetOwn_forgetController (reg : gmap string Controller) :
  resetOwn (forgetController <$> reg) = forgetController <$> resetOwn reg.
Proof.
  apply map_eq. intros key.
  rewrite lookup_fmap, !resetOwn_lookup, lookup_fmap.
  case_decide; [done|]. by destruct (reg !! key).
Qed.

Lemma firstInherited_forget s reg :
  firstInherited (forget s) (forgetController <$> reg) = firstInherited s reg.
Proof.
  unfold firstInherited. rewrite lookup_fmap. by destruct (reg !! "__proto__").
Qed.

Lemma resetControllers_forget o s :
  resetControllers o (forget s)
    = (forget (resetControllers o s).1, (resetControllers o s).2).
Proof.
  unfold resetControllers. simpl.
  destruct (_controllers s) as [reg|] eqn:Hreg; simpl; [|done].
  destruct (controllers o); [|done].
  rewrite firstInherited_forget.
  assert (hideAll (registryNodes (delete "__proto__" (forgetController <$> reg)))
            (with_controllers (Some (resetOwn (forgetController <$> reg)))
               (forget s))
          = forget (hideAll (registryNodes (delete "__proto__" reg))
                      (with_controllers (Some (resetOwn reg)) s))) as ->.
  { rewrite !hideAll_heap. unfold forget, with_heap, with_controllers; simpl.
    rewrite resetOwn_forgetController, <- fmap_delete.
    f_equal. apply hideHeap_ext, registryNodes_forgetController. }
  by destruct (firstInherited s reg).
Qed.

Lemma reset_forget s options :
  reset (forget s) options
    = (forget (reset s options).1, (reset s options).2).
Proof.
  unfold reset. set (o := default DEFAULT_RESET_OPTIONS options).
  rewrite resetControllers_forget.
  destruct (resetControllers o s) as [s1 [[]|e]]; simpl; [|done].
  assert (resetLasers o (forget s1) = forget (resetLasers o s1)) as ->.
  { unfold resetLasers. simpl. destruct (_lasers s1); [|done].
    destruct (lasers o); [|done]. by rewrite !hideAll_heap. }
  set (s2 := resetLasers o s1). f_equal.
  unfold resetCursors. simpl. destruct (_cursors s2); [|done].
  destruct (cursors o); [|done]. by rewrite !hideAll_heap.
Qed.

Lemma hideController_forget_registered s h p c :
  registered s (controllerKey h p) = Some c ->
  forget (hideController s h p) = forget s.
Proof.
  unfold hideController, registered.
  destruct (_controllers s) as [reg|] eqn:Hreg; [|done].
  intros Hc. rewrite Hc.
  unfold forget, with_controllers; simpl. rewrite Hreg. simpl.
  do 2 f_equal. rewrite fmap_insert. apply insert_id.
  by rewrite lookup_fmap, Hc.
Qed.

Lemma hideController_forget s h p :
  forget (hideController (forget s) h p) = forget (hideController s h p).
Proof.
  unfold hideController. simpl.
  destruct (_controllers s) as [reg|] eqn:Hreg; simpl; [|apply forget_idemp].
  rewrite lookup_fmap.
  destruct (reg !! controllerKey h p) as [c|] eqn:Hc; simpl.
  - unfold forget, with_controllers; simpl. do 2 f_equal.
    rewrite !fmap_insert. simpl. by rewrite forgetController_idemp.
  - case_decide; [|apply forget_idemp].
    unfold forget, with_controllers, with_inheritedVisible; simpl.
    rewrite Hreg. simpl. by rewrite forgetController_idemp.
Qed.

(** Executing an operation on a state whose pool records have lost their
    [visible] property gives, up to that property, what it gives on the
    state itself. *)
Lemma completed_forget s c :
  completed (forget s) (forgetCompletion c)
    = (forget (completed s c).1, (completed s c).2).
Proof. by destruct c. Qed.

Lemma exec_forget op s :
  forget (exec op (forget s)).1 = forget (exec op s).1
  /\ (exec op (forget s)).2 = (exec op s).2.
Proof.
  destruct op; simpl.
  - done.
  - split; [|done]. unfold onProfileFetched.
    destruct (String.eqb _ _); [|by rewrite forget_idemp].
    simpl. rewrite with_heap_forget, setControllerMesh_forget.
    by rewrite forget_idemp.
  - split; [|done]. rewrite with_heap_forget, setControllerMesh_forget.
    by rewrite forget_idemp.
  - split; [|done].
    destruct v; simpl; rewrite ?with_blurred_forget; apply forget_idemp.
  - rewrite addController_forget, completed_forget. simpl.
    by rewrite forget_idemp.
  - split; [|done]. apply hideController_forget.
  - rewrite addLaserPointer_forget, completed_forget. simpl.
    by rewrite forget_idemp.
  - rewrite addCursor_forget, completed_forget. simpl.
    by rewrite forget_idemp.
  - rewrite reset_forget. simpl. by rewrite forget_idemp.
Qed.

Lemma step_forget op s : forget (step (forget s) op) = forget (step s op).
Proof. unfold step. by destruct (exec_forget op s). Qed.

Lemma run_forget s1 s2 ops :
  forget s1 = forget s2 -> forget (run s1 ops) = forget (run s2 ops).
Proof.
  unfold run. revert s1 s2.
  induction ops as [|op ops IH]; intros s1 s2 Heq; simpl; [done|].
  apply IH. by rewrite <- (step_forget op s1), <- (step_forget op s2), Heq.
Qed.

(** C10: for a registered key, [hideController] changes nothing but the pool
    record of that key, which keeps its nodes and its active count and gets
    [visible = true]; the store (every node's visible flag and transform) and
    all other fields are untouched.  No operation reads the property: every
    later run of operations ends, up to that property of the pool records,
    in the state it would have reached without the call. *)
Theorem hideController_marks_record_only s h p c :
  registered s (controllerKey h p) = Some c ->
  let s' := hideController s h p in
  registered s' (controllerKey h p)
    = Some {| nodes := nodes c; activeCount := activeCount c;
              ctl_visible := Some true |}
  /\ (forall key, key <> controllerKey h p -> registered s' key = registered s key)
  /\ heap s' = heap s /\ children s' = children s
  /\ _lasers s' = _lasers s /\ _cursors s' = _cursors s
  /\ _activeLasers s' = _activeLasers s /\ _activeCursors s' = _activeCursors s
  /\ _activeControllers s' = _activeControllers s
  /\ _blurred s' = _blurred s /\ _renderer s' = _renderer s
  /\ _maxInputElements s' = _maxInputElements s
  /\ forall ops, forget (run s' ops) = forget (run s ops).
Proof.
  intros Hreg s'.
  assert (forall ops, forget (run s' ops) = forget (run s ops)) as Hrun.
  { intros ops. eapply run_forget, hideController_forget_registered. done. }
  subst s'. unfold registered, hideController in *.
  destruct (_controllers s) as [reg|] eqn:Hregs; [|done].
  rewrite Hreg in *. simpl.
  repeat split; try done.
  - by rewrite lookup_insert_eq.
  - intros key Hkey. by rewrite lookup_insert_ne.
Qed.

(** ** Round-robin selection *)

Section RoundRobin.

Variables (M L : nat) (node : ref) (h p : option string).
Hypothesis HM : 0 < M.
Hypothesis Hnode : node < L.

Local Abbreviation pool := (poolNodes M L node).
Local Abbreviation cnt := (poolSize M).
Local Abbreviation at_call := (pool_at M L node h p).

Lemma pool_length : length pool = M.
Proof. unfold poolNodes. simpl. rewrite length_seq. lia. Qed.

Lemma pool_NoDup : NoDup pool.
Proof.
  unfold poolNodes. apply NoDup_cons. split; [|apply NoDup_seq].
  rewrite elem_of_seq. lia.
Qed.

Lemma pool_lookup_clone j : 1 <= j < M -> pool !! j = Some (L + (j - 1)).
Proof.
  intros Hj. unfold poolNodes. rewrite lookup_cons_ne_0 by lia.
  rewrite lookup_seq_lt by lia. f_equal. lia.
Qed.

Lemma pool_at_step j s gripMatrix :
  at_call j s ->
  addController_node s h p = pool !! (j mod M)
  /\ exists s', addController s gripMatrix h p = Normal s' /\ at_call (S j) s'.
Proof.
  intros (Hb & Hmax & Hlen & vis & Hreg).
  unfold addController_node, addController, registered in *.
  destruct (_controllers s) as [reg|] eqn:Hregs; [|done].
  rewrite Hb, Hreg. cbn [nodes activeCount ctl_visible].
  pose proof (Nat.mod_upper_bound j M ltac:(lia)) as Hmod.
  assert ((j mod M + 1) mod M = S j mod M) as Hnext.
  { replace (S j) with (j + 1) by lia. by rewrite Nat.Div0.add_mod_idemp_l. }
  unfold takeOrClone.
  destruct (decide (j mod M < cnt j)) as [Hlt|Hge].
  - (* the node at the active index exists *)
    assert (cnt (S j) = cnt j) as Hcnt.
    { unfold poolSize in *. destruct (decide (j < M)) as [HjM|HjM]; [|lia].
      rewrite Nat.mod_small in Hlt by done. lia. }
    rewrite lookup_take_lt by done.
    destruct (lookup_lt_is_Some_2 pool (j mod M)) as [x Hx];
      [by rewrite pool_length|].
    rewrite Hx. split; [done|]. eexists. split; [done|].
    split; [done|]. split; [done|]. simpl.
    split; [by rewrite !length_alter, Hcnt|].
    exists vis. unfold registered. simpl.
    by rewrite lookup_insert_eq, Hmax, Hnext, Hcnt.
  - (* node 0 is cloned *)
    assert (1 <= j < M /\ j mod M = j /\ cnt j = j /\ cnt (S j) = S j)
      as (Hj & Hjmod & Hcj & HcSj).
    { unfold poolSize in *. destruct (decide (j < M)) as [HjM|HjM]; [|lia].
      rewrite Nat.mod_small in Hge |- * by done. lia. }
    rewrite Hjmod, Hcj in *.
    rewrite lookup_take_ge by lia.
    rewrite lookup_take_lt by lia.
    assert (pool !! 0 = Some node) as -> by done.
    destruct (@lookup ref _ _ _ node (heap s)) as [n0|] eqn:Hn0;
      [|apply lookup_ge_None in Hn0; lia].
    cbn [alloc fst snd addNode].
    rewrite pool_lookup_clone by done.
    split; [f_equal; simpl; lia|]. eexists. split; [done|].
    split; [done|]. split; [done|]. simpl.
    split; [rewrite !length_alter, length_app; simpl; lia|].
    exists vis. unfold registered. simpl.
    rewrite lookup_insert_eq, Hmax, Hnext, HcSj.
    do 2 f_equal. rewrite (take_S_r _ _ (L + (j - 1))); [|by apply pool_lookup_clone].
    do 2 f_equal. lia.
Qed.

Lemma pool_at_acquired gripMatrices : forall j s,
  at_call j s ->
  acquired s gripMatrices h p
    = (fun i => pool !! (i mod M)) <$> seq j (length gripMatrices)
  /\ at_call (j + length gripMatrices) (addControllers s gripMatrices h p).
Proof.
  induction gripMatrices as [|gripMatrix rest IH]; intros j s Hat; simpl.
  - by rewrite Nat.add_0_r.
  - destruct (pool_at_step j s gripMatrix Hat) as (Hnode' & s' & Hadd & Hat').
    rewrite Hadd, Hnode'.
    destruct (IH (S j) s' Hat') as [Hacq Hend].
    rewrite Hacq. split; [done|].
    by replace (j + S (length rest)) with (S j + length rest) by lia.
Qed.

End RoundRobin.

(** [addController_node] reports the node that [addController] writes to:
    when it reports a node, the call returns normally, and the node, if it is
    an object of the resulting store, is visible and carries [gripMatrix]. *)
Lemma addController_node_shown s gripMatrix h p node :
  addController_node s h p = Some node ->
  exists s',
    addController s gripMatrix h p = Normal s'
    /\ (node < length (heap s') ->
        exists n, heap s' !! node = Some n
          /\ visible n = true /\ matrix n = Some gripMatrix).
Proof.
  unfold addController_node, addController.
  destruct (_controllers s) as [reg|]; [|done].
  destruct (_blurred s); [done|].
  destruct (reg !! controllerKey h p) as [c|]; [|done].
  destruct (takeOrClone s (nodes c) (activeCount c))
    as [[[s1 arr1] node1]|e]; [|done].
  intros [= ->]. eexists. split; [done|]. simpl. intros Hlt.
  rewrite !length_alter in Hlt.
  destruct (lookup_lt_is_Some_2 _ _ Hlt) as [n0 Hn0].
  exists (set_visible true (set_matrix gripMatrix n0)).
  by rewrite (lookup_shown _ _ _ n0).
Qed.

(** C3: on a pool seeded by [setControllerMesh] with one node, while the
    manager is not blurred, call number [j] (counted from 0) of
    [addController] selects entry [j mod _maxInputElements] of the list made
    of the seed node and the clones in allocation order.  Hence the first
    [_maxInputElements] calls select pairwise distinct nodes, the call after
    them selects the node of the first call, and each selected node sits at
    index [j mod _maxInputElements] of the pool's node array. *)
Theorem addController_round_robin s node n h p (gripMatrices : list Matrix) :
  _blurred s = false ->
  0 < _maxInputElements s ->
  heap s !! node = Some n ->
  let M := _maxInputElements s in
  let pool := node :: seq (length (heap s)) (M - 1) in
  let s1 := setControllerMesh s node h p in
  let got := acquired s1 gripMatrices h p in
  NoDup pool /\ length pool = M
  /\ got = (fun j => pool !! (j mod M)) <$> seq 0 (length gripMatrices)
  /\ (forall i j, i < j -> j < M -> j < length gripMatrices ->
        got !! i <> got !! j)
  /\ (M < length gripMatrices -> got !! M = got !! 0)
  /\ exists c,
       registered (addControllers s1 gripMatrices h p) (controllerKey h p) = Some c
       /\ forall j, j < length gripMatrices ->
            got !! j = Some (nodes c !! (j mod M)).
Proof.
  intros Hb HM Hn M pool s1 got.
  pose proof (lookup_lt_Some _ _ _ Hn) as Hnode.
  assert (pool_at M (length (heap s)) node h p 0 s1) as Hat.
  { split; [done|]. split; [done|]. split.
    - subst s1. simpl. rewrite length_alter. lia.
    - exists None. subst s1. rewrite registered_setControllerMesh.
      rewrite decide_True by done. do 2 f_equal.
      by rewrite Nat.Div0.mod_0_l. }
  destruct (pool_at_acquired M (length (heap s)) node h p HM Hnode
              gripMatrices 0 s1 Hat) as [Hgot (_ & _ & _ & vis & Hend)].
  assert (NoDup pool) as Hnd by (apply pool_NoDup; done).
  assert (length pool = M) as Hlen by (apply pool_length; done).
  unfold poolNodes, poolSize in Hgot, Hend. fold pool in Hgot, Hend.
  fold got in Hgot.
  assert (forall j, j < length gripMatrices -> got !! j = Some (pool !! (j mod M)))
    as Hgotj.
  { intros j Hj. rewrite Hgot, list_lookup_fmap, lookup_seq_lt by done. done. }
  split; [done|]. split; [done|]. split; [done|]. split; [|split].
  - intros i j Hij HjM Hj. rewrite !Hgotj by lia.
    rewrite !Nat.mod_small by lia.
    destruct (lookup_lt_is_Some_2 pool i) as [x Hx]; [lia|].
    intros Heq. assert (pool !! j = Some x) as Hx'.
    { injection Heq as Heq. etrans; [symmetry; exact Heq|exact Hx]. }
    pose proof (NoDup_lookup _ _ _ _ Hnd Hx Hx'). lia.
  - intros HMlen. rewrite !Hgotj by lia.
    by rewrite Nat.Div0.mod_same, Nat.Div0.mod_0_l.
  - eexists. split; [exact Hend|]. simpl.
    intros j Hj. rewrite Hgotj by done. f_equal.
    pose proof (Nat.mod_upper_bound j M ltac:(lia)) as Hmod.
    rewrite lookup_take_lt; [done|].
    destruct (decide (j < M)) as [HjM|HjM]; [|lia].
    rewrite Nat.mod_small by done. lia.
Qed.

(** ** Reset *)

(** [reset] returns exactly when its first block does not run or the
    registry inherits no enumerable property. *)
Lemma reset_returns s options :
  (reset s options).2 = Normal tt <->
  (controllers (default DEFAULT_RESET_OPTIONS options) = true ->
   forall reg, _controllers s = Some reg -> firstInherited s reg = None).
Proof.
  unfold reset. cbv zeta. unfold resetControllers.
  destruct (_controllers s) as [reg|]; [|done].
  destruct (controllers _); [|done].
  destruct (firstInherited s reg) eqn:Hf; simpl.
  - split; [done|]. intros H. specialize (H eq_refl reg eq_refl). congruence.
  - split; [|done]. by intros _ _ reg0 [= <-].
Qed.

Lemma reset_completion s options :
  (reset s options).2 = Normal tt \/ (reset s options).2 = Throw TypeError.
Proof.
  unfold reset. cbv zeta. unfold resetControllers.
  destruct (_controllers s) as [reg|]; [|by left].
  destruct (controllers _); [|by left].
  destruct (firstInherited s reg); simpl; auto.
Qed.

Lemma firstInherited_None s reg :
  firstInherited s reg = None ->
  reg !! "__proto__" = None /\ "__proto__" ∉ inheritedVisible s.
Proof.
  unfold firstInherited. destruct (reg !! "__proto__"); [done|].
  by case_decide.
Qed.

Lemma resetOwn_plain reg :
  reg !! "__proto__" = None -> resetOwn reg = resetController <$> reg.
Proof.
  intros Hp. unfold resetOwn. rewrite Hp. by rewrite delete_id.
Qed.

(** [reset], when it returns, in closed form. *)
Lemma reset_eq s options :
  let o := default DEFAULT_RESET_OPTIONS options in
  (reset s options).2 = Normal tt ->
  (reset s options).1 =
    {| heap := hideHeap (resetRefs s o) (heap s);
       children := children s;
       _maxInputElements := _maxInputElements s;
       _controllers :=
         if controllers o
         then fmap (M := option) (fmap resetController) (_controllers s)
         else _controllers s;
       _lasers := _lasers s;
       _cursors := _cursors s;
       _activeControllers := _activeControllers s;
       _activeLasers :=
         if lasers o
         then match _lasers s with Some _ => 0 | None => _activeLasers s end
         else _activeLasers s;
       _activeCursors :=
         if cursors o
         then match _cursors s with Some _ => 0 | None => _activeCursors s end
         else _activeCursors s;
       _blurred := _blurred s;
       _renderer := _renderer s;
       inheritedVisible := inheritedVisible s |}.
Proof.
  intros o Hret. pose proof (proj1 (reset_returns _ _) Hret) as Hret0; clear Hret; rename Hret0 into Hret. fold o in Hret.
  unfold reset. fold o.
  assert (resetControllers o s =
            (match _controllers s with
             | Some reg =>
                 if controllers o
                 then hideAll (registryNodes reg)
                        (with_controllers (Some (resetController <$> reg)) s)
                 else s
             | None => s
             end, Normal tt)) as ->.
  { unfold resetControllers.
    destruct (_controllers s) as [reg|] eqn:Hreg; [|done].
    destruct (controllers o) eqn:Ho; [|done].
    rewrite (Hret eq_refl reg eq_refl).
    destruct (firstInherited_None s reg (Hret eq_refl reg eq_refl)) as [Hp _].
    by rewrite (resetOwn_plain reg Hp), (delete_id reg _ Hp). }
  clear Hret. unfold resetCursors, resetLasers, resetRefs.
  destruct s as [hp ch mx [reg|] [las|] [cur|] ac al acu bl rd iv];
    destruct o as [[|] [|] [|]]; simpl;
    repeat (rewrite hideAll_heap; simpl);
    rewrite ?hideHeap_app, ?app_nil_r; done.
Qed.

(** The state a returning [reset] leaves: a second [reset] returns too. *)
Lemma reset_returns_again s options options' :
  (reset s options).2 = Normal tt ->
  (reset s options').2 = Normal tt ->
  (reset (reset s options).1 options').2 = Normal tt.
Proof.
  intros Hret Hret'. rewrite reset_returns. intros Ho' reg1.
  rewrite (reset_eq s options Hret). simpl. intros Hreg1.
  pose proof (proj1 (reset_returns _ _) Hret') as Hret0; clear Hret'; rename Hret0 into Hret'.
  destruct (_controllers s) as [reg|] eqn:Hreg;
    [|by destruct (controllers (default DEFAULT_RESET_OPTIONS options))].
  destruct (firstInherited_None s reg (Hret' Ho' reg eq_refl)) as [Hp Hv].
  unfold firstInherited. simpl.
  assert (reg1 !! "__proto__" = None) as ->.
  { destruct (controllers (default DEFAULT_RESET_OPTIONS options));
      simpl in Hreg1; injection Hreg1 as <-; [|done].
    by rewrite lookup_fmap, Hp. }
  by rewrite decide_False.
Qed.

Lemma resetController_idemp (reg : gmap string Controller) :
  resetController <$> (resetController <$> reg) = resetController <$> reg.
Proof.
  apply map_eq. intros key. rewrite !lookup_fmap. by destruct (reg !! key).
Qed.

Lemma reset_idempotent s options :
  (reset s options).2 = Normal tt ->
  reset (reset s options).1 options = reset s options.
Proof.
  intros Hret.
  pose proof (reset_returns_again s options options Hret Hret) as Hret1.
  apply injective_projections; [|congruence]. clear Hret1.
  rewrite (reset_eq (reset s options).1)
    by by apply reset_returns_again.
  rewrite !(reset_eq s) by done.
  set (o := default DEFAULT_RESET_OPTIONS options). cbv zeta. simpl.
  f_equal.
  - rewrite <- hideHeap_app. apply hideHeap_ext. intros r.
    unfold resetRefs; simpl. rewrite !elem_of_app.
    assert (r ∈ (if controllers o
                 then from_option registryNodes []
                        (if controllers o
                         then fmap (M := option) (fmap resetController)
                                (_controllers s)
                         else _controllers s)
                 else [])
            <-> r ∈ (if controllers o
                     then from_option registryNodes [] (_controllers s)
                     else [])) as Hiff.
    { destruct (controllers o); [|done].
      destruct (_controllers s); simpl; [|done].
      apply registryNodes_resetController. }
    rewrite Hiff. tauto.
  - destruct (controllers o); [|done].
    destruct (_controllers s); simpl; [|done].
    by rewrite resetController_idemp.
  - destruct (lasers o); [|done]. by destruct (_lasers s).
  - destruct (cursors o); [|done]. by destruct (_cursors s).
Qed.

Lemma reset_hidden s options r n :
  (reset s options).2 = Normal tt ->
  r ∈ resetRefs s (default DEFAULT_RESET_OPTIONS options) ->
  heap s !! r = Some n ->
  heap (reset s options).1 !! r = Some (set_visible false n).
Proof.
  intros Hret Hr Hn. rewrite reset_eq by done. simpl.
  by rewrite hideHeap_lookup, decide_True, Hn.
Qed.

Lemma reset_kept s options r :
  (reset s options).2 = Normal tt ->
  r ∉ resetRefs s (default DEFAULT_RESET_OPTIONS options) ->
  heap (reset s options).1 !! r = heap s !! r.
Proof.
  intros Hret Hr. rewrite reset_eq by done. simpl.
  by rewrite hideHeap_lookup, decide_False.
Qed.

(** [reset], when it throws, in closed form. *)
Lemma reset_throws s options :
  (reset s options).2 = Throw TypeError ->
  exists reg,
    _controllers s = Some reg
    /\ controllers (default DEFAULT_RESET_OPTIONS options) = true
    /\ is_Some (firstInherited s reg)
    /\ (reset s options).1 =
         hideAll (registryNodes (delete "__proto__" reg))
           (with_controllers (Some (resetOwn reg)) s).
Proof.
  unfold reset. cbv zeta. unfold resetControllers.
  destruct (_controllers s) as [reg|]; [|done].
  destruct (controllers _); [|done].
  destruct (firstInherited s reg) eqn:Hf; simpl; [|done].
  intros _. exists reg. by rewrite Hf.
Qed.

(** What every [reset] keeps, whether it returns or throws. *)
Lemma reset_shape s options :
  exists refs,
    heap (reset s options).1 = hideHeap refs (heap s)
    /\ children (reset s options).1 = children s
    /\ _maxInputElements (reset s options).1 = _maxInputElements s
    /\ _lasers (reset s options).1 = _lasers s
    /\ _cursors (reset s options).1 = _cursors s
    /\ forall key c, registered (reset s options).1 key = Some c ->
         exists c0, registered s key = Some c0 /\ nodes c = nodes c0.
Proof.
  destruct (reset_completion s options) as [Hret|Hthrow].
  - exists (resetRefs s (default DEFAULT_RESET_OPTIONS options)).
    rewrite reset_eq by done. simpl. repeat split.
    intros key c Hreg. unfold registered in *. simpl in Hreg.
    destruct (controllers (default DEFAULT_RESET_OPTIONS options)); [|eauto].
    destruct (_controllers s) as [reg|]; [|done]. simpl in Hreg.
    rewrite lookup_fmap in Hreg.
    destruct (reg !! key) as [c0|] eqn:Hc0; [|done].
    injection Hreg as <-. by exists c0.
  - destruct (reset_throws s options Hthrow) as (reg & Hreg & _ & _ & ->).
    exists (registryNodes (delete "__proto__" reg)).
    rewrite hideAll_heap. simpl. repeat split.
    intros key c Hc. unfold registered in *. simpl in Hc. rewrite Hreg.
    apply resetOwn_lookup_Some in Hc as (c0 & Hc0 & Hn & _). eauto.
Qed.

(** ** The first selection of a cycle *)

Lemma addController_first s gripMatrix h p reg c r0 tl :
  _blurred s = false ->
  _controllers s = Some reg ->
  reg !! controllerKey h p = Some c ->
  nodes c = r0 :: tl -> activeCount c = 0 ->
  addController_node s h p = Some r0
  /\ addController s gripMatrix h p =
       Normal
         (store (set_visible true) r0
            (store (set_matrix gripMatrix) r0
               (with_controllers
                  (Some (<[controllerKey h p :=
                             {| nodes := nodes c;
                                activeCount := 1 mod _maxInputElements s;
                                ctl_visible := ctl_visible c |}]> reg)) s))).
Proof.
  intros Hb Hreg Hc Hnodes Hact.
  unfold addController_node, addController, takeOrClone.
  rewrite Hreg, Hb, Hc, Hact, Hnodes. simpl. done.
Qed.

Lemma addLaserPointer_first s rigidTransform_matrix r0 tl :
  _blurred s = false ->
  _lasers s = Some (r0 :: tl) -> _activeLasers s = 0 ->
  addLaserPointer s rigidTransform_matrix =
    Normal
      (store (set_visible true) r0
         (store (set_matrix rigidTransform_matrix) r0 (advanceLasers s))).
Proof.
  intros Hb Hlas Hact.
  unfold addLaserPointer, ensureLaserMesh, takeOrClone.
  rewrite Hb, Hlas. cbv zeta. rewrite Hlas, Hact. simpl.
  destruct s; simpl in *. by subst.
Qed.

Lemma addCursor_first s cursorPos r0 tl :
  _blurred s = false ->
  _cursors s = Some (r0 :: tl) -> _activeCursors s = 0 ->
  addCursor s cursorPos =
    Normal
      (store (set_visible true) r0
         (store (set_translation cursorPos) r0
            (with_activeCursors (1 mod _maxInputElements s) s))).
Proof.
  intros Hb Hcur Hact.
  unfold addCursor, ensureCursorMesh, takeOrClone.
  rewrite Hb, Hcur. cbv zeta. rewrite Hcur, Hact. simpl.
  destruct s; simpl in *. by subst.
Qed.

Lemma registered_resetRefs s o key c r :
  controllers o = true -> registered s key = Some c -> r ∈ nodes c ->
  r ∈ resetRefs s o.
Proof.
  intros Ho Hreg Hr. unfold resetRefs, registered in *. rewrite Ho.
  destruct (_controllers s) as [reg|]; [|done]. simpl.
  apply elem_of_app. left. apply elem_of_registryNodes. eauto.
Qed.

Lemma lasers_resetRefs s o arr r :
  lasers o = true -> _lasers s = Some arr -> r ∈ arr -> r ∈ resetRefs s o.
Proof.
  intros Ho Hlas Hr. unfold resetRefs. rewrite Ho, Hlas. simpl.
  rewrite !elem_of_app. auto.
Qed.

Lemma cursors_resetRefs s o arr r :
  cursors o = true -> _cursors s = Some arr -> r ∈ arr -> r ∈ resetRefs s o.
Proof.
  intros Ho Hcur Hr. unfold resetRefs. rewrite Ho, Hcur. simpl.
  rewrite !elem_of_app. auto.
Qed.

Lemma pool_ok_head hp kind arr active :
  pool_ok hp kind arr active ->
  exists r0 tl n0, arr = r0 :: tl /\ hp !! r0 = Some n0.
Proof.
  intros [Hnd Hne Hact (k & Hk & Hall)].
  destruct arr as [|r0 tl]; [simpl in Hne; lia|].
  destruct (Hall r0) as (n0 & Hn0 & _); [by left|]. by exists r0, tl, n0.
Qed.

Lemma pool_ok_lookup hp kind arr active r :
  pool_ok hp kind arr active -> r ∈ arr -> is_Some (hp !! r).
Proof.
  intros [_ _ _ (k & _ & Hall)] Hr. destruct (Hall r Hr) as (n & Hn & _). eauto.
Qed.


(** X20: in every reachable state, a [reset] that returns hides every node of
    each selected pool that exists and sets that pool's active index to 0;
    resetting again changes nothing; and when the manager is not blurred,
    the first [addController] (likewise [addLaserPointer], [addCursor])
    after a reset that selected the pool selects the node at index 0, which
    the reset had hidden and which the call then shows. *)
Theorem reset_contract (h0 : list Node) s options
    (gripMatrix rigidTransform_matrix : Matrix) (cursorPos : Vec3) hh p :
  reachable h0 s ->
  (reset s options).2 = Normal tt ->
  let o := default DEFAULT_RESET_OPTIONS options in
  let s1 := (reset s options).1 in
  (controllers o = true -> forall key c, registered s key = Some c ->
     registered s1 key = Some (resetController c)
     /\ forall r, r ∈ nodes c -> visible <$> heap s1 !! r = Some false)
  /\ (lasers o = true -> forall arr, _lasers s = Some arr ->
        _lasers s1 = Some arr /\ _activeLasers s1 = 0
        /\ forall r, r ∈ arr -> visible <$> heap s1 !! r = Some false)
  /\ (cursors o = true -> forall arr, _cursors s = Some arr ->
        _cursors s1 = Some arr /\ _activeCursors s1 = 0
        /\ forall r, r ∈ arr -> visible <$> heap s1 !! r = Some false)
  /\ reset s1 options = (s1, Normal tt)
  /\ (_blurred s = false -> controllers o = true ->
      forall c, registered s (controllerKey hh p) = Some c ->
        exists r0 s2,
          nodes c !! 0 = Some r0
          /\ addController_node s1 hh p = Some r0
          /\ visible <$> heap s1 !! r0 = Some false
          /\ addController s1 gripMatrix hh p = Normal s2
          /\ visible <$> heap s2 !! r0 = Some true)
  /\ (_blurred s = false -> lasers o = true ->
      forall arr, _lasers s = Some arr ->
        exists r0 s2,
          arr !! 0 = Some r0
          /\ visible <$> heap s1 !! r0 = Some false
          /\ addLaserPointer s1 rigidTransform_matrix = Normal s2
          /\ _lasers s2 = Some arr
          /\ visible <$> heap s2 !! r0 = Some true)
  /\ (_blurred s = false -> cursors o = true ->
      forall arr, _cursors s = Some arr ->
        exists r0 s2,
          arr !! 0 = Some r0
          /\ visible <$> heap s1 !! r0 = Some false
          /\ addCursor s1 cursorPos = Normal s2
          /\ _cursors s2 = Some arr
          /\ visible <$> heap s2 !! r0 = Some true).
Proof.
  intros Hreach Hret o s1.
  pose proof (Inv_reachable _ _ Hreach) as [Hmax Hc Hl Hcu Hlu Hcuu].
  assert (forall key c, registered s key = Some c ->
            pool_ok (heap s) is_controller_mesh (nodes c) (activeCount c))
    as Hpoolc.
  { intros key c Hreg. unfold registered in Hreg.
    destruct (_controllers s) as [reg|]; [|done]. by apply (Hc reg key c). }
  assert (forall key c, controllers o = true -> registered s key = Some c ->
            registered s1 key = Some (resetController c)) as Hregs1.
  { intros key c Ho Hreg. subst s1. rewrite reset_eq by done. fold o.
    unfold registered in *. simpl. rewrite Ho.
    destruct (_controllers s) as [reg|]; [|done]. simpl.
    by rewrite lookup_fmap, Hreg. }
  assert (forall r, r ∈ resetRefs s o -> is_Some (heap s !! r) ->
            visible <$> heap s1 !! r = Some false) as Hhid.
  { intros r Hr [n Hn]. subst s1. by rewrite (reset_hidden s options r n). }
  assert (_blurred s1 = _blurred s) as Hb1.
  { subst s1. by rewrite reset_eq. }
  split; [|split; [|split; [|split; [|split; [|split]]]]].
  - intros Ho key c Hreg. split; [by apply Hregs1|].
    intros r Hr. apply Hhid; [by eapply registered_resetRefs|].
    by eapply pool_ok_lookup; [apply (Hpoolc key c)|].
  - intros Ho arr Hlas. rewrite Hlas in Hl. destruct Hl as [_ Hpool].
    subst s1. rewrite reset_eq by done. fold o. simpl. rewrite Ho, Hlas.
    split; [done|]. split; [done|]. intros r Hr.
    specialize (Hhid r). rewrite reset_eq in Hhid by done. apply Hhid.
    + by eapply lasers_resetRefs.
    + by eapply pool_ok_lookup.
  - intros Ho arr Hcur. rewrite Hcur in Hcu. destruct Hcu as [_ Hpool].
    subst s1. rewrite reset_eq by done. fold o. simpl. rewrite Ho, Hcur.
    split; [done|]. split; [done|]. intros r Hr.
    specialize (Hhid r). rewrite reset_eq in Hhid by done. apply Hhid.
    + by eapply cursors_resetRefs.
    + by eapply pool_ok_lookup.
  - subst s1. rewrite reset_idempotent by done. rewrite <- Hret.
    by destruct (reset s options).
  - intros Hb Ho c Hreg.
    destruct (pool_ok_head _ _ _ _ (Hpoolc _ c Hreg)) as (r0 & tl & n0 & Hnodes & Hn0).
    pose proof (Hregs1 _ c Ho Hreg) as Hreg1.
    unfold registered in Hreg1.
    destruct (_controllers s1) as [reg1|] eqn:Hregs; [|done].
    destruct (addController_first s1 gripMatrix hh p reg1 (resetController c) r0 tl)
      as [Hnode Hadd]; [congruence|done|done|done|done|].
    assert (visible <$> heap s1 !! r0 = Some false) as Hvis.
    { apply Hhid; [|by eexists].
      eapply registered_resetRefs; [done..|]. rewrite Hnodes. by left. }
    exists r0. eexists. split; [by rewrite Hnodes|]. split; [done|].
    split; [done|]. split; [exact Hadd|]. simpl.
    destruct (heap s1 !! r0) as [n1|] eqn:Hn1; [|done].
    by rewrite (lookup_shown _ _ _ n1).
  - intros Hb Ho arr Hlas. pose proof Hl as Hl'. rewrite Hlas in Hl'.
    destruct Hl' as [_ Hpool].
    destruct (pool_ok_head _ _ _ _ Hpool) as (r0 & tl & n0 & -> & Hn0).
    assert (visible <$> heap s1 !! r0 = Some false) as Hvis.
    { apply Hhid; [|by eexists]. eapply lasers_resetRefs; [done..|]. by left. }
    assert (_lasers s1 = Some (r0 :: tl) /\ _activeLasers s1 = 0) as [Hlas1 Hact1].
    { subst s1. rewrite reset_eq by done. fold o. simpl. by rewrite Ho, Hlas. }
    exists r0. eexists. split; [done|]. split; [done|].
    split; [apply (addLaserPointer_first s1 _ r0 tl); [congruence|done|done]|].
    simpl. split; [done|].
    destruct (heap s1 !! r0) as [n1|] eqn:Hn1; [|done].
    by rewrite (lookup_shown _ _ _ n1).
  - intros Hb Ho arr Hcur. pose proof Hcu as Hcu'. rewrite Hcur in Hcu'.
    destruct Hcu' as [_ Hpool].
    destruct (pool_ok_head _ _ _ _ Hpool) as (r0 & tl & n0 & -> & Hn0).
    assert (visible <$> heap s1 !! r0 = Some false) as Hvis.
    { apply Hhid; [|by eexists]. eapply cursors_resetRefs; [done..|]. by left. }
    assert (_cursors s1 = Some (r0 :: tl) /\ _activeCursors s1 = 0) as [Hcur1 Hact1].
    { subst s1. rewrite reset_eq by done. fold o. simpl. by rewrite Ho, Hcur. }
    exists r0. eexists. split; [done|]. split; [done|].
    split; [apply (addCursor_first s1 _ r0 tl); [congruence|done|done]|].
    simpl. split; [done|].
    destruct (heap s1 !! r0) as [n1|] eqn:Hn1; [|done].
    by rewrite (lookup_shown _ _ _ n1).
Qed.

(** ** Selective reset *)





(** ** Capacity and scene-graph membership of the pools *)

Lemma takeOrClone_bounded s kind arr active :
  pool_ok (heap s) kind arr active ->
  active < _maxInputElements s ->
  pool_bounded s arr ->
  exists h' c' arr' node,
    takeOrClone s arr active = Normal (with_children c' (with_heap h' s), arr', node)
    /\ length arr' <= _maxInputElements s
    /\ (forall r, r ∈ arr' -> r ∈ c')
    /\ (forall r, r ∈ children s -> r ∈ c').
Proof.
  intros Hpool Hact [Hlen Hch].
  destruct (takeOrClone_ok s kind arr active Hpool)
    as (h' & c' & arr' & node & Htake & _ & _ & _ & Hlt & Hge).
  exists h', c', arr', node. split; [done|].
  destruct (decide (active < length arr)) as [Hcase|Hcase].
  - destruct (Hlt Hcase) as (-> & _ & ->). done.
  - destruct Hge as (r0 & n0 & _ & _ & _ & -> & _ & ->); [lia|].
    rewrite length_app. simpl. split; [lia|]. split.
    + intros r Hr. apply elem_of_app in Hr as [Hr|Hr]; apply elem_of_app; auto.
    + intros r Hr. apply elem_of_app. auto.
Qed.

Lemma Bounded_constructor h : Bounded (constructor h).
Proof. intros arr [(key & c & Hreg & _)|[Hl|Hcu]]; done. Qed.

Lemma Bounded_register s url h p :
  Inv s -> Bounded s ->
  Bounded (setControllerMesh (alloc (Gltf2Node_new url) s).1
             (alloc (Gltf2Node_new url) s).2 h p).
Proof.
  intros [Hmax _ _ _ _ _] Hbd arr Hpool.
  assert (forall arr0, pool_bounded s arr0 ->
            pool_bounded (setControllerMesh (alloc (Gltf2Node_new url) s).1
                            (alloc (Gltf2Node_new url) s).2 h p) arr0) as Hmono.
  { intros arr0 [Hlen Hch]. split; [done|]. simpl. intros r Hr.
    apply elem_of_app. auto. }
  destruct Hpool as [(key & c & Hreg & <-)|[Hl|Hcu]].
  - rewrite registered_setControllerMesh in Hreg. case_decide.
    + injection Hreg as <-. split; [simpl; lia|]. simpl. intros r Hr.
      apply list_elem_of_singleton in Hr as ->. apply elem_of_app. right. by left.
    + apply Hmono, Hbd. left. by exists key, c.
  - apply Hmono, Hbd. right. by left.
  - apply Hmono, Hbd. right. by right.
Qed.

Lemma Bounded_hideController s h p : Bounded s -> Bounded (hideController s h p).
Proof.
  intros Hbd arr Hpool. unfold hideController in *.
  destruct (_controllers s) as [reg|] eqn:Hregs; [|by apply Hbd].
  destruct (reg !! controllerKey h p) as [c|] eqn:Hc.
  2:{ case_decide; [|by apply Hbd].
      assert (pool_bounded s arr) as [Hlen Hch]; [|done].
      apply Hbd. unfold is_pool, registered in *. simpl in Hpool.
      by rewrite Hregs in *. }
  assert (pool_bounded s arr) as [Hlen Hch]; [|done].
  apply Hbd. destruct Hpool as [(key & c' & Hreg & <-)|[Hl|Hcu]].
  - left. unfold registered in *. simpl in Hreg. rewrite Hregs.
    apply lookup_insert_Some in Hreg as [[<- <-]|[_ Hreg]]; eauto.
  - right. by left.
  - right. by right.
Qed.

Lemma Bounded_addController s gripMatrix h p s' :
  Inv s -> Bounded s -> addController s gripMatrix h p = Normal s' -> Bounded s'.
Proof.
  intros [Hmax Hc Hl Hcu Hlu Hcuu] Hbd. unfold addController.
  destruct (_controllers s) as [reg|] eqn:Hregs; [|by intros [= <-]].
  destruct (_blurred s); [by intros [= <-]|].
  destruct (reg !! controllerKey h p) as [c|] eqn:Hlook;
    [|case_decide; [done|by intros [= <-]]].
  destruct (Hc reg _ c eq_refl Hlook) as [Hpool Hact].
  destruct (takeOrClone_bounded s _ _ _ Hpool Hact)
    as (h' & c' & arr' & node & -> & Hlen & Hin & Hmono).
  { apply Hbd. left. exists (controllerKey h p), c. unfold registered.
    by rewrite Hregs. }
  intros [= <-] arr Hpool'.
  assert (pool_bounded s arr -> length arr <= _maxInputElements s
            /\ forall r, r ∈ arr -> r ∈ c') as Hold.
  { intros [? ?]. split; [done|]. auto. }
  destruct Hpool' as [(key & c0 & Hreg & <-)|[Hl'|Hcu']].
  - unfold registered in Hreg. simpl in Hreg.
    apply lookup_insert_Some in Hreg as [[_ <-]|[_ Hreg]]; [done|].
    apply Hold, Hbd. left. exists key, c0. unfold registered. by rewrite Hregs.
  - apply Hold, Hbd. right. by left.
  - apply Hold, Hbd. right. by right.
Qed.

Lemma Bounded_ensureLaserMesh s : Inv s -> Bounded s -> Bounded (ensureLaserMesh s).
Proof.
  intros [Hmax _ _ _ _ _] Hbd. unfold ensureLaserMesh.
  destruct (_lasers s) eqn:Hlas; [done|].
  destruct (_renderer s) as [rd|]; [|done].
  intros arr Hpool.
  assert (pool_bounded s arr -> length arr <= _maxInputElements s
            /\ forall r, r ∈ arr -> r ∈ children s ++ [length (heap s)]) as Hold.
  { intros [? ?]. split; [done|]. intros r Hr. apply elem_of_app. auto. }
  destruct Hpool as [(key & c & Hreg & <-)|[Hl|Hcu]].
  - apply Hold, Hbd. left. by exists key, c.
  - simpl in Hl. injection Hl as <-. split; [simpl; lia|]. simpl.
    intros r Hr. apply list_elem_of_singleton in Hr as ->.
    apply elem_of_app. right. by left.
  - apply Hold, Hbd. right. by right.
Qed.

Lemma Bounded_ensureCursorMesh s : Inv s -> Bounded s -> Bounded (ensureCursorMesh s).
Proof.
  intros [Hmax _ _ _ _ _] Hbd. unfold ensureCursorMesh.
  destruct (_cursors s) eqn:Hcur; [done|].
  destruct (_renderer s) as [rd|]; [|done].
  intros arr Hpool.
  assert (pool_bounded s arr -> length arr <= _maxInputElements s
            /\ forall r, r ∈ arr -> r ∈ children s ++ [length (heap s)]) as Hold.
  { intros [? ?]. split; [done|]. intros r Hr. apply elem_of_app. auto. }
  destruct Hpool as [(key & c & Hreg & <-)|[Hl|Hcu]].
  - apply Hold, Hbd. left. by exists key, c.
  - apply Hold, Hbd. right. by left.
  - simpl in Hcu. injection Hcu as <-. split; [simpl; lia|]. simpl.
    intros r Hr. apply list_elem_of_singleton in Hr as ->.
    apply elem_of_app. right. by left.
Qed.

Lemma Bounded_addLaserPointer s rigidTransform_matrix s' :
  Inv s -> Bounded s ->
  addLaserPointer s rigidTransform_matrix = Normal s' -> Bounded s'.
Proof.
  intros HInv Hbd. unfold addLaserPointer.
  destruct (_blurred s); [by intros [= <-]|].
  pose proof (Bounded_ensureLaserMesh s HInv Hbd) as Hbd1.
  pose proof (Inv_ensureLaserMesh s HInv) as [Hmax Hc Hl Hcu Hlu Hcuu].
  cbv zeta. set (s1 := ensureLaserMesh s) in *.
  assert (Bounded (advanceLasers s1)) as Hadv.
  { intros arr Hpool. by apply (Hbd1 arr). }
  destruct (_lasers s1) as [arr0|] eqn:Hlas; [|by intros [= <-]].
  destruct Hl as [Hact Hpool].
  destruct (takeOrClone_bounded s1 _ _ _ Hpool Hact)
    as (h' & c' & arr' & node & Htake & Hlen & Hin & Hmono).
  { apply Hbd1. right. by left. }
  destruct arr0 as [|r0 tl]; [by intros [= <-]|].
  rewrite Htake. intros [= <-] arr Hpool'.
  assert (pool_bounded s1 arr -> length arr <= _maxInputElements s1
            /\ forall r, r ∈ arr -> r ∈ c') as Hold.
  { intros [? ?]. split; [done|]. auto. }
  destruct Hpool' as [(key & c0 & Hreg & <-)|[Hl'|Hcu']].
  - apply Hold, Hbd1. left. by exists key, c0.
  - simpl in Hl'. by injection Hl' as <-.
  - apply Hold, Hbd1. right. by right.
Qed.

Lemma Bounded_addCursor s cursorPos s' :
  Inv s -> Bounded s -> addCursor s cursorPos = Normal s' -> Bounded s'.
Proof.
  intros HInv Hbd. unfold addCursor.
  destruct (_blurred s); [by intros [= <-]|].
  pose proof (Bounded_ensureCursorMesh s HInv Hbd) as Hbd1.
  pose proof (Inv_ensureCursorMesh s HInv) as [Hmax Hc Hl Hcu Hlu Hcuu].
  cbv zeta. set (s1 := ensureCursorMesh s) in *.
  destruct (_cursors s1) as [arr0|] eqn:Hcur; [|done].
  destruct Hcu as [Hact Hpool].
  destruct (takeOrClone_bounded s1 _ _ _ Hpool Hact)
    as (h' & c' & arr' & node & -> & Hlen & Hin & Hmono).
  { apply Hbd1. right. by right. }
  intros [= <-] arr Hpool'.
  assert (pool_bounded s1 arr -> length arr <= _maxInputElements s1
            /\ forall r, r ∈ arr -> r ∈ c') as Hold.
  { intros [? ?]. split; [done|]. auto. }
  destruct Hpool' as [(key & c0 & Hreg & <-)|[Hl'|Hcu']].
  - apply Hold, Hbd1. left. by exists key, c0.
  - apply Hold, Hbd1. right. by left.
  - simpl in Hcu'. by injection Hcu' as <-.
Qed.

Lemma Bounded_reset s options : Bounded s -> Bounded (reset s options).1.
Proof.
  intros Hbd arr Hpool.
  destruct (reset_shape s options) as (refs & _ & Hch1 & Hmax1 & Hl1 & Hcu1 & Hreg1).
  assert (pool_bounded s arr) as [Hlen Hch].
  { apply Hbd. destruct Hpool as [(key & c & Hreg & <-)|[Hl|Hcu]].
    - left. destruct (Hreg1 key c Hreg) as (c0 & Hc0 & ->). by exists key, c0.
    - right. left. congruence.
    - right. right. congruence. }
  split; [by rewrite Hmax1|]. by rewrite Hch1.
Qed.

Lemma Bounded_step s op : Inv s -> Bounded s -> Bounded (step s op).
Proof.
  intros HInv Hbd. unfold step. destruct op; simpl.
  - intros arr [(key & c & Hreg & _)|[Hl|Hcu]]; done.
  - unfold onProfileFetched. destruct (String.eqb _ _); [|done].
    by apply (Bounded_register s assetPath).
  - by apply Bounded_register.
  - intros arr Hpool. assert (pool_bounded s arr) as [? ?]; [|by destruct v].
    apply Hbd. by destruct v.
  - destruct (addController s gripMatrix handedness0 profile) as [s'|] eqn:Hadd;
      [|done]. by eapply Bounded_addController.
  - by apply Bounded_hideController.
  - destruct (addLaserPointer s rigidTransform_matrix) as [s'|] eqn:Hadd;
      [|done]. by eapply Bounded_addLaserPointer.
  - destruct (addCursor s cursorPos) as [s'|] eqn:Hadd; [|done].
    by eapply Bounded_addCursor.
  - by apply Bounded_reset.
Qed.

Lemma Bounded_reachable h s : reachable h s -> Bounded s.
Proof.
  intros [ops ->]. unfold run.
  induction ops as [|op ops IH] using rev_ind; [apply Bounded_constructor|].
  rewrite foldl_snoc. apply Bounded_step; [|done].
  apply Inv_reachable with h. by exists ops.
Qed.

(** ** What no operation undoes *)

Lemma takeOrClone_grows s arr active s' arr' node :
  takeOrClone s arr active = Normal (s', arr', node) ->
  exists hx cx,
    s' = with_children (children s ++ cx) (with_heap (heap s ++ hx) s).
Proof.
  unfold takeOrClone. intros Htake.
  destruct (arr !! active).
  - injection Htake as <- _ _. exists [], []. rewrite !app_nil_r. by destruct s.
  - destruct (arr !! 0); [|done]. destruct (heap s !! _); [|done].
    injection Htake as <- _ _. by eexists [_], [_].
Qed.

Lemma heap_ext_app_l h hx : heap_ext h (h ++ hx).
Proof. intros r n Hr. exists n. split; [by apply lookup_app_l_Some|done]. Qed.

Lemma length_hideHeap arr h : length (hideHeap arr h) = length h.
Proof.
  unfold hideHeap. revert h. induction arr as [|r arr IH]; intros h; simpl; [done|].
  by rewrite IH, length_alter.
Qed.

Lemma extends_refl s : extends s s.
Proof. split; [apply heap_ext_refl|]. by split; [|split]. Qed.

Lemma extends_same s s' :
  heap s' = heap s -> children s' = children s ->
  _maxInputElements s' = _maxInputElements s -> extends s s'.
Proof.
  intros Hh Hc Hm. split; [rewrite Hh; apply heap_ext_refl|].
  rewrite Hh, Hc. by split; [|split].
Qed.

Lemma extends_trans s1 s2 s3 : extends s1 s2 -> extends s2 s3 -> extends s1 s3.
Proof.
  intros (He1 & Hl1 & Hp1 & Hm1) (He2 & Hl2 & Hp2 & Hm2).
  split; [by eapply heap_ext_trans|]. split; [lia|].
  split; [by etrans|congruence].
Qed.

(** Two assignments to fields of one node, as every [add*] method ends. *)
Lemma extends_shown s f r :
  (forall n, mesh (f n) = mesh n) ->
  extends s (store (set_visible true) r (store f r s)).
Proof.
  intros Hf. split; simpl.
  - eapply heap_ext_trans; apply heap_ext_alter; [done|apply mesh_set_visible].
  - by rewrite !length_alter.
Qed.

Lemma extends_grown s hx cx :
  extends s (with_children (children s ++ cx) (with_heap (heap s ++ hx) s)).
Proof.
  split; simpl; [apply heap_ext_app_l|]. split; [rewrite length_app; lia|].
  split; [by apply prefix_app_r|done].
Qed.

Lemma extends_addController s gripMatrix h p s' :
  addController s gripMatrix h p = Normal s' -> extends s s'.
Proof.
  unfold addController.
  destruct (_controllers s) as [reg|]; [|intros [= <-]; apply extends_refl].
  destruct (_blurred s); [intros [= <-]; apply extends_refl|].
  destruct (reg !! controllerKey h p) as [c|];
    [|case_decide; [done|intros [= <-]; apply extends_refl]].
  destruct (takeOrClone s (nodes c) (activeCount c))
    as [[[s1 arr1] node]|e] eqn:Htake; [|done].
  apply takeOrClone_grows in Htake as (hx & cx & ->). intros [= <-].
  eapply extends_trans; [apply (extends_grown s hx cx)|].
  match goal with
  | |- extends ?a (store _ ?r (store ?f ?r ?b)) =>
      apply (extends_trans a b); [by apply extends_same|];
      apply (extends_shown b f r), mesh_set_matrix
  end.
Qed.

Lemma extends_ensureLaserMesh s : extends s (ensureLaserMesh s).
Proof.
  unfold ensureLaserMesh. destruct (_lasers s); [apply extends_refl|].
  destruct (_renderer s); [|apply extends_refl].
  apply (extends_grown s [_createLaserMesh] [length (heap s)]).
Qed.

Lemma extends_ensureCursorMesh s : extends s (ensureCursorMesh s).
Proof.
  unfold ensureCursorMesh. destruct (_cursors s); [apply extends_refl|].
  destruct (_renderer s); [|apply extends_refl].
  apply (extends_grown s [_createCursorMesh] [length (heap s)]).
Qed.

Lemma extends_addLaserPointer s rigidTransform_matrix s' :
  addLaserPointer s rigidTransform_matrix = Normal s' -> extends s s'.
Proof.
  unfold addLaserPointer.
  destruct (_blurred s); [intros [= <-]; apply extends_refl|].
  cbv zeta. pose proof (extends_ensureLaserMesh s) as Hens.
  set (s1 := ensureLaserMesh s) in *.
  assert (extends s1 (advanceLasers s1)) as Hadv by by apply extends_same.
  destruct (_lasers s1) as [[|r0 tl]|];
    [intros [= <-]; by eapply extends_trans| |intros [= <-]; by eapply extends_trans].
  destruct (takeOrClone s1 (r0 :: tl) (_activeLasers s1))
    as [[[s2 arr2] node]|e] eqn:Htake; [|done].
  apply takeOrClone_grows in Htake as (hx & cx & ->). intros [= <-].
  eapply extends_trans; [exact Hens|].
  eapply extends_trans; [apply (extends_grown s1 hx cx)|].
  match goal with
  | |- extends ?a (store _ ?r (store ?f ?r ?b)) =>
      apply (extends_trans a b); [by apply extends_same|];
      apply (extends_shown b f r), mesh_set_matrix
  end.
Qed.

Lemma extends_addCursor s cursorPos s' :
  addCursor s cursorPos = Normal s' -> extends s s'.
Proof.
  unfold addCursor.
  destruct (_blurred s); [intros [= <-]; apply extends_refl|].
  cbv zeta. pose proof (extends_ensureCursorMesh s) as Hens.
  set (s1 := ensureCursorMesh s) in *.
  destruct (_cursors s1) as [arr|]; [|done].
  destruct (takeOrClone s1 arr (_activeCursors s1))
    as [[[s2 arr2] node]|e] eqn:Htake; [|done].
  apply takeOrClone_grows in Htake as (hx & cx & ->). intros [= <-].
  eapply extends_trans; [exact Hens|].
  eapply extends_trans; [apply (extends_grown s1 hx cx)|].
  match goal with
  | |- extends ?a (store _ ?r (store ?f ?r ?b)) =>
      apply (extends_trans a b); [by apply extends_same|];
      apply (extends_shown b f r), mesh_set_translation
  end.
Qed.

Lemma extends_register s url h p :
  extends s (setControllerMesh (alloc (Gltf2Node_new url) s).1
               (alloc (Gltf2Node_new url) s).2 h p).
Proof.
  split; simpl.
  - eapply heap_ext_trans; [apply heap_ext_app|].
    apply heap_ext_alter, mesh_set_visible.
  - rewrite length_alter, length_app. split; [lia|].
    split; [by apply prefix_app_r|done].
Qed.

Lemma extends_reset s options : extends s (reset s options).1.
Proof.
  destruct (reset_shape s options) as (refs & Hh & Hc & Hm & _).
  unfold extends. rewrite Hh, Hc, Hm.
  split; simpl; [apply heap_ext_hideHeap|].
  by rewrite length_hideHeap.
Qed.

Lemma extends_step s op : extends s (step s op).
Proof.
  unfold step. destruct op; simpl.
  - by apply extends_same.
  - unfold onProfileFetched. destruct (String.eqb _ _); [|apply extends_refl].
    apply extends_register.
  - apply extends_register.
  - by destruct v; apply extends_same.
  - destruct (addController s gripMatrix handedness0 profile) eqn:Hadd;
      [by eapply extends_addController|apply extends_refl].
  - unfold hideController. destruct (_controllers s) as [reg|]; [|apply extends_refl].
    destruct (reg !! _); [by apply extends_same|].
    case_decide; [by apply extends_same|apply extends_refl].
  - destruct (addLaserPointer s rigidTransform_matrix) eqn:Hadd;
      [by eapply extends_addLaserPointer|apply extends_refl].
  - destruct (addCursor s cursorPos) eqn:Hadd;
      [by eapply extends_addCursor|apply extends_refl].
  - apply extends_reset.
Qed.

Lemma extends_run s ops : extends s (run s ops).
Proof.
  unfold run. induction ops as [|op ops IH] using rev_ind; [apply extends_refl|].
  rewrite foldl_snoc. eapply extends_trans; [exact IH|apply extends_step].
Qed.

(** X1: in every reachable state, [addController] throws exactly when the
    registry exists, the manager is not blurred, and the key has no pool and
    is the name of a member that the registry inherits from
    [Object.prototype]; what it throws is then a [TypeError].  In every
    other case it returns normally.  [addLaserPointer], given a rigid
    transform (an object with a [matrix]), returns normally.  The state
    either call returns is reachable again. *)
Theorem addController_addLaserPointer_return (h0 : list Node) s
    (gripMatrix rigidTransform_matrix : Matrix) hh p :
  reachable h0 s ->
  (is_Some (_controllers s) /\ _blurred s = false
   /\ registered s (controllerKey hh p) = None
   /\ controllerKey hh p ∈ inheritedNames ->
     addController s gripMatrix hh p = Throw TypeError)
  /\ (_controllers s = None \/ _blurred s = true
      \/ is_Some (registered s (controllerKey hh p))
      \/ controllerKey hh p ∉ inheritedNames ->
        exists s', addController s gripMatrix hh p = Normal s'
                   /\ reachable h0 s')
  /\ (exists s', addLaserPointer s rigidTransform_matrix = Normal s'
                 /\ reachable h0 s').
Proof.
  intros Hreach. pose proof (Inv_reachable _ _ Hreach) as HInv.
  split; [|split].
  - intros ([reg Hreg] & Hb & Hnone & Hin). unfold addController, registered in *.
    rewrite Hreg in *. by rewrite Hb, Hnone, decide_True.
  - intros Hcase.
    assert (exists s', addController s gripMatrix hh p = Normal s')
      as [s' Hadd].
    { destruct Hcase as [Hnull|[Hb|[[c Hc]|Hnot]]].
      - unfold addController. rewrite Hnull. by eexists.
      - unfold addController. destruct (_controllers s); [|by eexists].
        rewrite Hb. by eexists.
      - destruct (Inv_addController s gripMatrix hh p HInv) as (s' & Hadd & _);
          [by rewrite Hc|by eexists].
      - destruct (Inv_addController s gripMatrix hh p HInv) as (s' & Hadd & _);
          [done|by eexists]. }
    exists s'. split; [done|].
    pose proof (reachable_step h0 s (OpAddController gripMatrix hh p) Hreach)
      as Hstep.
    unfold step in Hstep. simpl in Hstep. by rewrite Hadd in Hstep.
  - destruct (Inv_addLaserPointer s rigidTransform_matrix HInv) as (s' & Hadd & _).
    exists s'. split; [done|].
    pose proof (reachable_step h0 s (OpAddLaserPointer rigidTransform_matrix) Hreach)
      as Hstep.
    unfold step in Hstep. simpl in Hstep. by rewrite Hadd in Hstep.
Qed.

(** X2: in every reachable state, [addCursor] throws exactly when the manager
    is not blurred, has no cursor pool and has no backend, and what it throws
    is then a [TypeError]; in every other case it returns normally. *)
Theorem addCursor_throws_iff (h0 : list Node) s (cursorPos : Vec3) :
  reachable h0 s ->
  (_blurred s = false /\ _cursors s = None /\ _renderer s = None ->
     addCursor s cursorPos = Throw TypeError)
  /\ (_blurred s = true \/ is_Some (_cursors s) \/ is_Some (_renderer s) ->
        exists s', addCursor s cursorPos = Normal s' /\ reachable h0 s').
Proof.
  intros Hreach. pose proof (Inv_reachable _ _ Hreach) as HInv. split.
  - intros (Hb & Hcur & Hrd). unfold addCursor, ensureCursorMesh.
    rewrite Hb, Hcur, Hrd. cbv zeta. by rewrite Hcur.
  - intros Hcase.
    assert (exists s', addCursor s cursorPos = Normal s') as [s' Hadd].
    { unfold addCursor. destruct (_blurred s) eqn:Hb; [by eexists|].
      pose proof (Inv_ensureCursorMesh s HInv) as [_ _ _ Hcu _ _].
      cbv zeta.
      assert (is_Some (_cursors (ensureCursorMesh s))) as [arr Harr].
      { unfold ensureCursorMesh.
        destruct (_cursors s) eqn:Hcur; [by rewrite Hcur|].
        destruct (_renderer s) eqn:Hrd; [by eexists|].
        destruct Hcase as [?|[[? ?]|[? ?]]]; done. }
      rewrite Harr in Hcu |- *. destruct Hcu as [_ Hpool].
      destruct (takeOrClone_ok _ _ _ _ Hpool)
        as (h' & c' & arr' & node & -> & _). by eexists. }
    exists s'. split; [done|].
    pose proof (reachable_step h0 s (OpAddCursor cursorPos) Hreach) as Hstep.
    unfold step in Hstep. simpl in Hstep. by rewrite Hadd in Hstep.
Qed.

(** X3: in every reachable state the capacity is 32 and no pool (controller
    pool of any key, laser pool, cursor pool) holds more than 32 nodes. *)
Theorem pool_capacity (h0 : list Node) s arr :
  reachable h0 s -> is_pool s arr ->
  _maxInputElements s = 32 /\ length arr <= 32.
Proof.
  intros Hreach Hpool.
  assert (_maxInputElements s = 32) as Hmax.
  { destruct Hreach as [ops ->].
    by destruct (extends_run (constructor h0) ops) as (_ & _ & _ & ->). }
  split; [done|]. rewrite <- Hmax.
  by destruct (Bounded_reachable _ _ Hreach arr Hpool).
Qed.

(** X4: in every reachable state every node of every pool is an object of
    the store and a child of the manager. *)
Theorem pool_nodes_are_children (h0 : list Node) s arr r :
  reachable h0 s -> is_pool s arr -> r ∈ arr ->
  r ∈ children s /\ is_Some (heap s !! r).
Proof.
  intros Hreach Hpool Hr. split.
  - destruct (Bounded_reachable _ _ Hreach arr Hpool) as [_ Hch]. by apply Hch.
  - pose proof (Inv_reachable _ _ Hreach) as [_ Hc Hl Hcu _ _].
    destruct Hpool as [(key & c & Hreg & <-)|[Hlas|Hcur]].
    + unfold registered in Hreg. destruct (_controllers s) as [reg|]; [|done].
      destruct (Hc reg key c eq_refl Hreg) as [Hpool _].
      by eapply pool_ok_lookup.
    + rewrite Hlas in Hl. destruct Hl as [_ Hpool]. by eapply pool_ok_lookup.
    + rewrite Hcur in Hcu. destruct Hcu as [_ Hpool]. by eapply pool_ok_lookup.
Qed.

(** X5: over any run of operations from any state, every object of the
    store is kept with the mesh it had, the store does not shrink, the child
    list is only extended at its end, and the capacity is not changed. *)
Theorem run_extends s (ops : list Op) :
  let s' := run s ops in
  (forall r n, heap s !! r = Some n ->
     exists n', heap s' !! r = Some n' /\ mesh n' = mesh n)
  /\ length (heap s) <= length (heap s')
  /\ children s `prefix_of` children s'
  /\ _maxInputElements s' = _maxInputElements s.
Proof. apply extends_run. Qed.

(** ** Resets compose *)

Lemma reset_returns_union s options1 options2 :
  (reset s options1).2 = Normal tt ->
  (reset s options2).2 = Normal tt ->
  (reset s (Some (unionOptions (default DEFAULT_RESET_OPTIONS options1)
                               (default DEFAULT_RESET_OPTIONS options2)))).2
    = Normal tt.
Proof.
  rewrite !reset_returns. simpl. intros H1 H2 Ho reg Hreg.
  apply orb_true_iff in Ho as [Ho|Ho]; eauto.
Qed.

Lemma reset_reset s options1 options2 :
  (reset s options1).2 = Normal tt ->
  (reset s options2).2 = Normal tt ->
  reset (reset s options1).1 options2 =
    reset s (Some (unionOptions (default DEFAULT_RESET_OPTIONS options1)
                                (default DEFAULT_RESET_OPTIONS options2))).
Proof.
  intros Hret1 Hret2.
  pose proof (reset_returns_again s options1 options2 Hret1 Hret2) as Hret12.
  pose proof (reset_returns_union s options1 options2 Hret1 Hret2) as Hretu.
  apply injective_projections; [|congruence].
  rewrite (reset_eq (reset s options1).1) by done.
  rewrite !(reset_eq s) by done. cbv zeta.
  clear Hret1 Hret2 Hret12 Hretu.
  generalize (default DEFAULT_RESET_OPTIONS options1).
  generalize (default DEFAULT_RESET_OPTIONS options2).
  intros o2 o1. simpl. f_equal.
  - rewrite <- hideHeap_app. apply hideHeap_ext. intros r.
    unfold resetRefs; simpl. rewrite !elem_of_app.
    destruct o1 as [[|] [|] [|]], o2 as [[|] [|] [|]]; simpl;
      destruct (_controllers s) as [reg|]; simpl;
      rewrite ?registryNodes_resetController, ?elem_of_nil; tauto.
  - destruct (controllers o1), (controllers o2); simpl; try done.
    destruct (_controllers s); simpl; [|done]. by rewrite resetController_idemp.
  - destruct (lasers o1), (lasers o2); simpl; try done. by destruct (_lasers s).
  - destruct (cursors o1), (cursors o2); simpl; try done. by destruct (_cursors s).
Qed.

Lemma unionOptions_comm o1 o2 : unionOptions o1 o2 = unionOptions o2 o1.
Proof. by destruct o1 as [[|] [|] [|]], o2 as [[|] [|] [|]]. Qed.

(** X6: when each of two resets returns in a state, the two in a row, in
    either order, return and are one reset with the union of their
    selectors (a missing selector counts as "all"). *)
Theorem reset_compose s options1 options2 :
  (reset s options1).2 = Normal tt ->
  (reset s options2).2 = Normal tt ->
  reset (reset s options1).1 options2 =
    reset s (Some (unionOptions (default DEFAULT_RESET_OPTIONS options1)
                                (default DEFAULT_RESET_OPTIONS options2)))
  /\ reset (reset s options1).1 options2 = reset (reset s options2).1 options1
  /\ (reset (reset s options1).1 options2).2 = Normal tt.
Proof.
  intros Hret1 Hret2. split; [by apply reset_reset|]. split.
  - by rewrite !reset_reset, unionOptions_comm.
  - by apply reset_returns_again.
Qed.

(** ** The frame contract *)

Lemma frame_ok_weaken hp arr j (Q Q' : nat -> Node -> Prop) :
  (forall i n, i < j -> Q i n -> Q' i n) ->
  frame_ok hp arr j Q -> frame_ok hp arr j Q'.
Proof.
  intros HQ (Hnd & Hj & Hall). split; [done|]. split; [done|].
  intros i r Hr. destruct (Hall i r Hr) as (n & Hn & Hcase).
  exists n. split; [done|]. case_decide; [|done].
  destruct Hcase. split; [done|]. by apply HQ.
Qed.

Lemma frame_ok_take hp arr j (Q : nat -> Node -> Prop) f r :
  frame_ok hp arr j Q ->
  arr !! j = Some r ->
  (forall n, Q j (set_visible true (f n))) ->
  frame_ok (alter (set_visible true) r (alter f r hp)) arr (S j) Q.
Proof.
  intros (Hnd & Hj & Hall) Hr HQ.
  pose proof (lookup_lt_Some _ _ _ Hr) as Hlt.
  split; [done|]. split; [lia|].
  intros i r' Hr'. destruct (Hall i r' Hr') as (n & Hn & Hcase).
  destruct (decide (r' = r)) as [->|Hne].
  - assert (i = j) as -> by by eapply NoDup_lookup.
    exists (set_visible true (f n)). rewrite (lookup_shown _ _ _ n) by done.
    split; [done|]. rewrite decide_True by lia. by split.
  - exists n. rewrite !list_lookup_alter_ne by done. split; [done|].
    assert (i <> j) by (intros ->; congruence).
    destruct (decide (i < j)); [by rewrite decide_True by lia|].
    by rewrite decide_False by lia.
Qed.

Lemma frame_ok_grow hp arr j (Q : nat -> Node -> Prop) f n0 :
  frame_ok hp arr j Q ->
  length arr <= j ->
  Q j (set_visible true (f n0)) ->
  frame_ok (alter (set_visible true) (length hp) (alter f (length hp) (hp ++ [n0])))
    (arr ++ [length hp]) (S j) Q.
Proof.
  intros (Hnd & Hj & Hall) Hge HQ. assert (j = length arr) as -> by lia.
  assert (forall r, r ∈ arr -> r < length hp) as Hvalid.
  { intros r Hr. apply list_elem_of_lookup in Hr as [i Hi].
    destruct (Hall i r Hi) as (n & Hn & _). by eapply lookup_lt_Some. }
  split; [|split].
  - apply NoDup_app. split; [done|]. split; [|apply NoDup_singleton].
    intros r Hr Hin. apply list_elem_of_singleton in Hin as ->.
    specialize (Hvalid _ Hr). lia.
  - rewrite length_app. simpl. lia.
  - intros i r Hr. apply lookup_app_Some in Hr as [Hr|[Hi Hr]].
    + destruct (Hall i r Hr) as (n & Hn & Hcase).
      pose proof (lookup_lt_Some _ _ _ Hr) as Hlt.
      assert (r <> length hp).
      { intros ->. assert (length hp < length hp); [|lia].
        apply Hvalid. by eapply list_elem_of_lookup_2. }
      exists n. rewrite !list_lookup_alter_ne by done.
      split; [by apply lookup_app_l_Some|].
      rewrite decide_True in Hcase by done. by rewrite decide_True by lia.
    + apply list_lookup_singleton_Some in Hr as [Hi0 <-].
      assert (i = length arr) as -> by lia.
      exists (set_visible true (f n0)).
      rewrite (lookup_shown _ _ _ n0) by by apply list_lookup_middle.
      split; [done|]. rewrite decide_True by lia. by split.
Qed.

Lemma filter_length_prefix {A} (P : A -> Prop) `{!forall x, Decision (P x)}
    (l : list A) : forall j,
  j <= length l ->
  (forall i x, l !! i = Some x -> P x <-> i < j) ->
  length (filter P l) = j.
Proof.
  induction l as [|a l IH]; intros j Hj Hall; simpl in Hj.
  - by assert (j = 0) as -> by lia.
  - destruct j as [|j].
    + rewrite filter_cons_False by (intros Ha; apply (Hall 0 a) in Ha; [lia|done]).
      apply IH; [lia|]. intros i x Hx. split; [|lia].
      intros Hp. apply (Hall (S i) x) in Hp; [lia|done].
    + rewrite filter_cons_True by (apply (Hall 0 a); [done|lia]).
      simpl. f_equal. apply IH; [lia|]. intros i x Hx.
      rewrite (Hall (S i) x) by done. lia.
Qed.

Lemma frame_ok_count s arr j Q :
  frame_ok (heap s) arr j Q -> visibleCount s arr = j.
Proof.
  intros (Hnd & Hj & Hall). unfold visibleCount.
  apply filter_length_prefix; [done|].
  intros i r Hr. destruct (Hall i r Hr) as (n & -> & Hcase). simpl.
  case_decide.
  - destruct Hcase as [-> _]. done.
  - rewrite Hcase. split; [done|lia].
Qed.

Lemma addLaserPointer_shape s rigidTransform_matrix :
  Inv s -> _blurred s = false -> is_Some (_renderer s) ->
  exists s' h' node,
    addLaserPointer s rigidTransform_matrix = Normal s' /\ Inv s'
    /\ _blurred s' = false /\ _renderer s' = _renderer s
    /\ _maxInputElements s' = _maxInputElements s
    /\ _activeLasers s' = (_activeLasers s + 1) mod _maxInputElements s
    /\ heap s' = alter (set_visible true) node
                   (alter (set_matrix rigidTransform_matrix) node h')
    /\ ((lasersView s !! _activeLasers s = Some node /\ h' = heap s
         /\ lasersView s' = lasersView s)
        \/ (length (lasersView s) <= _activeLasers s
            /\ node = length (heap s)
            /\ (exists n0, h' = heap s ++ [n0])
            /\ lasersView s' = lasersView s ++ [node])).
Proof.
  intros HInv Hb [rd Hrd].
  assert (forall s', addLaserPointer s rigidTransform_matrix = Normal s' -> Inv s')
    as HInv'.
  { intros s' Hadd.
    pose proof (Inv_step s (OpAddLaserPointer rigidTransform_matrix) HInv) as H.
    unfold step in H. simpl in H. by rewrite Hadd in H. }
  pose proof HInv as [Hmax Hc Hl Hcu Hlu Hcuu].
  unfold lasersView. destruct (_lasers s) as [arr|] eqn:Hlas.
  - destruct Hl as [Hact Hpool].
    destruct (takeOrClone_ok s _ _ _ Hpool)
      as (h' & c' & arr' & node & Htake & Hidx & _ & _ & Hlt & Hge).
    assert (addLaserPointer s rigidTransform_matrix =
              Normal (store (set_visible true) node
                        (store (set_matrix rigidTransform_matrix) node
                           (advanceLasers
                              (with_lasers (Some arr')
                                 (with_children c' (with_heap h' s)))))))
      as Hadd.
    { unfold addLaserPointer, ensureLaserMesh. rewrite Hb, Hlas. cbv zeta.
      rewrite Hlas. destruct arr as [|r0 tl]; [|by rewrite Htake].
      destruct Hpool as [_ Hne _ _]. simpl in Hne. lia. }
    eexists _, h', node. split; [exact Hadd|]. split; [by apply HInv'|].
    simpl. split; [done|]. split; [done|]. split; [done|]. split; [done|].
    split; [done|].
    destruct (decide (_activeLasers s < length arr)) as [Hcase|Hcase].
    + left. destruct (Hlt Hcase) as (-> & -> & _). done.
    + assert (length arr <= _activeLasers s) as Hcase' by (clear - Hcase; lia).
      right. destruct (Hge Hcase') as (r0 & n0 & _ & _ & Hnode & Harr' & Hh' & _).
      split; [done|]. split; [done|]. split; [by eexists|done].
  - assert (_activeLasers s = 0) as Hact by (apply Hlu; [done|by eexists]).
    assert (addLaserPointer s rigidTransform_matrix =
              Normal (store (set_visible true) (length (heap s))
                        (store (set_matrix rigidTransform_matrix) (length (heap s))
                           (advanceLasers
                              (with_lasers (Some [length (heap s)])
                                 (addNode (length (heap s))
                                    (with_lasers (Some [length (heap s)])
                                       (with_heap (heap s ++ [_createLaserMesh]) s))))))))
      as Hadd.
    { unfold addLaserPointer, ensureLaserMesh, takeOrClone.
      rewrite Hb, Hlas, Hrd. simpl. by rewrite Hact. }
    eexists _, (heap s ++ [_createLaserMesh]), (length (heap s)).
    split; [exact Hadd|]. split; [by apply HInv'|].
    simpl. split; [done|]. split; [done|]. split; [done|]. split; [done|].
    split; [done|]. right. split; [apply Nat.le_0_l|]. split; [done|].
    split; [by eexists|done].
Qed.

Lemma carries_snoc matrices (m : Matrix) i n :
  i < length matrices -> carries matrices i n -> carries (matrices ++ [m]) i n.
Proof.
  intros Hi Hc m' Hm'. apply Hc. by rewrite lookup_app_l in Hm'.
Qed.

Lemma carries_last matrices (m : Matrix) n :
  carries (matrices ++ [m]) (length matrices) (set_visible true (set_matrix m n)).
Proof.
  intros m' Hm'. rewrite list_lookup_middle in Hm' by done. by injection Hm' as <-.
Qed.

Lemma laser_frame_step M matrices s rigidTransform_matrix :
  laser_frame M matrices s -> length matrices < M ->
  exists s',
    addLaserPointer s rigidTransform_matrix = Normal s'
    /\ laser_frame M (matrices ++ [rigidTransform_matrix]) s'.
Proof.
  intros (HInv & Hb & Hrd & Hmax & Hact & Hframe) Hlt.
  destruct (addLaserPointer_shape s rigidTransform_matrix HInv Hb Hrd)
    as (s' & h' & node & Hadd & HInv' & Hb' & Hrd' & Hmax' & Hact' & Hheap & Hcase).
  exists s'. split; [done|].
  rewrite Hact in Hcase, Hact' by done.
  split; [done|]. split; [done|]. split; [by rewrite Hrd'|].
  split; [congruence|]. rewrite length_app. simpl. split.
  - intros Hlt'. rewrite Hact', Hmax. apply Nat.mod_small. lia.
  - replace (length matrices + 1) with (S (length matrices)) by lia.
    apply (frame_ok_weaken _ _ _ _ (carries (matrices ++ [rigidTransform_matrix])))
      in Hframe; [|by intros i n Hi; apply carries_snoc].
    rewrite Hheap.
    destruct Hcase as [(Hnode & -> & ->)|(Hge & -> & [n0 ->] & ->)].
    + apply frame_ok_take; [done|done|]. intros n. apply carries_last.
    + apply frame_ok_grow; [done|done|]. apply carries_last.
Qed.

Lemma laser_frame_run M matrices : forall s,
  laser_frame M [] s -> length matrices <= M ->
  laser_frame M matrices (addLaserPointers s matrices).
Proof.
  unfold addLaserPointers.
  induction matrices as [|m matrices IH] using rev_ind; intros s Hstart Hlen;
    [done|].
  rewrite length_app in Hlen. simpl in Hlen.
  rewrite foldl_snoc.
  destruct (laser_frame_step M matrices _ m (IH s Hstart ltac:(lia)) ltac:(lia))
    as (s' & -> & Hframe).
  done.
Qed.

(** A show changes no object outside the pool it shows into. *)
Lemma outside_step (view view' : list ref) (hs h' hs' : list Node) node
    (f : Node -> Node) active :
  hs' = alter (set_visible true) node (alter f node h') ->
  ((view !! active = Some node /\ h' = hs /\ view' = view)
   \/ (length view <= active /\ node = length hs
       /\ (exists n0, h' = hs ++ [n0]) /\ view' = view ++ [node])) ->
  (forall r, r ∈ view -> r ∈ view')
  /\ forall r, r ∉ view' -> hs' !! r = hs !! r.
Proof.
  intros -> [(Hnode & -> & ->)|(_ & -> & [n0 ->] & ->)].
  - split; [done|]. intros r Hr.
    apply list_elem_of_lookup_2 in Hnode.
    rewrite !list_lookup_alter_ne; [done|by intros ->..].
  - split; [intros r Hr; apply elem_of_app; by left|].
    intros r Hr. apply not_elem_of_app in Hr as [_ Hr].
    apply not_elem_of_cons in Hr as [Hr _].
    rewrite !list_lookup_alter_ne by done.
    destruct (decide (r < length hs)) as [Hlt|Hge].
    + by apply lookup_app_l.
    + rewrite !lookup_ge_None_2; [done|lia|].
      rewrite length_app. simpl. lia.
Qed.

Lemma laser_frame_outside M matrices : forall s,
  laser_frame M [] s -> length matrices <= M ->
  (forall r, r ∈ lasersView s -> r ∈ lasersView (addLaserPointers s matrices))
  /\ forall r, r ∉ lasersView (addLaserPointers s matrices) ->
       heap (addLaserPointers s matrices) !! r = heap s !! r.
Proof.
  induction matrices as [|m matrices IH] using rev_ind; intros s Hstart Hlen;
    [done|].
  rewrite length_app in Hlen. simpl in Hlen.
  destruct (IH s Hstart ltac:(lia)) as [Hsub Hout].
  pose proof (laser_frame_run M matrices s Hstart ltac:(lia))
    as (HInv & Hb & Hrd & _).
  unfold addLaserPointers in *. rewrite foldl_snoc.
  set (sk := foldl _ s matrices) in *.
  destruct (addLaserPointer_shape sk m HInv Hb Hrd)
    as (s' & h' & node & -> & _ & _ & _ & _ & _ & Hheap & Hcase).
  destruct (outside_step _ _ _ _ _ _ _ _ Hheap Hcase) as [Hsub' Hout'].
  split; [auto|]. intros r Hr. rewrite Hout' by done. apply Hout. auto.
Qed.

Lemma laser_frame_start (h0 : list Node) s options :
  reachable h0 s -> (reset s options).2 = Normal tt ->
  _blurred s = false -> is_Some (_renderer s) ->
  lasers (default DEFAULT_RESET_OPTIONS options) = true ->
  laser_frame (_maxInputElements s) [] (reset s options).1.
Proof.
  intros Hreach Hret Hb Hrd Ho.
  pose proof (Inv_reachable _ _ Hreach) as HInv.
  pose proof (Inv_reset s options HInv) as HInv1.
  pose proof HInv as [Hmax Hc Hl Hcu Hlu Hcuu].
  assert (_blurred (reset s options).1 = _blurred s
          /\ _renderer (reset s options).1 = _renderer s
          /\ _maxInputElements (reset s options).1 = _maxInputElements s
          /\ _lasers (reset s options).1 = _lasers s
          /\ _activeLasers (reset s options).1
               = match _lasers s with Some _ => 0 | None => _activeLasers s end)
    as (Hb1 & Hrd1 & Hmax1 & Hlas1 & Hact1).
  { rewrite reset_eq by done. simpl. by rewrite Ho. }
  split; [done|]. split; [congruence|]. split; [by rewrite Hrd1|].
  split; [done|]. split.
  - intros _. rewrite Hact1. destruct (_lasers s) eqn:Hlas; [done|]. by apply Hlu.
  - unfold lasersView. rewrite Hlas1.
    destruct (_lasers s) as [arr|] eqn:Hlas; simpl.
    + destruct Hl as [_ Hpool]. split; [by destruct Hpool|]. split; [lia|].
      intros i r Hr. apply list_elem_of_lookup_2 in Hr.
      destruct (pool_ok_lookup _ _ _ _ r Hpool Hr) as [n Hn].
      exists (set_visible false n). split; [|done].
      apply reset_hidden; [done| |done]. by eapply lasers_resetRefs.
    + split; [apply NoDup_nil_2|]. by split.
Qed.

(** X7: in a reachable state with the backend attached and the manager not
    blurred, a reset that returns and selects the lasers, followed by one
    [addLaserPointer] per transform of a list no longer than the capacity,
    leaves exactly as many nodes of the laser pool visible as there are
    transforms, and the laser at index [i] of the pool is visible and
    carries transform [i].  Every object outside the laser pool is as the
    reset left it; a laser of a pool that an earlier backend change
    discarded is such an object, and the count does not include it. *)
Theorem laser_frame_contract (h0 : list Node) s options (matrices : list Matrix) :
  reachable h0 s -> (reset s options).2 = Normal tt ->
  _blurred s = false -> is_Some (_renderer s) ->
  lasers (default DEFAULT_RESET_OPTIONS options) = true ->
  length matrices <= _maxInputElements s ->
  let s' := addLaserPointers (reset s options).1 matrices in
  lasersVisible s' = length matrices
  /\ (forall i m, matrices !! i = Some m ->
       exists r n, lasersView s' !! i = Some r /\ heap s' !! r = Some n
         /\ visible n = true /\ matrix n = Some m)
  /\ forall r, r ∉ lasersView s' ->
       heap s' !! r = heap (reset s options).1 !! r.
Proof.
  intros Hreach Hret Hb Hrd Ho Hlen s'.
  pose proof (laser_frame_start h0 s options Hreach Hret Hb Hrd Ho) as Hstart.
  destruct (laser_frame_run _ matrices _ Hstart Hlen)
    as (_ & _ & _ & _ & _ & Hframe).
  fold s' in Hframe. split; [by eapply frame_ok_count|].
  split; [|by apply (laser_frame_outside _ matrices _ Hstart Hlen)].
  intros i m Hm. destruct Hframe as (_ & Hj & Hall).
  pose proof (lookup_lt_Some _ _ _ Hm) as Hi.
  destruct (lookup_lt_is_Some_2 (lasersView s') i) as [r Hr]; [lia|].
  destruct (Hall i r Hr) as (n & Hn & Hcase).
  rewrite decide_True in Hcase by done. destruct Hcase as [Hvis Hcar].
  exists r, n. split; [done|]. split; [done|]. split; [done|]. by apply Hcar.
Qed.

Lemma addController_shape s gripMatrix h p c :
  Inv s -> _blurred s = false ->
  registered s (controllerKey h p) = Some c ->
  exists s' h' node c',
    addController s gripMatrix h p = Normal s' /\ Inv s'
    /\ _blurred s' = false
    /\ _maxInputElements s' = _maxInputElements s
    /\ registered s' (controllerKey h p) = Some c'
    /\ activeCount c' = (activeCount c + 1) mod _maxInputElements s
    /\ heap s' = alter (set_visible true) node (alter (set_matrix gripMatrix) node h')
    /\ ((nodes c !! activeCount c = Some node /\ h' = heap s
         /\ nodes c' = nodes c)
        \/ (length (nodes c) <= activeCount c
            /\ node = length (heap s)
            /\ (exists n0, h' = heap s ++ [n0])
            /\ nodes c' = nodes c ++ [node])).
Proof.
  intros HInv Hb Hreg.
  assert (forall s', addController s gripMatrix h p = Normal s' -> Inv s') as HInv'.
  { intros s' Hadd.
    pose proof (Inv_step s (OpAddController gripMatrix h p) HInv) as H.
    unfold step in H. simpl in H. by rewrite Hadd in H. }
  pose proof HInv as [Hmax Hc Hl Hcu Hlu Hcuu].
  unfold registered in Hreg.
  destruct (_controllers s) as [reg|] eqn:Hregs; [|done].
  destruct (Hc reg _ c eq_refl Hreg) as [Hpool Hact].
  destruct (takeOrClone_ok s _ _ _ Hpool)
    as (h' & c' & arr' & node & Htake & Hidx & _ & _ & Hlt & Hge).
  assert (exists s', addController s gripMatrix h p = Normal s'
            /\ s' = store (set_visible true) node
                      (store (set_matrix gripMatrix) node
                         (with_controllers
                            (Some (<[controllerKey h p :=
                                       {| nodes := arr';
                                          activeCount :=
                                            (activeCount c + 1) mod _maxInputElements s;
                                          ctl_visible := ctl_visible c |}]> reg))
                            (with_children c' (with_heap h' s)))))
    as (s' & Hadd & Hs').
  { eexists. split; [|done]. unfold addController.
    by rewrite Hregs, Hb, Hreg, Htake. }
  exists s', h', node,
    {| nodes := arr';
       activeCount := (activeCount c + 1) mod _maxInputElements s;
       ctl_visible := ctl_visible c |}.
  split; [done|]. split; [by apply HInv'|]. subst s'. unfold registered. simpl.
  split; [done|]. split; [done|]. split; [by rewrite lookup_insert_eq|].
  split; [done|]. split; [done|].
  destruct (decide (activeCount c < length (nodes c))) as [Hcase|Hcase].
  - left. destruct (Hlt Hcase) as (-> & -> & _). done.
  - assert (length (nodes c) <= activeCount c) as Hcase' by (clear - Hcase; lia).
    right. destruct (Hge Hcase') as (r0 & n0 & _ & _ & Hnode & Harr' & Hh' & _).
    split; [done|]. split; [done|]. split; [by eexists|done].
Qed.

Lemma controller_frame_step M h p matrices s gripMatrix :
  controller_frame M (controllerKey h p) matrices s -> length matrices < M ->
  exists s',
    addController s gripMatrix h p = Normal s'
    /\ controller_frame M (controllerKey h p) (matrices ++ [gripMatrix]) s'.
Proof.
  intros (HInv & Hb & Hmax & c & Hreg & Hact & Hframe) Hlt.
  destruct (addController_shape s gripMatrix h p c HInv Hb Hreg)
    as (s' & h' & node & c' & Hadd & HInv' & Hb' & Hmax' & Hreg' & Hact' & Hheap
        & Hcase).
  exists s'. split; [done|].
  rewrite Hact in Hcase, Hact' by done.
  split; [done|]. split; [done|]. split; [congruence|].
  exists c'. split; [done|]. rewrite length_app. simpl. split.
  - intros Hlt'. rewrite Hact', Hmax. apply Nat.mod_small. lia.
  - replace (length matrices + 1) with (S (length matrices)) by lia.
    apply (frame_ok_weaken _ _ _ _ (carries (matrices ++ [gripMatrix])))
      in Hframe; [|by intros i n Hi; apply carries_snoc].
    rewrite Hheap.
    destruct Hcase as [(Hnode & -> & ->)|(Hge & -> & [n0 ->] & ->)].
    + apply frame_ok_take; [done|done|]. intros n. apply carries_last.
    + apply frame_ok_grow; [done|done|]. apply carries_last.
Qed.

Lemma controller_frame_run M h p matrices : forall s,
  controller_frame M (controllerKey h p) [] s -> length matrices <= M ->
  controller_frame M (controllerKey h p) matrices (addControllers s matrices h p).
Proof.
  unfold addControllers.
  induction matrices as [|m matrices IH] using rev_ind; intros s Hstart Hlen;
    [done|].
  rewrite length_app in Hlen. simpl in Hlen.
  rewrite foldl_snoc.
  destruct (controller_frame_step M h p matrices _ m
              (IH s Hstart ltac:(lia)) ltac:(lia)) as (s' & -> & Hframe).
  done.
Qed.

Lemma controller_frame_start (h0 : list Node) s options key c :
  reachable h0 s -> (reset s options).2 = Normal tt ->
  _blurred s = false ->
  controllers (default DEFAULT_RESET_OPTIONS options) = true ->
  registered s key = Some c ->
  controller_frame (_maxInputElements s) key [] (reset s options).1.
Proof.
  intros Hreach Hret Hb Ho Hreg.
  pose proof (Inv_reachable _ _ Hreach) as HInv.
  pose proof (Inv_reset s options HInv) as HInv1.
  pose proof HInv as [Hmax Hc Hl Hcu Hlu Hcuu].
  assert (_blurred (reset s options).1 = _blurred s
          /\ _maxInputElements (reset s options).1 = _maxInputElements s
          /\ registered (reset s options).1 key = Some (resetController c))
    as (Hb1 & Hmax1 & Hreg1).
  { rewrite reset_eq by done. unfold registered in *. simpl. rewrite Ho.
    destruct (_controllers s) as [reg|]; [|done]. simpl.
    by rewrite lookup_fmap, Hreg. }
  split; [done|]. split; [congruence|]. split; [done|].
  exists (resetController c). split; [done|]. split; [done|]. simpl.
  unfold registered in Hreg.
  destruct (_controllers s) as [reg|] eqn:Hregs; [|done].
  destruct (Hc reg key c eq_refl Hreg) as [Hpool _].
  split; [by destruct Hpool|]. split; [lia|].
  intros i r Hr. apply list_elem_of_lookup_2 in Hr.
  destruct (pool_ok_lookup _ _ _ _ r Hpool Hr) as [n Hn].
  exists (set_visible false n). split; [|done].
  apply reset_hidden; [done| |done].
  eapply registered_resetRefs; [done| |done]. unfold registered.
  by rewrite Hregs.
Qed.

(** X8: in a reachable state of a manager that is not blurred, a reset that
    returns and selects the controllers, followed by one [addController] per
    transform of a list no longer than the capacity, all for one registered
    key, leaves exactly as many nodes of that key's pool visible as there
    are transforms, and the node at index [i] of the pool is visible and
    carries transform [i]. *)
Theorem controller_frame_contract (h0 : list Node) s options
    (matrices : list Matrix) hh p c :
  reachable h0 s -> (reset s options).2 = Normal tt ->
  _blurred s = false ->
  controllers (default DEFAULT_RESET_OPTIONS options) = true ->
  registered s (controllerKey hh p) = Some c ->
  length matrices <= _maxInputElements s ->
  let s' := addControllers (reset s options).1 matrices hh p in
  exists c',
    registered s' (controllerKey hh p) = Some c'
    /\ visibleCount s' (nodes c') = length matrices
    /\ forall i m, matrices !! i = Some m ->
         exists r n, nodes c' !! i = Some r /\ heap s' !! r = Some n
           /\ visible n = true /\ matrix n = Some m.
Proof.
  intros Hreach Hret Hb Ho Hreg Hlen s'.
  pose proof (controller_frame_start h0 s options _ c Hreach Hret Hb Ho Hreg) as Hstart.
  destruct (controller_frame_run _ hh p matrices _ Hstart Hlen)
    as (_ & _ & _ & c' & Hreg' & _ & Hframe).
  fold s' in Hframe, Hreg'. exists c'. split; [done|].
  split; [by eapply frame_ok_count|].
  intros i m Hm. destruct Hframe as (_ & Hj & Hall).
  pose proof (lookup_lt_Some _ _ _ Hm) as Hi.
  destruct (lookup_lt_is_Some_2 (nodes c') i) as [r Hr]; [lia|].
  destruct (Hall i r Hr) as (n & Hn & Hcase).
  rewrite decide_True in Hcase by done. destruct Hcase as [Hvis Hcar].
  exists r, n. split; [done|]. split; [done|]. split; [done|]. by apply Hcar.
Qed.

Lemma addCursor_shape s cursorPos :
  Inv s -> _blurred s = false -> is_Some (_renderer s) ->
  exists s' h' node,
    addCursor s cursorPos = Normal s' /\ Inv s'
    /\ _blurred s' = false /\ _renderer s' = _renderer s
    /\ _maxInputElements s' = _maxInputElements s
    /\ _activeCursors s' = (_activeCursors s + 1) mod _maxInputElements s
    /\ heap s' = alter (set_visible true) node
                   (alter (set_translation cursorPos) node h')
    /\ ((cursorsView s !! _activeCursors s = Some node /\ h' = heap s
         /\ cursorsView s' = cursorsView s)
        \/ (length (cursorsView s) <= _activeCursors s
            /\ node = length (heap s)
            /\ (exists n0, h' = heap s ++ [n0])
            /\ cursorsView s' = cursorsView s ++ [node])).
Proof.
  intros HInv Hb [rd Hrd].
  assert (forall s', addCursor s cursorPos = Normal s' -> Inv s') as HInv'.
  { intros s' Hadd. by eapply Inv_addCursor. }
  pose proof HInv as [Hmax Hc Hl Hcu Hlu Hcuu].
  unfold cursorsView. destruct (_cursors s) as [arr|] eqn:Hcur.
  - destruct Hcu as [Hact Hpool].
    destruct (takeOrClone_ok s _ _ _ Hpool)
      as (h' & c' & arr' & node & Htake & Hidx & _ & _ & Hlt & Hge).
    assert (addCursor s cursorPos =
              Normal (store (set_visible true) node
                        (store (set_translation cursorPos) node
                           (with_activeCursors
                              ((_activeCursors s + 1) mod _maxInputElements s)
                              (with_cursors (Some arr')
                                 (with_children c' (with_heap h' s)))))))
      as Hadd.
    { unfold addCursor, ensureCursorMesh. rewrite Hb, Hcur. cbv zeta.
      by rewrite Hcur, Htake. }
    eexists _, h', node. split; [exact Hadd|]. split; [by apply HInv'|].
    simpl. split; [done|]. split; [done|]. split; [done|]. split; [done|].
    split; [done|].
    destruct (decide (_activeCursors s < length arr)) as [Hcase|Hcase].
    + left. destruct (Hlt Hcase) as (-> & -> & _). done.
    + assert (length arr <= _activeCursors s) as Hcase' by (clear - Hcase; lia).
      right. destruct (Hge Hcase') as (r0 & n0 & _ & _ & Hnode & Harr' & Hh' & _).
      split; [done|]. split; [done|]. split; [by eexists|done].
  - assert (_activeCursors s = 0) as Hact by by apply Hcuu.
    assert (addCursor s cursorPos =
              Normal (store (set_visible true) (length (heap s))
                        (store (set_translation cursorPos) (length (heap s))
                           (with_activeCursors (1 mod _maxInputElements s)
                              (with_cursors (Some [length (heap s)])
                                 (addNode (length (heap s))
                                    (with_cursors (Some [length (heap s)])
                                       (with_heap (heap s ++ [_createCursorMesh]) s))))))))
      as Hadd.
    { unfold addCursor, ensureCursorMesh, takeOrClone.
      rewrite Hb, Hcur, Hrd. simpl. rewrite Hact. simpl. by rewrite Hact. }
    eexists _, (heap s ++ [_createCursorMesh]), (length (heap s)).
    split; [exact Hadd|]. split; [by apply HInv'|].
    simpl. split; [done|]. split; [done|]. split; [done|].
    split; [by rewrite Hact|].
    split; [done|]. right. split; [apply Nat.le_0_l|]. split; [done|].
    split; [by eexists|done].
Qed.

Lemma placed_snoc positions (v : Vec3) i n :
  i < length positions -> placed positions i n -> placed (positions ++ [v]) i n.
Proof.
  intros Hi Hc v' Hv'. apply Hc. by rewrite lookup_app_l in Hv'.
Qed.

Lemma placed_last positions (v : Vec3) n :
  placed (positions ++ [v]) (length positions)
    (set_visible true (set_translation v n)).
Proof.
  intros v' Hv'. rewrite list_lookup_middle in Hv' by done. by injection Hv' as <-.
Qed.

Lemma cursor_frame_step M positions s cursorPos :
  cursor_frame M positions s -> length positions < M ->
  exists s',
    addCursor s cursorPos = Normal s'
    /\ cursor_frame M (positions ++ [cursorPos]) s'.
Proof.
  intros (HInv & Hb & Hrd & Hmax & Hact & Hframe) Hlt.
  destruct (addCursor_shape s cursorPos HInv Hb Hrd)
    as (s' & h' & node & Hadd & HInv' & Hb' & Hrd' & Hmax' & Hact' & Hheap & Hcase).
  exists s'. split; [done|].
  rewrite Hact in Hcase, Hact' by done.
  split; [done|]. split; [done|]. split; [by rewrite Hrd'|].
  split; [congruence|]. rewrite length_app. simpl. split.
  - intros Hlt'. rewrite Hact', Hmax. apply Nat.mod_small. lia.
  - replace (length positions + 1) with (S (length positions)) by lia.
    apply (frame_ok_weaken _ _ _ _ (placed (positions ++ [cursorPos])))
      in Hframe; [|by intros i n Hi; apply placed_snoc].
    rewrite Hheap.
    destruct Hcase as [(Hnode & -> & ->)|(Hge & -> & [n0 ->] & ->)].
    + apply frame_ok_take; [done|done|]. intros n. apply placed_last.
    + apply frame_ok_grow; [done|done|]. apply placed_last.
Qed.

Lemma cursor_frame_run M positions : forall s,
  cursor_frame M [] s -> length positions <= M ->
  cursor_frame M positions (addCursors s positions).
Proof.
  unfold addCursors.
  induction positions as [|v positions IH] using rev_ind; intros s Hstart Hlen;
    [done|].
  rewrite length_app in Hlen. simpl in Hlen.
  rewrite foldl_snoc.
  destruct (cursor_frame_step M positions _ v (IH s Hstart ltac:(lia)) ltac:(lia))
    as (s' & -> & Hframe).
  done.
Qed.

Lemma cursor_frame_outside M positions : forall s,
  cursor_frame M [] s -> length positions <= M ->
  (forall r, r ∈ cursorsView s -> r ∈ cursorsView (addCursors s positions))
  /\ forall r, r ∉ cursorsView (addCursors s positions) ->
       heap (addCursors s positions) !! r = heap s !! r.
Proof.
  induction positions as [|v positions IH] using rev_ind; intros s Hstart Hlen;
    [done|].
  rewrite length_app in Hlen. simpl in Hlen.
  destruct (IH s Hstart ltac:(lia)) as [Hsub Hout].
  pose proof (cursor_frame_run M positions s Hstart ltac:(lia))
    as (HInv & Hb & Hrd & _).
  unfold addCursors in *. rewrite foldl_snoc.
  set (sk := foldl _ s positions) in *.
  destruct (addCursor_shape sk v HInv Hb Hrd)
    as (s' & h' & node & -> & _ & _ & _ & _ & _ & Hheap & Hcase).
  destruct (outside_step _ _ _ _ _ _ _ _ Hheap Hcase) as [Hsub' Hout'].
  split; [auto|]. intros r Hr. rewrite Hout' by done. apply Hout. auto.
Qed.

Lemma cursor_frame_start (h0 : list Node) s options :
  reachable h0 s -> (reset s options).2 = Normal tt ->
  _blurred s = false -> is_Some (_renderer s) ->
  cursors (default DEFAULT_RESET_OPTIONS options) = true ->
  cursor_frame (_maxInputElements s) [] (reset s options).1.
Proof.
  intros Hreach Hret Hb Hrd Ho.
  pose proof (Inv_reachable _ _ Hreach) as HInv.
  pose proof (Inv_reset s options HInv) as HInv1.
  pose proof HInv as [Hmax Hc Hl Hcu Hlu Hcuu].
  assert (_blurred (reset s options).1 = _blurred s
          /\ _renderer (reset s options).1 = _renderer s
          /\ _maxInputElements (reset s options).1 = _maxInputElements s
          /\ _cursors (reset s options).1 = _cursors s
          /\ _activeCursors (reset s options).1
               = match _cursors s with Some _ => 0 | None => _activeCursors s end)
    as (Hb1 & Hrd1 & Hmax1 & Hcur1 & Hact1).
  { rewrite reset_eq by done. simpl. by rewrite Ho. }
  split; [done|]. split; [congruence|]. split; [by rewrite Hrd1|].
  split; [done|]. split.
  - intros _. rewrite Hact1. destruct (_cursors s) eqn:Hcur; [done|]. by apply Hcuu.
  - unfold cursorsView. rewrite Hcur1.
    destruct (_cursors s) as [arr|] eqn:Hcur; simpl.
    + destruct Hcu as [_ Hpool]. split; [by destruct Hpool|]. split; [lia|].
      intros i r Hr. apply list_elem_of_lookup_2 in Hr.
      destruct (pool_ok_lookup _ _ _ _ r Hpool Hr) as [n Hn].
      exists (set_visible false n). split; [|done].
      apply reset_hidden; [done| |done]. by eapply cursors_resetRefs.
    + split; [apply NoDup_nil_2|]. by split.
Qed.

(** X9: in a reachable state with the backend attached and the manager not
    blurred, a reset that returns and selects the cursors, followed by one
    [addCursor] per position of a list no longer than the capacity, leaves
    exactly as many nodes of the cursor pool visible as there are positions,
    and the cursor at index [i] of the pool is visible and placed at
    position [i].  Every object outside the cursor pool is as the reset left
    it; a cursor of a pool that an earlier backend change discarded is such
    an object, and the count does not include it. *)
Theorem cursor_frame_contract (h0 : list Node) s options (positions : list Vec3) :
  reachable h0 s -> (reset s options).2 = Normal tt ->
  _blurred s = false -> is_Some (_renderer s) ->
  cursors (default DEFAULT_RESET_OPTIONS options) = true ->
  length positions <= _maxInputElements s ->
  let s' := addCursors (reset s options).1 positions in
  visibleCount s' (cursorsView s') = length positions
  /\ (forall i v, positions !! i = Some v ->
       exists r n, cursorsView s' !! i = Some r /\ heap s' !! r = Some n
         /\ visible n = true /\ translation n = Some v)
  /\ forall r, r ∉ cursorsView s' ->
       heap s' !! r = heap (reset s options).1 !! r.
Proof.
  intros Hreach Hret Hb Hrd Ho Hlen s'.
  pose proof (cursor_frame_start h0 s options Hreach Hret Hb Hrd Ho) as Hstart.
  destruct (cursor_frame_run _ positions _ Hstart Hlen)
    as (_ & _ & _ & _ & _ & Hframe).
  fold s' in Hframe. split; [by eapply frame_ok_count|].
  split; [|by apply (cursor_frame_outside _ positions _ Hstart Hlen)].
  intros i v Hv. destruct Hframe as (_ & Hj & Hall).
  pose proof (lookup_lt_Some _ _ _ Hv) as Hi.
  destruct (lookup_lt_is_Some_2 (cursorsView s') i) as [r Hr]; [lia|].
  destruct (Hall i r Hr) as (n & Hn & Hcase).
  rewrite decide_True in Hcase by done. destruct Hcase as [Hvis Hcar].
  exists r, n. split; [done|]. split; [done|]. split; [done|]. by apply Hcar.
Qed.

(** ** What a show leaves alone *)

Lemma takeOrClone_cases s arr active s' arr' node :
  takeOrClone s arr active = Normal (s', arr', node) ->
  (s' = s /\ arr' = arr /\ arr !! active = Some node)
  \/ (exists n0,
        s' = addNode (length (heap s)) (with_heap (heap s ++ [n0]) s)
        /\ node = length (heap s) /\ arr' = arr ++ [node]).
Proof.
  unfold takeOrClone. intros Htake.
  destruct (arr !! active) as [r|].
  - left. by injection Htake as <- <- <-.
  - destruct (arr !! 0); [|done]. destruct (heap s !! _) as [n0|]; [|done].
    right. exists (clone n0). by injection Htake as <- <- <-.
Qed.

Lemma lookup_shown_other (hp hx : list Node) node (f : Node -> Node) r :
  r <> node -> r < length hp ->
  alter (set_visible true) node (alter f node (hp ++ hx)) !! r = hp !! r.
Proof.
  intros Hne Hlt. rewrite !list_lookup_alter_ne by done. by apply lookup_app_l.
Qed.

(** X10: a call of [addController] that returns changes at most the pool of
    its own key and the one node it selects: the pools registered under all
    other keys, the laser pool, the cursor pool, their counters, the blurred
    flag and the backend are as before, and so is every object of the store
    other than the selected node. *)
Theorem addController_frame s gripMatrix h p s' :
  addController s gripMatrix h p = Normal s' ->
  (forall key, key <> controllerKey h p -> registered s' key = registered s key)
  /\ _lasers s' = _lasers s /\ _cursors s' = _cursors s
  /\ _activeLasers s' = _activeLasers s /\ _activeCursors s' = _activeCursors s
  /\ _blurred s' = _blurred s /\ _renderer s' = _renderer s
  /\ forall r, addController_node s h p <> Some r -> heap s' !! r = heap s !! r.
Proof.
  unfold addController, addController_node, registered.
  destruct (_controllers s) as [reg|] eqn:Hregs;
    [|intros [= <-]; by rewrite Hregs].
  destruct (_blurred s) eqn:Hb; [intros [= <-]; by rewrite Hregs|].
  destruct (reg !! controllerKey h p) as [c|] eqn:Hc;
    [|case_decide; [done|intros [= <-]; by rewrite Hregs]].
  destruct (takeOrClone s (nodes c) (activeCount c))
    as [[[s1 arr1] node]|e] eqn:Htake; [|done].
  intros [= <-]. simpl.
  apply takeOrClone_cases in Htake
    as [(-> & -> & Hnode)|(n0 & -> & -> & ->)]; simpl.
  - split; [by intros key Hkey; rewrite lookup_insert_ne|].
    repeat split; try done.
    intros r Hr. rewrite !list_lookup_alter_ne; [done|congruence..].
  - split; [by intros key Hkey; rewrite lookup_insert_ne|].
    repeat split; try done.
    intros r Hr. assert (r <> length (heap s)) as Hne by congruence.
    rewrite !list_lookup_alter_ne by done.
    destruct (decide (r < length (heap s))) as [Hlt|Hge].
    + by apply lookup_app_l.
    + rewrite !lookup_ge_None_2; [done|lia|].
      rewrite length_app. simpl. lia.
Qed.

(** X11: a call of [addLaserPointer] that returns leaves the controller
    registry, the cursor pool and its counter alone and changes at most one
    of the objects the store already held; likewise [addCursor] leaves the
    registry, the laser pool and its counter alone and changes at most one
    existing object. *)
Theorem addLaserPointer_addCursor_frame s (rigidTransform_matrix : Matrix)
    (cursorPos : Vec3) :
  (forall s', addLaserPointer s rigidTransform_matrix = Normal s' ->
     _controllers s' = _controllers s /\ _cursors s' = _cursors s
     /\ _activeCursors s' = _activeCursors s
     /\ exists node, forall r, r < length (heap s) -> r <> node ->
          heap s' !! r = heap s !! r)
  /\ (forall s', addCursor s cursorPos = Normal s' ->
        _controllers s' = _controllers s /\ _lasers s' = _lasers s
        /\ _activeLasers s' = _activeLasers s
        /\ exists node, forall r, r < length (heap s) -> r <> node ->
             heap s' !! r = heap s !! r).
Proof.
  split; intros s'.
  - unfold addLaserPointer.
    destruct (_blurred s); [intros [= <-]; by repeat split; exists 0|].
    cbv zeta. set (s1 := ensureLaserMesh s).
    assert (_controllers s1 = _controllers s /\ _cursors s1 = _cursors s
            /\ _activeCursors s1 = _activeCursors s
            /\ exists hx, heap s1 = heap s ++ hx) as (Hc1 & Hcu1 & Ha1 & hx0 & Hh1).
    { subst s1. unfold ensureLaserMesh. destruct (_lasers s).
      - repeat split. exists []. by rewrite app_nil_r.
      - destruct (_renderer s); simpl.
        + repeat split. by eexists.
        + repeat split. exists []. by rewrite app_nil_r. }
    assert (forall t, t = advanceLasers s1 ->
              _controllers t = _controllers s /\ _cursors t = _cursors s
              /\ _activeCursors t = _activeCursors s
              /\ exists node : nat, forall r, r < length (heap s) -> r <> node ->
                   heap t !! r = heap s !! r) as Hadv.
    { intros t ->. simpl. repeat split; try done. exists 0. intros r Hlt _.
      rewrite Hh1. by apply lookup_app_l. }
    destruct (_lasers s1) as [[|r0 tl]|];
      [intros [= <-]; by apply Hadv| |intros [= <-]; by apply Hadv].
    destruct (takeOrClone s1 (r0 :: tl) (_activeLasers s1))
      as [[[s2 arr2] node]|e] eqn:Htake; [|done].
    apply takeOrClone_grows in Htake as (hx & cx & ->). intros [= <-]. simpl.
    repeat split; try done. exists node. intros r Hlt Hne.
    rewrite Hh1, <- app_assoc. by apply lookup_shown_other.
  - unfold addCursor.
    destruct (_blurred s); [intros [= <-]; by repeat split; exists 0|].
    cbv zeta. set (s1 := ensureCursorMesh s).
    assert (_controllers s1 = _controllers s /\ _lasers s1 = _lasers s
            /\ _activeLasers s1 = _activeLasers s
            /\ exists hx, heap s1 = heap s ++ hx) as (Hc1 & Hl1 & Ha1 & hx0 & Hh1).
    { subst s1. unfold ensureCursorMesh. destruct (_cursors s).
      - repeat split. exists []. by rewrite app_nil_r.
      - destruct (_renderer s); simpl.
        + repeat split. by eexists.
        + repeat split. exists []. by rewrite app_nil_r. }
    destruct (_cursors s1) as [arr|]; [|done].
    destruct (takeOrClone s1 arr (_activeCursors s1))
      as [[[s2 arr2] node]|e] eqn:Htake; [|done].
    apply takeOrClone_grows in Htake as (hx & cx & ->). intros [= <-]. simpl.
    repeat split; try done. exists node. intros r Hlt Hne.
    rewrite Hh1, <- app_assoc. by apply lookup_shown_other.
Qed.

(** ** Registry keys *)

Lemma append_nil_l (s : string) : "" +:+ s = s.
Proof. done. Qed.

Lemma append_cons_l c (a b : string) : String c a +:+ b = String c (a +:+ b).
Proof. done. Qed.

Lemma has_underscore_app a b : has_underscore (a +:+ String separator b) = true.
Proof.
  induction a as [|c a IH]; [done|].
  rewrite append_cons_l. simpl. by destruct (Ascii.eqb c separator).
Qed.

Lemma key_split p1 : forall p2 h1 h2,
  has_underscore h1 = false -> has_underscore h2 = false ->
  p1 +:+ String separator h1 = p2 +:+ String separator h2 ->
  p1 = p2 /\ h1 = h2.
Proof.
  induction p1 as [|c p1 IH]; intros [|c' p2] h1 h2 H1 H2 Heq;
    rewrite ?append_nil_l, ?append_cons_l in Heq.
  - by injection Heq as <-.
  - injection Heq as <- ->. by rewrite has_underscore_app in H1.
  - injection Heq as -> <-. by rewrite has_underscore_app in H2.
  - injection Heq as <- Heq. destruct (IH p2 h1 h2 H1 H2 Heq) as [<- <-]. done.
Qed.

Lemma string_append_assoc (a b c : string) : (a +:+ b) +:+ c = a +:+ (b +:+ c).
Proof.
  induction a as [|x a IH]; [done|]. by rewrite !append_cons_l, IH.
Qed.

(** X12: for handedness values without ["_"] (as ["left"], ["right"] and
    ["none"] are), the registry key determines the pair of profile and
    handedness, defaults applied; so registering a mesh for one pair leaves
    the pool of every other pair as it was. *)
Theorem controllerKey_injective h1 p1 h2 p2 :
  has_underscore (default "right" h1) = false ->
  has_underscore (default "right" h2) = false ->
  (controllerKey h1 p1 = controllerKey h2 p2 ->
     default "right" h1 = default "right" h2 /\ default "" p1 = default "" p2)
  /\ forall s node,
       (default "right" h1, default "" p1) <> (default "right" h2, default "" p2) ->
       registered (setControllerMesh s node h1 p1) (controllerKey h2 p2)
         = registered s (controllerKey h2 p2).
Proof.
  intros H1 H2.
  assert (controllerKey h1 p1 = controllerKey h2 p2 ->
          default "right" h1 = default "right" h2 /\ default "" p1 = default "" p2)
    as Hinj.
  { unfold controllerKey. intros Heq.
    change (?a +:+ "_" +:+ ?b) with (a +:+ String separator b) in Heq.
    by destruct (key_split _ _ _ _ H1 H2 Heq) as [-> ->]. }
  split; [done|]. intros s node Hne.
  rewrite registered_setControllerMesh. rewrite decide_False; [done|].
  intros Heq. destruct (Hinj Heq) as [Hh Hp]. apply Hne. by rewrite Hh, Hp.
Qed.

(** X13: two different pairs share a registry key when the separator occurs
    inside the handedness: the pool registered for profile [p] and
    handedness [x_y] is the pool found for profile [p_x] and handedness [y]. *)
Theorem controllerKey_collision (x y p : string) s node :
  controllerKey (Some (x +:+ "_" +:+ y)) (Some p)
    = controllerKey (Some y) (Some (p +:+ "_" +:+ x))
  /\ registered (setControllerMesh s node (Some (x +:+ "_" +:+ y)) (Some p))
       (controllerKey (Some y) (Some (p +:+ "_" +:+ x)))
     = Some {| nodes := [node]; activeCount := 0; ctl_visible := None |}.
Proof.
  assert (controllerKey (Some (x +:+ "_" +:+ y)) (Some p)
          = controllerKey (Some y) (Some (p +:+ "_" +:+ x))) as Hkey.
  { unfold controllerKey. simpl. by rewrite string_append_assoc. }
  split; [done|]. rewrite registered_setControllerMesh. by rewrite decide_True.
Qed.

(** ** The session hooks *)

(** X14: once the profile of a tracked-pointer input source resolves, the
    pool of that source's key holds one new node of the resolved asset,
    hidden and a child of the manager; the next [addController] for the
    source, while not blurred, selects that node and shows it with the given
    transform. *)
Theorem profile_then_show s inputSource assetPath (gripMatrix : Matrix) :
  _blurred s = false ->
  targetRayMode inputSource = "tracked-pointer" ->
  let s1 := onProfileFetched s inputSource assetPath in
  let node := length (heap s) in
  let hh := Some (handedness inputSource) in
  let p := head (profiles inputSource) in
  registered s1 (controllerKey hh p)
    = Some {| nodes := [node]; activeCount := 0; ctl_visible := None |}
  /\ heap s1 !! node = Some (set_visible false (Gltf2Node_new assetPath))
  /\ node ∈ children s1
  /\ addController_node s1 hh p = Some node
  /\ exists s2,
       addController s1 gripMatrix hh p = Normal s2
       /\ heap s2 !! node
          = Some (set_visible true
                    (set_matrix gripMatrix (Gltf2Node_new assetPath))).
Proof.
  intros Hb Hmode s1 node hh p.
  assert (s1 = setControllerMesh (alloc (Gltf2Node_new assetPath) s).1 node hh p)
    as Hs1.
  { subst s1. unfold onProfileFetched. by rewrite Hmode. }
  assert (registered s1 (controllerKey hh p)
          = Some {| nodes := [node]; activeCount := 0; ctl_visible := None |})
    as Hreg.
  { rewrite Hs1, registered_setControllerMesh. by rewrite decide_True. }
  assert (heap s1 !! node = Some (set_visible false (Gltf2Node_new assetPath)))
    as Hnode.
  { rewrite Hs1. simpl. by rewrite list_lookup_alter_eq, list_lookup_middle. }
  split; [done|]. split; [done|]. split.
  { rewrite Hs1. simpl. apply elem_of_app. right. by left. }
  unfold registered in Hreg.
  destruct (_controllers s1) as [reg1|] eqn:Hregs; [|done].
  assert (_blurred s1 = false) as Hb1 by by rewrite Hs1.
  destruct (addController_first s1 gripMatrix hh p reg1 _ node [] Hb1 Hregs Hreg
              eq_refl eq_refl) as [Hsel Hadd].
  split; [done|]. eexists. split; [exact Hadd|]. simpl.
  by rewrite (lookup_shown _ _ _ _ Hnode).
Qed.

Lemma step_blurred_show s op :
  _blurred s = true -> is_show op = true -> step s op = s.
Proof.
  intros Hb Hshow. unfold step.
  destruct op; try done; simpl.
  - unfold addController. rewrite Hb. by destruct (_controllers s).
  - unfold addLaserPointer. by rewrite Hb.
  - unfold addCursor. by rewrite Hb.
Qed.

Lemma run_blurred_shows s ops :
  _blurred s = true -> forallb is_show ops = true -> run s ops = s.
Proof.
  intros Hb. unfold run. induction ops as [|op ops IH]; simpl; [done|].
  intros [Hop Hops]%andb_true_iff. rewrite step_blurred_show by done. by apply IH.
Qed.

(** X15: suspension is transparent for shows: from a state that is not
    blurred, blurring, then any number of [add*] calls, then becoming visible
    again ends in the state the manager started from. *)
Theorem blur_shows_unblur s (ops : list Op) :
  _blurred s = false ->
  forallb is_show ops = true ->
  run s (OpVisibilityChange VisibleBlurred :: ops ++ [OpVisibilityChange Visible])
    = s.
Proof.
  intros Hb Hops. unfold run. simpl. rewrite foldl_snoc.
  fold (run (step s (OpVisibilityChange VisibleBlurred)) ops).
  rewrite run_blurred_shows; [|done|done].
  unfold step. simpl. destruct s. simpl in *. by subst.
Qed.

(** ** Past the capacity *)

Lemma carries_replaced matrices (m : Matrix) i n :
  i <> 0 -> carries matrices i n -> carries (<[0:=m]> matrices) i n.
Proof.
  intros Hi Hc m' Hm'. apply Hc. by rewrite list_lookup_insert_ne in Hm'.
Qed.

Lemma laser_pool_wrap M matrices s last (m : Matrix) :
  laser_frame M matrices s -> length matrices + 1 = M ->
  exists s1 s2,
    addLaserPointer s last = Normal s1
    /\ addLaserPointer s1 m = Normal s2
    /\ frame_ok (heap s2) (lasersView s2) M
         (carries (<[0:=m]> (matrices ++ [last]))).
Proof.
  intros Hstart HM.
  destruct (laser_frame_step M matrices s last Hstart ltac:(lia))
    as (s1 & Hadd1 & HInv1 & Hb1 & Hrd1 & Hmax1 & _ & Hframe1).
  pose proof Hstart as (HInv & Hb & Hrd & Hmax & Hact & _).
  destruct (addLaserPointer_shape s last HInv Hb Hrd)
    as (s1' & _ & _ & Hadd1' & _ & _ & _ & _ & Hact1 & _).
  assert (s1' = s1) as -> by congruence.
  rewrite Hact, Hmax in Hact1 by lia.
  rewrite HM, Nat.Div0.mod_same in Hact1.
  destruct (addLaserPointer_shape s1 m HInv1 Hb1 Hrd1)
    as (s2 & h2 & node & Hadd2 & _ & _ & _ & _ & _ & Hheap2 & Hcase).
  exists s1, s2. split; [done|]. split; [done|].
  rewrite length_app in Hframe1. simpl in Hframe1. rewrite HM in Hframe1.
  destruct Hframe1 as (Hnd & Hj & Hall). rewrite Hact1 in Hcase.
  destruct Hcase as [(Hnode & -> & ->)|(Hge & _)]; [|lia].
  split; [done|]. split; [done|]. intros i r Hr.
  destruct (Hall i r Hr) as (n & Hn & Hcase). rewrite Hheap2.
  destruct (decide (i = 0)) as [->|Hi].
  - assert (r = node) as -> by congruence.
    exists (set_visible true (set_matrix m n)). split.
    { by rewrite !list_lookup_alter_eq, Hn. }
    rewrite decide_True by lia. split; [done|].
    intros m' Hm'. rewrite list_lookup_insert_eq in Hm'.
    + by injection Hm' as <-.
    + rewrite length_app. simpl. lia.
  - assert (r <> node) as Hne.
    { intros ->. apply Hi. by eapply NoDup_lookup. }
    exists n. split.
    { by rewrite !list_lookup_alter_ne. }
    case_decide; [|done]. destruct Hcase as [Hvis Hcar].
    split; [done|]. by apply carries_replaced.
Qed.

(** X19: the capacity bound of the frame contract is tight.  In a reachable
    state with the backend attached and the manager not blurred, after a
    reset that returns and selects the lasers, a frame of one
    [addLaserPointer] more than the capacity leaves as many nodes of the
    laser pool visible as the capacity: the last call takes the node at
    index 0 again and replaces the transform of the first call, and the
    other lasers of the pool keep theirs. *)
Theorem laser_frame_wraps (h0 : list Node) s options (matrices : list Matrix)
    (m : Matrix) :
  reachable h0 s -> (reset s options).2 = Normal tt ->
  _blurred s = false -> is_Some (_renderer s) ->
  lasers (default DEFAULT_RESET_OPTIONS options) = true ->
  length matrices = _maxInputElements s ->
  let s' := addLaserPointers (reset s options).1 (matrices ++ [m]) in
  lasersVisible s' = length matrices
  /\ forall i mi, <[0:=m]> matrices !! i = Some mi ->
       exists r n, lasersView s' !! i = Some r /\ heap s' !! r = Some n
         /\ visible n = true /\ matrix n = Some mi.
Proof.
  intros Hreach Hret Hb Hrd Ho Hlen s'.
  assert (_maxInputElements s = 32) as Hmax.
  { destruct Hreach as [ops ->].
    by destruct (extends_run (constructor h0) ops) as (_ & _ & _ & ->). }
  pose proof (laser_frame_start h0 s options Hreach Hret Hb Hrd Ho) as Hstart.
  destruct matrices as [|last init _] using rev_ind.
  { simpl in Hlen. lia. }
  rewrite length_app in Hlen. simpl in Hlen.
  pose proof (laser_frame_run _ init _ Hstart ltac:(lia)) as Hinit.
  destruct (laser_pool_wrap _ init _ last m Hinit Hlen)
    as (s1 & s2 & Hadd1 & Hadd2 & Hframe).
  assert (s' = s2) as ->.
  { subst s'. unfold addLaserPointers. rewrite !foldl_snoc.
    fold (addLaserPointers (reset s options).1 init). by rewrite Hadd1, Hadd2. }
  rewrite length_app. simpl. rewrite Hlen.
  split; [by eapply frame_ok_count|].
  intros i mi Hmi. destruct Hframe as (_ & Hj & Hall).
  pose proof (lookup_lt_Some _ _ _ Hmi) as Hi.
  rewrite length_insert, length_app in Hi. simpl in Hi.
  destruct (lookup_lt_is_Some_2 (lasersView s2) i) as [r Hr]; [lia|].
  destruct (Hall i r Hr) as (n & Hn & Hcase).
  rewrite decide_True in Hcase by lia. destruct Hcase as [Hvis Hcar].
  exists r, n. split; [done|]. split; [done|]. split; [done|]. by apply Hcar.
Qed.

(** ** The cursor mesh *)

Lemma cursorIndices_eq : cursorIndices = cursorIndicesOf CURSOR_SEGMENTS.
Proof. done. Qed.

Lemma fmap_flat_map {A B C} (F : B -> C) (f : A -> list B) (g : A -> list C)
    (l : list A) :
  (forall a, a ∈ l -> F <$> f a = g a) ->
  F <$> flat_map f l = flat_map g l.
Proof.
  induction l as [|a l IH]; intros Hall; simpl; [done|].
  rewrite fmap_app, (Hall a) by by left.
  rewrite IH; [done|]. intros b Hb. apply Hall. by right.
Qed.

Lemma flat_map_Some {A B} (g : A -> list B) (l : list A) :
  Some <$> flat_map g l = flat_map (fun a => Some <$> g a) l.
Proof. by apply fmap_flat_map. Qed.

Lemma length_flat_map_seq {B} (f : nat -> list B) (c : nat -> nat) : forall n a,
  (forall i, length (f i) = c i) ->
  length (flat_map f (seq a n)) = sum_list (c <$> seq a n).
Proof.
  induction n as [|n IH]; intros a Hlen; simpl; [done|].
  by rewrite length_app, Hlen, IH.
Qed.

Lemma center_length n :
  length (flat_map (fun i => if decide (1 < i) then [0; i - 1; i] else [])
            (seq 0 n)) = 3 * (n - 2).
Proof.
  induction n as [|n IH]; [done|].
  rewrite seq_S, flat_map_app, length_app, IH. simpl.
  case_decide; simpl; lia.
Qed.

Lemma skirt_length off n :
  length (flat_map (fun i =>
                      if decide (0 < i)
                      then let idx := off + i * 2 in
                           [idx - 2; idx - 1; idx; idx - 1; idx + 1; idx]
                      else [])
            (seq 0 n)) = 6 * (n - 1).
Proof.
  induction n as [|n IH]; [done|].
  rewrite seq_S, flat_map_app, length_app, IH. simpl.
  case_decide; simpl; lia.
Qed.

Lemma skirt_verts_lookup n : forall a i,
  i < n ->
  flat_map (fun i => [SkirtInnerVertex i; SkirtOuterVertex i]) (seq a n)
    !! (i * 2) = Some (SkirtInnerVertex (a + i))
  /\ flat_map (fun i => [SkirtInnerVertex i; SkirtOuterVertex i]) (seq a n)
       !! (i * 2 + 1) = Some (SkirtOuterVertex (a + i)).
Proof.
  induction n as [|n IH]; intros a i Hi; [lia|].
  destruct i as [|i]; simpl.
  - by rewrite Nat.add_0_r.
  - destruct (IH (S a) i ltac:(lia)) as [H1 H2].
    rewrite H1, H2. by replace (S a + i) with (a + S i) by lia.
Qed.

Lemma cursorVerts_length n : length (cursorVertsOf n) = 3 * n.
Proof.
  unfold cursorVertsOf. rewrite length_app, length_fmap, length_seq.
  rewrite (length_flat_map_seq _ (fun _ => 2)) by done.
  assert (forall a, sum_list ((fun _ => 2) <$> seq a n) = 2 * n) as ->; [|lia].
  induction n as [|k IH]; intros a; simpl; [done|]. rewrite IH. lia.
Qed.

Lemma cursorVerts_center n i :
  i < n -> cursorVertsOf n !! i = Some (CenterVertex i).
Proof.
  intros Hi. unfold cursorVertsOf.
  rewrite lookup_app_l by by rewrite length_fmap, length_seq.
  by rewrite list_lookup_fmap, lookup_seq_lt.
Qed.

Lemma cursorVerts_skirt n i :
  i < n ->
  cursorVertsOf n !! (n + i * 2) = Some (SkirtInnerVertex i)
  /\ cursorVertsOf n !! (n + i * 2 + 1) = Some (SkirtOuterVertex i).
Proof.
  intros Hi. unfold cursorVertsOf.
  rewrite !lookup_app_r by (rewrite length_fmap, length_seq; lia).
  rewrite length_fmap, length_seq.
  replace (n + i * 2 - n) with (i * 2) by lia.
  replace (n + i * 2 + 1 - n) with (i * 2 + 1) by lia.
  apply (skirt_verts_lookup n 0 i Hi).
Qed.

Lemma cursor_decode n :
  2 <= n ->
  (fun i => cursorVertsOf n !! i) <$> cursorIndicesOf n
    = Some <$> cursorTrianglesOf n.
Proof.
  intros Hn. unfold cursorIndicesOf, cursorTrianglesOf. cbv zeta.
  rewrite !fmap_app. f_equal; [|f_equal].
  - rewrite flat_map_Some. apply fmap_flat_map. intros i Hi.
    apply elem_of_seq in Hi. case_decide; [|done]. simpl.
    by rewrite !cursorVerts_center by lia.
  - rewrite flat_map_Some. apply fmap_flat_map. intros i Hi.
    apply elem_of_seq in Hi. case_decide; [|done]. simpl.
    destruct (cursorVerts_skirt n i ltac:(lia)) as [Hin Hout].
    destruct (cursorVerts_skirt n (i - 1) ltac:(lia)) as [Hin' Hout'].
    replace (n + i * 2 - 2) with (n + (i - 1) * 2) by lia.
    replace (n + i * 2 - 1) with (n + (i - 1) * 2 + 1) by lia.
    by rewrite Hin, Hout, Hin', Hout'.
  - simpl.
    destruct (cursorVerts_skirt n 0 ltac:(lia)) as [Hin Hout].
    destruct (cursorVerts_skirt n (n - 1) ltac:(lia)) as [Hin' Hout'].
    replace (n + n * 2 - 2) with (n + (n - 1) * 2) by lia.
    replace (n + n * 2 - 1) with (n + (n - 1) * 2 + 1) by lia.
    replace (n + 0 * 2) with n in Hin, Hout by lia.
    by rewrite Hin, Hout, Hin', Hout'.
Qed.

(** X16: for every number of segments from 2 on, the loops of
    [_createCursorMesh] push [3 * segments] vertices and [9 * segments - 6]
    indices, every index refers to a pushed vertex, and the index list read
    against the vertex list is the fan over the rim of the dot followed by
    the skirt, two triangles per pair of neighbouring segments, closed
    between the last segment and the first. *)
Theorem cursor_mesh_geometry (segments : nat) :
  2 <= segments ->
  length (cursorVertsOf segments) = 3 * segments
  /\ length (cursorIndicesOf segments) = 9 * segments - 6
  /\ Forall (fun i => i < length (cursorVertsOf segments)) (cursorIndicesOf segments)
  /\ (fun i => cursorVertsOf segments !! i) <$> cursorIndicesOf segments
     = Some <$> cursorTrianglesOf segments.
Proof.
  intros Hn. pose proof (cursor_decode segments Hn) as Hdec.
  split; [apply cursorVerts_length|]. split; [|split; [|done]].
  - unfold cursorIndicesOf. cbv zeta.
    rewrite !length_app, center_length, skirt_length. simpl. lia.
  - apply Forall_forall. intros i Hi.
    apply (list_elem_of_fmap_2 (fun i => cursorVertsOf segments !! i)) in Hi.
    rewrite Hdec in Hi. apply list_elem_of_fmap in Hi as (v & Hv & _).
    by eapply lookup_lt_Some.
Qed.

Section PrimitiveFacts.

Context {Buffer Bounds : Type}.

Lemma orElse_nonzero x d : d <> 0%Z -> orElse x d <> 0%Z.
Proof. intros Hd. unfold orElse. destruct x as [v|]; [|done]. by case_decide. Qed.

Lemma orElse_kept v d : d <> 0%Z -> orElse (Some v) d = v <-> v <> 0%Z.
Proof.
  intros Hd. unfold orElse. case_decide; [|done]. subst. split; [done|].
  intros Hne. by destruct Hne.
Qed.

(** X17: a number argument that is 0 counts as omitted.  The component
    count and the component type of a [PrimitiveAttribute], the mode of a
    [Primitive] and the index type that [setIndexBuffer] sets are each kept
    exactly when they are not 0 and are never 0 afterwards (mode 0 becomes
    4); stride, byte offsets and the element count are kept as given; name
    and buffer are stored and [normalized] is false.  A new [Primitive] has
    the given attributes (none when omitted), no index buffer, index byte
    offset 0, index type 0 and no bounds.  [setIndexBuffer] stores the index
    buffer it is given and replaces the index byte offset and type; a
    second call overrides the first; attributes, element count, mode and
    bounds are untouched. *)
Theorem primitive_zero_is_omitted (name : string) (buffer : Buffer)
    (cc ct st bo ec m off ty off' ty' : option Z)
    (attrs : option (list (@PrimitiveAttribute Buffer)))
    (ib ib' : option Buffer) (p : @Primitive Buffer Bounds) (v : Z) :
  let a := PrimitiveAttribute_new name buffer cc ct st bo in
  let q : @Primitive Buffer Bounds := Primitive_new attrs ec m in
  let r := setIndexBuffer p ib off ty in
  (componentCount a <> 0%Z /\ componentType a <> 0%Z /\ mode q <> 0%Z
   /\ indexType r <> 0%Z)
  /\ ((componentCount (PrimitiveAttribute_new name buffer (Some v) ct st bo) = v
       <-> v <> 0%Z)
      /\ (componentType (PrimitiveAttribute_new name buffer cc (Some v) st bo) = v
          <-> v <> 0%Z)
      /\ (mode (Primitive_new (Bounds := Bounds) attrs ec (Some v)) = v
          <-> v <> 0%Z)
      /\ (indexType (setIndexBuffer p ib off (Some v)) = v <-> v <> 0%Z)
      /\ mode (Primitive_new (Bounds := Bounds) attrs ec (Some 0%Z)) = 4%Z)
  /\ (stride (PrimitiveAttribute_new name buffer cc ct (Some v) bo) = v
      /\ byteOffset (PrimitiveAttribute_new name buffer cc ct st (Some v)) = v
      /\ indexByteOffset (setIndexBuffer p ib (Some v) ty) = v
      /\ elementCount (Primitive_new (Bounds := Bounds) attrs (Some v) m) = v
      /\ pa_name a = name /\ pa_buffer a = buffer /\ normalized a = false)
  /\ (attributes q = default [] attrs
      /\ indexBuffer q = None /\ indexByteOffset q = 0%Z /\ indexType q = 0%Z
      /\ _min q = None /\ _max q = None)
  /\ (indexBuffer r = ib
      /\ setIndexBuffer r ib' off' ty' = setIndexBuffer p ib' off' ty'
      /\ attributes r = attributes p /\ elementCount r = elementCount p
      /\ mode r = mode p /\ _min r = _min p /\ _max r = _max p).
Proof.
  intros a q r. simpl.
  assert (forall d, orElse (Some v) d = v <-> v <> 0%Z \/ d = 0%Z) as Hkept.
  { intros d. unfold orElse. case_decide; [|split; auto].
    subst. split; [auto|]. by intros [Hne|<-]. }
  pose proof (orElse_kept v) as Hkept'.
  split.
  { repeat split; by apply orElse_nonzero. }
  split.
  { repeat split; try (by apply Hkept'); by apply Hkept'. }
  split.
  { repeat split; try done; apply Hkept; by right. }
  done.
Qed.

(** X18: for every number of segments from 2 to 21845, the cursor primitive
    is an indexed triangle list.  Its mode is 4 ([TRIANGLES]); its element
    count is the number of indices, which is [3 * (3 * segments - 2)]; its
    index buffer is the one built from the indices, at byte offset 0, with
    index type 5123 ([UNSIGNED_SHORT]), and every index is below 65536, so
    the [Uint16Array] holds the indices unchanged.  It has exactly one
    attribute: [POSITION] on the vertex buffer, 4 components of type 5126
    ([FLOAT], 4 bytes each) at byte offset 0 with stride 16, not normalized;
    the four floats of a vertex fill the stride.  It has no bounds. *)
Theorem cursorPrimitive_shape (segments : nat)
    (cursorVertexBuffer cursorIndexBuffer : Buffer) :
  2 <= segments -> (Z.of_nat segments <= 21845)%Z ->
  let p : @Primitive Buffer Bounds :=
    cursorPrimitiveOf segments cursorVertexBuffer cursorIndexBuffer in
  mode p = 4%Z
  /\ indexType p = 5123%Z
  /\ indexBuffer p = Some cursorIndexBuffer
  /\ indexByteOffset p = 0%Z
  /\ elementCount p = Z.of_nat (length (cursorIndicesOf segments))
  /\ elementCount p = (3 * Z.of_nat (3 * segments - 2))%Z
  /\ Forall (fun i => (Z.of_nat i < 65536)%Z) (cursorIndicesOf segments)
  /\ attributes p =
       [{| pa_name := "POSITION"; pa_buffer := cursorVertexBuffer;
           componentCount := 4; componentType := 5126; stride := 16;
           byteOffset := 0; normalized := false |}]
  /\ Forall (fun a => (byteOffset a + 4 * componentCount a = stride a)%Z)
       (attributes p)
  /\ _min p = None /\ _max p = None.
Proof.
  intros Hn Hmax p.
  assert (length (cursorIndicesOf segments) = 9 * segments - 6) as Hlen.
  { unfold cursorIndicesOf. cbv zeta.
    rewrite !length_app, center_length, skirt_length. simpl. lia. }
  assert (Forall (fun i => (Z.of_nat i < 65536)%Z) (cursorIndicesOf segments))
    as Hfit.
  { apply Forall_forall. intros i Hi.
    apply (list_elem_of_fmap_2 (fun i => cursorVertsOf segments !! i)) in Hi.
    rewrite (cursor_decode segments Hn) in Hi.
    apply list_elem_of_fmap in Hi as (v & Hv & _).
    apply lookup_lt_Some in Hv.
    rewrite cursorVerts_length in Hv. lia. }
  subst p. unfold cursorPrimitiveOf. cbv zeta. simpl.
  assert (Z.of_nat (length (cursorIndicesOf segments)) <> 0%Z) as Hnz by lia.
  unfold orElse. rewrite decide_False by done.
  split; [done|]. split; [done|]. split; [done|]. split; [done|].
  split; [done|]. split; [lia|]. split; [done|]. split; [done|].
  split; [|done]. apply Forall_singleton. simpl. lia.
Qed.

End PrimitiveFacts.

End Manager.

(** * Concrete runs *)

(** Transforms, positions and the backend are numbered in the runs below; a
    new node starts visible. *)
Abbreviation IR := (@InputRenderer nat nat nat) (only parsing).

Abbreviation left_A := (Some "left", Some "profileA") (only parsing).

(** A session: the backend is attached, the profile of the left controller
    resolves, and one frame shows that controller. *)
Abbreviation session_ops :=
  [OpSetRenderer (Some 0);
   OpSetControllerMesh "a.glb" (Some "left") (Some "profileA");
   OpAddController 11 (Some "left") (Some "profileA")]
  (only parsing).

Abbreviation session := (run true (constructor [] : IR) session_ops) (only parsing).

(** The same session with two frames of lasers and cursors. *)
Abbreviation frames_ops :=
  (session_ops
     ++ [OpAddLaserPointer 21; OpAddLaserPointer 22; OpAddCursor 31;
         OpReset None;
         OpAddController 12 (Some "left") (Some "profileA");
         OpAddLaserPointer 23; OpAddLaserPointer 24; OpAddCursor 32])
  (only parsing).

Abbreviation frames := (run true (constructor [] : IR) frames_ops) (only parsing).

(** A session in which a pool is registered under the key ["__proto__"],
    shown once, and one laser is shown. *)
Abbreviation proto_ops :=
  [OpSetRenderer (Some 0);
   OpSetControllerMesh "p.glb" (Some "_proto__") (Some "");
   OpAddController 11 (Some "_proto__") (Some "");
   OpAddLaserPointer 21]
  (only parsing).

Abbreviation proto_session := (run true (constructor [] : IR) proto_ops) (only parsing).

(** A session in which the backend changes after two lasers and a cursor
    were shown. *)
Abbreviation rebound_ops :=
  [OpSetRenderer (Some 0);
   OpAddLaserPointer 21; OpAddLaserPointer 22; OpAddCursor 31;
   OpSetRenderer (Some 1)]
  (only parsing).

Abbreviation rebound := (run true (constructor [] : IR) rebound_ops) (only parsing).

Abbreviation lasers_only :=
  (Some {| controllers := false; lasers := true; cursors := false |})
  (only parsing).

(** A manager of capacity 2 whose store holds one template node. *)
Abbreviation capacity2 :=
  ({| heap := [Gltf2Node_new true "T.glb"]; children := [];
      _maxInputElements := 2;
      _controllers := None; _lasers := None; _cursors := None;
      _activeControllers := 0; _activeLasers := 0; _activeCursors := 0;
      _blurred := false; _renderer := None; inheritedVisible := ∅ |} : IR)
  (only parsing).

(** C1 fails as stated: after two registrations under one key with the
    nodes 0 and 1, the pool holds node 1, not node 0. *)
Lemma setControllerMesh_first_wins_counterexample :
  let s0 : IR :=
    constructor [Gltf2Node_new true "first.glb"; Gltf2Node_new true "second.glb"] in
  let s1 := setControllerMesh s0 0 (Some "left") (Some "profileA") in
  let s2 := setControllerMesh s1 1 (Some "left") (Some "profileA") in
  registered s1 "profileA_left"
    = Some {| nodes := [0]; activeCount := 0; ctl_visible := None |}
  /\ registered s2 "profileA_left"
       = Some {| nodes := [1]; activeCount := 0; ctl_visible := None |}
  /\ registered s2 "profileA_left" <> registered s1 "profileA_left".
Proof. vm_compute. repeat split. discriminate. Qed.

(** C4 fails as stated: in a session with a visible controller node,
    [onRendererChanged] leaves that node visible and a child of the manager,
    and the registry entry of its key is gone. *)
Lemma onRendererChanged_counterexample :
  registered session "profileA_left"
    = Some {| nodes := [0]; activeCount := 1; ctl_visible := None |}
  /\ visible <$> heap session !! 0 = Some true
  /\ registered (onRendererChanged session None) "profileA_left" = None
  /\ visible <$> heap (onRendererChanged session None) !! 0 = Some true
  /\ 0 ∈ children (onRendererChanged session None).
Proof. vm_compute. repeat split. by left. Qed.




Lemma blurred_show_is_noop_witness :
  let s : IR := onVisibilityChange session VisibleBlurred in
  _blurred s = true
  /\ addController s 12 (Some "left") (Some "profileA") = Normal s
  /\ addLaserPointer true s 21 = Normal s
  /\ addCursor true s 31 = Normal s.
Proof.
  intros s.
  assert (_blurred s = true) as Hb by (vm_compute; reflexivity).
  split; [exact Hb|].
  destruct (blurred_show_is_noop true s 12 21 31 (Some "left") (Some "profileA") Hb)
    as (Hc & _ & Hl & Hcu & _).
  exact (conj Hc (conj Hl Hcu)).
Defined.

Lemma hideController_marks_record_only_witness :
  registered session (controllerKey (Some "left") (Some "profileA"))
    = Some {| nodes := [0]; activeCount := 1; ctl_visible := None |}
  /\ registered (hideController session (Some "left") (Some "profileA"))
       (controllerKey (Some "left") (Some "profileA"))
     = Some {| nodes := [0]; activeCount := 1; ctl_visible := Some true |}
  /\ heap (hideController session (Some "left") (Some "profileA")) = heap session.
Proof.
  assert (registered session (controllerKey (Some "left") (Some "profileA"))
          = Some {| nodes := [0]; activeCount := 1; ctl_visible := None |})
    as Hreg by (vm_compute; reflexivity).
  split; [exact Hreg|].
  destruct (hideController_marks_record_only true session
              (Some "left") (Some "profileA") _ Hreg)
    as (Hrec & _ & Hheap & _).
  exact (conj Hrec Hheap).
Defined.

(** The scenario of C3 with capacity 2: three calls select the nodes at
    indices 0, 1 and 0 (node 0 is the template, node 1 its clone). *)
Lemma addController_round_robin_witness :
  _blurred capacity2 = false
  /\ 0 < _maxInputElements capacity2
  /\ heap capacity2 !! 0 = Some (Gltf2Node_new true "T.glb")
  /\ acquired (setControllerMesh capacity2 0 (Some "left") (Some "profileA"))
       [11; 12; 13] (Some "left") (Some "profileA")
     = [Some 0; Some 1; Some 0].
Proof.
  assert (_blurred capacity2 = false) as Hb by reflexivity.
  assert (0 < _maxInputElements capacity2) as HM by (simpl; lia).
  assert (heap capacity2 !! 0 = Some (Gltf2Node_new true "T.glb")) as Hn
    by reflexivity.
  split; [exact Hb|]. split; [exact HM|]. split; [exact Hn|].
  destruct (addController_round_robin capacity2 0 (Gltf2Node_new true "T.glb")
              (Some "left") (Some "profileA") [11; 12; 13] Hb HM Hn)
    as (_ & _ & Hgot & _).
  rewrite Hgot. reflexivity.
Defined.

Lemma reset_contract_witness :
  reachable true [] frames
  /\ (reset frames None).2 = Normal tt
  /\ reset (reset frames None).1 None = ((reset frames None).1, Normal tt)
  /\ exists r0 s2,
       addController_node (reset frames None).1 (Some "left") (Some "profileA")
         = Some r0
       /\ visible <$> heap (reset frames None).1 !! r0 = Some false
       /\ addController (reset frames None).1 13 (Some "left") (Some "profileA")
            = Normal s2
       /\ visible <$> heap s2 !! r0 = Some true.
Proof.
  assert (reachable true [] frames) as Hreach by (exists frames_ops; reflexivity).
  assert ((reset frames None).2 = Normal tt) as Hret by (vm_compute; reflexivity).
  assert (_blurred frames = false) as Hb by (vm_compute; reflexivity).
  assert (registered frames (controllerKey (Some "left") (Some "profileA"))
          = Some {| nodes := [0]; activeCount := 1; ctl_visible := None |})
    as Hreg by (vm_compute; reflexivity).
  split; [exact Hreach|]. split; [exact Hret|].
  destruct (reset_contract true [] frames None 13 25 33
              (Some "left") (Some "profileA") Hreach Hret)
    as (_ & _ & _ & Hidem & Hacq & _).
  split; [exact Hidem|].
  destruct (Hacq Hb eq_refl _ Hreg) as (r0 & s2 & _ & Hnode & Hhid & Hadd & Hshown).
  exists r0, s2. exact (conj Hnode (conj Hhid (conj Hadd Hshown))).
Defined.


(** ** Instances of the further properties *)

(** In the session, [addController] throws for the key ["__proto__"] and
    returns for the registered key; [addLaserPointer] returns. *)
Lemma addController_addLaserPointer_return_witness :
  reachable true [] session
  /\ addController session 13 (Some "_proto__") (Some "") = Throw TypeError
  /\ (exists s', addController session 13 (Some "left") (Some "profileA") = Normal s'
                 /\ reachable true [] s')
  /\ (exists s', addLaserPointer true session 25 = Normal s'
                 /\ reachable true [] s').
Proof.
  assert (reachable true [] session) as Hreach by (exists session_ops; reflexivity).
  assert (is_Some (_controllers session) /\ _blurred session = false
          /\ registered session (controllerKey (Some "_proto__") (Some "")) = None
          /\ controllerKey (Some "_proto__") (Some "") ∈ inheritedNames) as Hcase.
  { split; [vm_compute; eexists; reflexivity|].
    split; [vm_compute; reflexivity|].
    split; [vm_compute; reflexivity|]. vm_compute. left. }
  assert (is_Some (registered session (controllerKey (Some "left") (Some "profileA"))))
    as Hreg by (vm_compute; eexists; reflexivity).
  split; [exact Hreach|].
  destruct (addController_addLaserPointer_return true [] session 13 25
              (Some "_proto__") (Some "") Hreach) as (Hthrow & _ & Hlaser).
  destruct (addController_addLaserPointer_return true [] session 13 25
              (Some "left") (Some "profileA") Hreach) as (_ & Hreturn & _).
  split; [exact (Hthrow Hcase)|].
  split; [exact (Hreturn (or_intror (or_intror (or_introl Hreg))))|].
  exact Hlaser.
Defined.

(** A manager that never had a backend throws on its first cursor. *)
Lemma addCursor_throws_iff_witness :
  reachable true [] (constructor [] : IR)
  /\ addCursor true (constructor [] : IR) 31 = Throw TypeError.
Proof.
  assert (reachable true [] (constructor [] : IR)) as Hreach
    by (exists []; reflexivity).
  split; [exact Hreach|].
  destruct (addCursor_throws_iff true [] (constructor [] : IR) 31 Hreach)
    as [Hthrow _].
  apply Hthrow. repeat split.
Defined.

Lemma pool_capacity_witness :
  reachable true [] frames
  /\ is_pool frames [1; 2]
  /\ _maxInputElements frames = 32
  /\ length [1; 2] <= 32.
Proof.
  assert (reachable true [] frames) as Hreach by (exists frames_ops; reflexivity).
  assert (is_pool frames [1; 2]) as Hpool
    by (right; left; vm_compute; reflexivity).
  split; [exact Hreach|]. split; [exact Hpool|].
  exact (pool_capacity true [] frames [1; 2] Hreach Hpool).
Defined.

Lemma pool_nodes_are_children_witness :
  reachable true [] frames
  /\ is_pool frames [1; 2]
  /\ 2 ∈ [1; 2]
  /\ 2 ∈ children frames
  /\ is_Some (heap frames !! 2).
Proof.
  assert (reachable true [] frames) as Hreach by (exists frames_ops; reflexivity).
  assert (is_pool frames [1; 2]) as Hpool
    by (right; left; vm_compute; reflexivity).
  assert (2 ∈ [1; 2]) as Hin by (right; left).
  split; [exact Hreach|]. split; [exact Hpool|]. split; [exact Hin|].
  exact (pool_nodes_are_children true [] frames [1; 2] 2 Hreach Hpool Hin).
Defined.

(** Three lasers in the frame after a reset of a session whose pool held
    two: all three are visible. *)
Lemma laser_frame_contract_witness :
  reachable true [] frames
  /\ (reset frames None).2 = Normal tt
  /\ _blurred frames = false
  /\ is_Some (_renderer frames)
  /\ length [41; 42; 43] <= _maxInputElements frames
  /\ lasersVisible (addLaserPointers true (reset frames None).1 [41; 42; 43]) = 3.
Proof.
  assert (reachable true [] frames) as Hreach by (exists frames_ops; reflexivity).
  assert ((reset frames None).2 = Normal tt) as Hret by (vm_compute; reflexivity).
  assert (_blurred frames = false) as Hb by (vm_compute; reflexivity).
  assert (is_Some (_renderer frames)) as Hrd by (exists 0; vm_compute; reflexivity).
  assert (length [41; 42; 43] <= _maxInputElements frames) as Hlen
    by (vm_compute; lia).
  split; [exact Hreach|]. split; [exact Hret|]. split; [exact Hb|].
  split; [exact Hrd|]. split; [exact Hlen|].
  destruct (laser_frame_contract true [] frames None [41; 42; 43]
              Hreach Hret Hb Hrd eq_refl Hlen) as [Hcount _].
  exact Hcount.
Defined.

Lemma controller_frame_contract_witness :
  reachable true [] frames
  /\ (reset frames None).2 = Normal tt
  /\ _blurred frames = false
  /\ registered frames (controllerKey (Some "left") (Some "profileA"))
     = Some {| nodes := [0]; activeCount := 1; ctl_visible := None |}
  /\ length [51; 52] <= _maxInputElements frames
  /\ exists c',
       registered
         (addControllers (reset frames None).1 [51; 52]
            (Some "left") (Some "profileA"))
         (controllerKey (Some "left") (Some "profileA")) = Some c'
       /\ visibleCount
            (addControllers (reset frames None).1 [51; 52]
               (Some "left") (Some "profileA"))
            (nodes c') = 2.
Proof.
  assert (reachable true [] frames) as Hreach by (exists frames_ops; reflexivity).
  assert ((reset frames None).2 = Normal tt) as Hret by (vm_compute; reflexivity).
  assert (_blurred frames = false) as Hb by (vm_compute; reflexivity).
  assert (registered frames (controllerKey (Some "left") (Some "profileA"))
          = Some {| nodes := [0]; activeCount := 1; ctl_visible := None |})
    as Hreg by (vm_compute; reflexivity).
  assert (length [51; 52] <= _maxInputElements frames) as Hlen
    by (vm_compute; lia).
  split; [exact Hreach|]. split; [exact Hret|]. split; [exact Hb|].
  split; [exact Hreg|]. split; [exact Hlen|].
  destruct (controller_frame_contract true [] frames None [51; 52]
              (Some "left") (Some "profileA") _ Hreach Hret Hb eq_refl Hreg Hlen)
    as (c' & Hreg' & Hcount & _).
  exists c'. exact (conj Hreg' Hcount).
Defined.

Lemma cursor_frame_contract_witness :
  reachable true [] frames
  /\ (reset frames None).2 = Normal tt
  /\ _blurred frames = false
  /\ is_Some (_renderer frames)
  /\ length [61; 62] <= _maxInputElements frames
  /\ visibleCount (addCursors true (reset frames None).1 [61; 62])
       (cursorsView (addCursors true (reset frames None).1 [61; 62])) = 2.
Proof.
  assert (reachable true [] frames) as Hreach by (exists frames_ops; reflexivity).
  assert ((reset frames None).2 = Normal tt) as Hret by (vm_compute; reflexivity).
  assert (_blurred frames = false) as Hb by (vm_compute; reflexivity).
  assert (is_Some (_renderer frames)) as Hrd by (exists 0; vm_compute; reflexivity).
  assert (length [61; 62] <= _maxInputElements frames) as Hlen
    by (vm_compute; lia).
  split; [exact Hreach|]. split; [exact Hret|]. split; [exact Hb|].
  split; [exact Hrd|]. split; [exact Hlen|].
  destruct (cursor_frame_contract true [] frames None [61; 62]
              Hreach Hret Hb Hrd eq_refl Hlen) as [Hcount _].
  exact Hcount.
Defined.

(** Showing the left controller of the session again leaves the laser and
    the cursor of the store as they were. *)
Lemma addController_frame_witness :
  let s' : IR :=
    match addController frames 13 (Some "left") (Some "profileA") with
    | Normal s' => s'
    | Throw _ => frames
    end in
  addController frames 13 (Some "left") (Some "profileA") = Normal s'
  /\ _lasers s' = _lasers frames
  /\ _cursors s' = _cursors frames
  /\ heap s' !! 1 = heap frames !! 1.
Proof.
  intros s'.
  assert (addController frames 13 (Some "left") (Some "profileA") = Normal s')
    as Hadd by (vm_compute; reflexivity).
  assert (addController_node frames (Some "left") (Some "profileA") <> Some 1)
    as Hne by (vm_compute; discriminate).
  split; [exact Hadd|].
  destruct (addController_frame frames 13 (Some "left") (Some "profileA") s' Hadd)
    as (_ & Hl & Hcu & _ & _ & _ & _ & Hheap).
  exact (conj Hl (conj Hcu (Hheap 1 Hne))).
Defined.

Lemma addLaserPointer_addCursor_frame_witness :
  let s' : IR :=
    match addLaserPointer true frames 25 with
    | Normal s' => s'
    | Throw _ => frames
    end in
  addLaserPointer true frames 25 = Normal s'
  /\ _controllers s' = _controllers frames
  /\ _cursors s' = _cursors frames.
Proof.
  intros s'.
  assert (addLaserPointer true frames 25 = Normal s') as Hadd
    by (vm_compute; reflexivity).
  split; [exact Hadd|].
  destruct (addLaserPointer_addCursor_frame true frames 25 33) as [Hlaser _].
  destruct (Hlaser s' Hadd) as (Hc & Hcu & _).
  exact (conj Hc Hcu).
Defined.

Lemma controllerKey_injective_witness :
  has_underscore "left" = false
  /\ has_underscore "right" = false
  /\ registered
       (setControllerMesh session 5 (Some "left") (Some "profileA"))
       (controllerKey None (Some "profileA"))
     = registered session (controllerKey None (Some "profileA")).
Proof.
  assert (has_underscore (default "right" (Some "left")) = false) as H1
    by reflexivity.
  assert (has_underscore (default "right" None) = false) as H2 by reflexivity.
  split; [exact H1|]. split; [exact H2|].
  destruct (@controllerKey_injective nat nat nat
              (Some "left") (Some "profileA") None (Some "profileA") H1 H2)
    as [_ Hreg].
  apply Hreg. discriminate.
Defined.

Lemma profile_then_show_witness :
  let inputSource :=
    {| targetRayMode := "tracked-pointer"; handedness := "right";
       profiles := ["profileB"; "generic-trigger"] |} in
  let s1 : IR := onProfileFetched true session inputSource "b.glb" in
  _blurred session = false
  /\ registered s1 "profileB_right"
     = Some {| nodes := [1]; activeCount := 0; ctl_visible := None |}
  /\ addController_node s1 (Some "right") (Some "profileB") = Some 1.
Proof.
  intros inputSource s1.
  assert (_blurred session = false) as Hb by (vm_compute; reflexivity).
  split; [exact Hb|].
  destruct (profile_then_show true session inputSource "b.glb" 14 Hb eq_refl)
    as (Hreg & _ & _ & Hnode & _).
  assert (length (heap session) = 1) as Hlen by (vm_compute; reflexivity).
  rewrite Hlen in Hreg, Hnode.
  exact (conj Hreg Hnode).
Defined.

Lemma blur_shows_unblur_witness :
  _blurred session = false
  /\ run true session
       [OpVisibilityChange VisibleBlurred;
        OpAddController 12 (Some "left") (Some "profileA");
        OpAddLaserPointer 21; OpAddCursor 31;
        OpVisibilityChange Visible]
     = session.
Proof.
  assert (_blurred session = false) as Hb by (vm_compute; reflexivity).
  split; [exact Hb|].
  exact (blur_shows_unblur true session
           [OpAddController 12 (Some "left") (Some "profileA");
            OpAddLaserPointer 21; OpAddCursor 31]
           Hb eq_refl).
Defined.

(** The cursor of the source has 16 segments: 48 vertices and 138 indices. *)
Lemma cursor_mesh_geometry_witness :
  2 <= CURSOR_SEGMENTS
  /\ length (cursorVertsOf CURSOR_SEGMENTS) = 48
  /\ length (cursorIndicesOf CURSOR_SEGMENTS) = 138.
Proof.
  assert (2 <= CURSOR_SEGMENTS) as Hn by (vm_compute; lia).
  split; [exact Hn|].
  destruct (cursor_mesh_geometry CURSOR_SEGMENTS Hn) as (Hv & Hi & _).
  exact (conj Hv Hi).
Defined.

Lemma cursorPrimitive_shape_witness :
  2 <= CURSOR_SEGMENTS
  /\ (Z.of_nat CURSOR_SEGMENTS <= 21845)%Z
  /\ mode (cursorPrimitiveOf (Bounds := nat) CURSOR_SEGMENTS 0 1) = 4%Z
  /\ indexType (cursorPrimitiveOf (Bounds := nat) CURSOR_SEGMENTS 0 1) = 5123%Z.
Proof.
  assert (2 <= CURSOR_SEGMENTS) as Hn by (vm_compute; lia).
  assert (Z.of_nat CURSOR_SEGMENTS <= 21845)%Z as Hmax by (vm_compute; discriminate).
  split; [exact Hn|]. split; [exact Hmax|].
  destruct (cursorPrimitive_shape (Bounds := nat) CURSOR_SEGMENTS 0 1 Hn Hmax)
    as (Hmode & Hty & _).
  exact (conj Hmode Hty).
Defined.

(** A frame of 33 lasers shows 32, and the laser at index 0 carries the
    last transform. *)
Lemma laser_frame_wraps_witness :
  reachable true [] frames
  /\ (reset frames None).2 = Normal tt
  /\ _blurred frames = false
  /\ is_Some (_renderer frames)
  /\ length (seq 100 32) = _maxInputElements frames
  /\ lasersVisible
       (addLaserPointers true (reset frames None).1 (seq 100 32 ++ [7]))
     = length (seq 100 32).
Proof.
  assert (reachable true [] frames) as Hreach by (exists frames_ops; reflexivity).
  assert ((reset frames None).2 = Normal tt) as Hret by (vm_compute; reflexivity).
  assert (_blurred frames = false) as Hb by (vm_compute; reflexivity).
  assert (is_Some (_renderer frames)) as Hrd by (exists 0; vm_compute; reflexivity).
  assert (length (seq 100 32) = _maxInputElements frames) as Hlen
    by (vm_compute; reflexivity).
  split; [exact Hreach|]. split; [exact Hret|]. split; [exact Hb|].
  split; [exact Hrd|]. split; [exact Hlen|].
  destruct (laser_frame_wraps true [] frames None (seq 100 32) 7
              Hreach Hret Hb Hrd eq_refl Hlen) as [Hcount _].
  exact Hcount.
Defined.

(** Resetting the lasers and then the cursors of the session is resetting
    both at once. *)
Lemma reset_compose_witness :
  (reset frames lasers_only).2 = Normal tt
  /\ (reset frames
        (Some {| controllers := false; lasers := false; cursors := true |})).2
     = Normal tt
  /\ reset (reset frames lasers_only).1
        (Some {| controllers := false; lasers := false; cursors := true |})
     = reset frames
         (Some {| controllers := false; lasers := true; cursors := true |}).
Proof.
  assert ((reset frames lasers_only).2 = Normal tt) as Hret1
    by (vm_compute; reflexivity).
  assert ((reset frames
             (Some {| controllers := false; lasers := false; cursors := true |})).2
          = Normal tt) as Hret2 by (vm_compute; reflexivity).
  split; [exact Hret1|]. split; [exact Hret2|].
  destruct (reset_compose frames lasers_only
              (Some {| controllers := false; lasers := false; cursors := true |})
              Hret1 Hret2) as (Hunion & _).
  exact Hunion.
Defined.
